(** * Email ingestion: address utilities, source parsers and the upsert engine

    A shallow embedding of [src/services/email] (utils.ts, parser.ts,
    processor.ts, and the earlier versions of the processor and of two
    extractors that the sources keep) together with the properties of the
    specification that were checked against it and with properties read
    off the code itself.

    Conventions of the embedding:
    - JavaScript strings are [string] (sequences of 8-bit characters); case
      conversion, [\s], [\w], [\d] and [trim] act on the ASCII range only.
    - The numbers the code manipulates are exact: prices, bed counts and
      square footage are integers ([Z]), bath counts and lot sizes are
      decimal fractions.  [NaN] is outside the model; the text-to-number
      helpers say what they do on a digit-free input.
    - The Prisma store is a record of two tables kept as lists in insertion
      order, plus the supply of fresh primary keys.
    - A cheerio document is represented by the anchors it contains, in
      document order, each with the enclosing containers the parsers ask
      for. *)

From Stdlib Require Import ZArith List String Ascii Bool Arith Lia Permutation.
Import ListNotations.

Local Open Scope string_scope.
Local Open Scope list_scope.

(* ====================================================================== *)
(** ** Characters and strings *)
(* ====================================================================== *)

Module Str.

Definition chars (s : string) : list ascii := list_ascii_of_string s.
Definition str (l : list ascii) : string := string_of_list_ascii l.

Definition code (c : ascii) : nat := nat_of_ascii c.

Definition between (lo hi : nat) (c : ascii) : bool :=
  (lo <=? code c)%nat && (code c <=? hi)%nat.

Definition is_digit (c : ascii) : bool := between 48 57 c.
Definition is_upper (c : ascii) : bool := between 65 90 c.
Definition is_lower (c : ascii) : bool := between 97 122 c.
Definition is_alpha (c : ascii) : bool := is_upper c || is_lower c.

(** [\w] *)
Definition is_word (c : ascii) : bool :=
  is_alpha c || is_digit c || Ascii.eqb c "_".

(** [\s], and the characters [trim] removes: space, TAB, LF, VT, FF, CR. *)
Definition is_space (c : ascii) : bool :=
  Ascii.eqb c " " || between 9 13 c.

Definition lower_char (c : ascii) : ascii :=
  if is_upper c then ascii_of_nat (code c + 32) else c.

Definition lower_chars (l : list ascii) : list ascii := map lower_char l.

(** [s.toLowerCase()] *)
Definition toLowerCase (s : string) : string := str (lower_chars (chars s)).

Fixpoint drop_space (l : list ascii) : list ascii :=
  match l with
  | c :: l' => if is_space c then drop_space l' else l
  | [] => []
  end.

Definition trim_chars (l : list ascii) : list ascii :=
  rev (drop_space (rev (drop_space l))).

(** [s.trim()] *)
Definition trim (s : string) : string := str (trim_chars (chars s)).

Fixpoint prefix_chars (p l : list ascii) : bool :=
  match p, l with
  | [], _ => true
  | a :: p', b :: l' => Ascii.eqb a b && prefix_chars p' l'
  | _ :: _, [] => false
  end.

Fixpoint includes_chars (needle hay : list ascii) : bool :=
  prefix_chars needle hay ||
  match hay with
  | [] => false
  | _ :: hay' => includes_chars needle hay'
  end.

(** [hay.includes(needle)] *)
Definition includes (hay needle : string) : bool :=
  includes_chars (chars needle) (chars hay).

(** [s.split(sep)] for a one-character separator: the segments between the
    separators, empty segments included; never the empty list. *)
Fixpoint split_chars (sep : ascii) (cur : list ascii) (l : list ascii)
  : list (list ascii) :=
  match l with
  | [] => [rev cur]
  | c :: l' =>
      if Ascii.eqb c sep then rev cur :: split_chars sep [] l'
      else split_chars sep (c :: cur) l'
  end.

Definition split (sep : ascii) (s : string) : list string :=
  map str (split_chars sep [] (chars s)).

(** [s.split(/\s+/)]: a maximal run of white space is one separator;
    [insep] records that the previous character belonged to one. *)
Fixpoint split_ws_chars (insep : bool) (cur : list ascii) (l : list ascii)
  : list (list ascii) :=
  match l with
  | [] => [rev cur]
  | c :: l' =>
      if is_space c then
        if insep then split_ws_chars true [] l'
        else rev cur :: split_ws_chars true [] l'
      else split_ws_chars false (c :: cur) l'
  end.

Definition split_ws (s : string) : list string :=
  map str (split_ws_chars false [] (chars s)).

(** [parts.join(sep)] *)
Fixpoint join (sep : string) (parts : list string) : string :=
  match parts with
  | [] => ""
  | [p] => p
  | p :: rest => p ++ sep ++ join sep rest
  end.

Definition digit_val (c : ascii) : Z := Z.of_nat (code c - 48).

(** Value of a string of decimal digits; [0] on the empty string. *)
Definition digits_val (l : list ascii) : Z :=
  fold_left (fun acc c => 10 * acc + digit_val c)%Z l 0%Z.

Fixpoint take_while (p : ascii -> bool) (l : list ascii) : list ascii :=
  match l with
  | c :: l' => if p c then c :: take_while p l' else []
  | [] => []
  end.

Fixpoint drop_while (p : ascii -> bool) (l : list ascii) : list ascii :=
  match l with
  | c :: l' => if p c then drop_while p l' else l
  | [] => []
  end.

Definition is_empty (s : string) : bool :=
  match s with EmptyString => true | _ => false end.

End Str.

(* ====================================================================== *)
(** ** Regular expressions, as JavaScript's backtracking matcher runs them *)
(* ====================================================================== *)

Module Regex.
Import Str.

Inductive regex : Type :=
| Eps                               (* the empty pattern *)
| Chr (p : ascii -> bool)           (* one character of a class *)
| Seq (a b : regex)                 (* ab *)
| Alt (a b : regex)                 (* a|b, left alternative first *)
| Star (a : regex)                  (* a*, greedy *)
| Lazy (a : regex)                  (* a*?, reluctant *)
| Grp (i : nat) (a : regex)         (* capture group number i *)
| Bol                               (* ^ (no m flag) *)
| Eol                               (* $ (no m flag) *)
| Wordb.                            (* \b *)

Definition Plus (a : regex) : regex := Seq a (Star a).
Definition Opt (a : regex) : regex := Alt a Eps.

Fixpoint Rep (n : nat) (a : regex) : regex :=
  match n with
  | O => Eps
  | S n' => Seq a (Rep n' a)
  end.

Fixpoint seqs (l : list regex) : regex :=
  match l with
  | [] => Eps
  | [a] => a
  | a :: l' => Seq a (seqs l')
  end.

Fixpoint alts (l : list regex) : regex :=
  match l with
  | [] => Chr (fun _ => false)
  | [a] => a
  | a :: l' => Alt a (alts l')
  end.

Definition ch (c : ascii) : regex := Chr (Ascii.eqb c).
(** one character, compared without regard to case (the i flag) *)
Definition chi (c : ascii) : regex :=
  Chr (fun x => Ascii.eqb (lower_char x) (lower_char c)).
Definition lit (s : string) : regex := seqs (map ch (chars s)).
Definition liti (s : string) : regex := seqs (map chi (chars s)).

Definition digit : regex := Chr is_digit.                     (* \d *)
Definition space : regex := Chr is_space.                     (* \s *)
Definition upper : regex := Chr is_upper.                     (* [A-Z] *)
Definition any : regex := Chr (fun _ => true).                (* . with s *)
Definition not_of (l : list ascii) : regex :=                 (* [^...] *)
  Chr (fun c => negb (existsb (Ascii.eqb c) l)).
Definition one_of (l : list ascii) : regex :=                 (* [...] *)
  Chr (fun c => existsb (Ascii.eqb c) l).

Definition LF : ascii := ascii_of_nat 10.

(** Matcher state: the text already consumed (most recent character
    first), the text still ahead, and the captures made so far. *)
Record mstate : Type := MState {
  before : list ascii;
  after : list ascii;
  caps : list (nat * list ascii)
}.

Definition at_boundary (st : mstate) : bool :=
  let l := match before st with c :: _ => is_word c | [] => false end in
  let r := match after st with c :: _ => is_word c | [] => false end in
  xorb l r.

(** [run r st k]: match [r] at [st], then continue with [k]; alternatives
    are tried in JavaScript's order and the first success wins.  An
    iteration of a star that consumes nothing is rejected, as in
    ECMAScript's RepeatMatcher. *)
Fixpoint run (r : regex) (st : mstate) (k : mstate -> option mstate)
  : option mstate :=
  match r with
  | Eps => k st
  | Chr p =>
      match after st with
      | c :: rest =>
          if p c then k (MState (c :: before st) rest (caps st)) else None
      | [] => None
      end
  | Seq a b => run a st (fun st' => run b st' k)
  | Alt a b =>
      match run a st k with
      | Some e => Some e
      | None => run b st k
      end
  | Star a =>
      (fix loop (n : nat) (st : mstate) : option mstate :=
         match n with
         | O => k st
         | S n' =>
             match run a st (fun st' =>
                     if (List.length (after st') <? List.length (after st))%nat
                     then loop n' st' else None)
             with
             | Some e => Some e
             | None => k st
             end
         end) (List.length (after st)) st
  | Lazy a =>
      (fix loop (n : nat) (st : mstate) : option mstate :=
         match n with
         | O => k st
         | S n' =>
             match k st with
             | Some e => Some e
             | None =>
                 run a st (fun st' =>
                   if (List.length (after st') <? List.length (after st))%nat
                   then loop n' st' else None)
             end
         end) (List.length (after st)) st
  | Grp i a =>
      run a st (fun st' =>
        let n := (List.length (before st') - List.length (before st))%nat in
        k (MState (before st') (after st')
             ((i, rev (firstn n (before st'))) :: caps st')))
  | Bol => match before st with [] => k st | _ => None end
  | Eol => match after st with [] => k st | _ => None end
  | Wordb => if at_boundary st then k st else None
  end.

(** A successful match: the text before it, the matched text, the text
    after it, and the captures. *)
Record rmatch : Type := RMatch {
  m_pre : list ascii;
  m_text : list ascii;
  m_post : list ascii;
  m_caps : list (nat * list ascii)
}.

(** Leftmost match of [r] in [pre_rev]-then-[s], starting no earlier than
    the beginning of [s]. *)
Fixpoint search_from (r : regex) (pre_rev : list ascii) (s : list ascii)
  : option (list ascii * mstate) :=
  match run r (MState pre_rev s []) Some with
  | Some e => Some (pre_rev, e)
  | None =>
      match s with
      | [] => None
      | c :: s' => search_from r (c :: pre_rev) s'
      end
  end.

Definition to_match (start_rev : list ascii) (e : mstate) : rmatch :=
  let n := (List.length (before e) - List.length start_rev)%nat in
  RMatch (rev start_rev) (rev (firstn n (before e))) (after e) (caps e).

Definition search (r : regex) (s : list ascii) : option rmatch :=
  match search_from r [] s with
  | Some (p, e) => Some (to_match p e)
  | None => None
  end.

(** The latest capture of group [i], or the empty text. *)
Fixpoint cap (i : nat) (cs : list (nat * list ascii)) : list ascii :=
  match cs with
  | [] => []
  | (j, t) :: cs' => if (i =? j)%nat then t else cap i cs'
  end.

(** [s.match(r)] without the g flag: the matched text, [m[0]]. *)
Definition match0 (r : regex) (s : string) : option string :=
  match search r (chars s) with
  | Some m => Some (str (m_text m))
  | None => None
  end.

(** [s.match(r)] without the g flag: capture group [i] of the match. *)
Definition match_group (r : regex) (i : nat) (s : string) : option string :=
  match search r (chars s) with
  | Some m => Some (str (cap i (m_caps m)))
  | None => None
  end.

(** [r.test(s)] *)
Definition test (r : regex) (s : string) : bool :=
  match search r (chars s) with Some _ => true | None => false end.

(** Replacement templates: literal text and [$i] references. *)
Inductive titem : Type :=
| TLit (s : string)
| TRef (i : nat).

Definition expand (t : list titem) (cs : list (nat * list ascii))
  : list ascii :=
  flat_map (fun it =>
    match it with
    | TLit s => chars s
    | TRef i => cap i cs
    end) t.

(** [s.replace(r, t)] without the g flag: the first match only. *)
Definition replace_first (r : regex) (t : list titem) (s : string) : string :=
  match search r (chars s) with
  | Some m => str (m_pre m ++ expand t (m_caps m) ++ m_post m)
  | None => s
  end.

(** [s.replace(r, t)] with the g flag.  [pre_rev] is the part of the
    subject already passed, which [\b] and [^] still see. *)
Fixpoint replace_from (fuel : nat) (r : regex) (t : list titem)
    (pre_rev : list ascii) (s : list ascii) : list ascii :=
  match fuel with
  | O => s
  | S fuel' =>
      match search_from r pre_rev s with
      | None => s
      | Some (start_rev, e) =>
          let skipped :=
            rev (firstn (List.length start_rev - List.length pre_rev)
                   start_rev) in
          let out := skipped ++ expand t (caps e) in
          if (List.length (before e) =? List.length start_rev)%nat then
            (* empty match: copy one character and go on *)
            match after e with
            | [] => out
            | c :: rest =>
                out ++ c :: replace_from fuel' r t (c :: before e) rest
            end
          else out ++ replace_from fuel' r t (before e) (after e)
      end
  end.

Definition replace_all (r : regex) (t : list titem) (s : string) : string :=
  str (replace_from (S (String.length s)) r t [] (chars s)).

End Regex.

(* ====================================================================== *)
(** ** utils.ts: field extractors and the address normalizer *)
(* ====================================================================== *)

(** A call either returns or throws an [Error] with a message. *)
Inductive outcome (A : Type) : Type :=
| Returns (a : A)
| Throws (msg : string).
Arguments Returns {A} a.
Arguments Throws {A} msg.

(** A decimal fraction [mantissa / 10 ^ scale], as [parseFloat] reads it off
    a text of digits and dots. *)
Record Decimal : Type := MkDecimal {
  mantissa : Z;
  scale : nat
}.

(** JavaScript truthiness of a number: zero is falsy. *)
Definition decimal_truthy (d : Decimal) : bool := negb (mantissa d =? 0)%Z.

(** A [Date]: either an instant read off the clock, [new Date()], or the
    local midnight built by [new Date(year, monthIndex, day)]. *)
Inductive Date : Type :=
| Instant (t : Z)
| LocalDay (year monthIndex day : Z).

Module Utils.
Import Str Regex.

Record Address : Type := MkAddress {
  a_street : string;
  a_city : string;
  a_state : string;
  a_zip : option string
}.

(** [x || ""] for an optional string *)
Definition or_empty (o : option string) : string :=
  match o with Some s => s | None => "" end.

(** [arr[arr.length - 1]] *)
Definition last_elem {A} (l : list A) : option A :=
  match rev l with x :: _ => Some x | [] => None end.

(** [arr.pop()]: the removed last element and the array left behind *)
Definition pop {A} (l : list A) : option A * list A :=
  match rev l with
  | x :: r => (Some x, rev r)
  | [] => (None, [])
  end.

(** [/^\d{5}$/] *)
Definition zip_re : regex := seqs [Bol; Rep 5 digit; Eol].

(** utils.ts, [parseAddress] (the version that extracts a zip code) *)
Definition parseAddress (address : string) : outcome Address :=
  let trimmed := trim address in
  let parts := map trim (split "," trimmed) in
  match parts with
  | [] | [_] => Throws ("Invalid address format: " ++ address)
  | [street; cityStateZip] =>
      let cityStateZipParts := split_ws (trim cityStateZip) in
      let lastPart := or_empty (last_elem cityStateZipParts) in
      if test zip_re lastPart then
        let (zip, l1) := pop cityStateZipParts in
        let (state, l2) := pop l1 in
        Returns (MkAddress street (join " " l2) (or_empty state) zip)
      else
        let (state, l1) := pop cityStateZipParts in
        Returns (MkAddress street (join " " l1) (or_empty state) None)
  | street :: city :: stateZip :: _ =>
      let stateZipParts := split_ws (trim stateZip) in
      if (1 <? List.length stateZipParts)%nat
         && test zip_re (or_empty (last_elem stateZipParts))
      then
        let (zip, l1) := pop stateZipParts in
        Returns (MkAddress street city (join " " l1) zip)
      else Returns (MkAddress street city (join " " stateZipParts) None)
  end.

(** [parseInt(s, 10)] on a text that starts with digits: their value.
    (The source yields NaN when there is no leading digit; this model
    yields 0 there.) *)
Definition parseInt (s : string) : Z :=
  digits_val (take_while is_digit (chars s)).

(** [parseFloat(s)] on a text of digits and dots: the longest prefix of
    the form digits[.digits]; [None] stands for NaN (no digit at all). *)
Definition parseFloat (s : string) : option Decimal :=
  let l := chars s in
  let ip := take_while is_digit l in
  let fp :=
    match drop_while is_digit l with
    | c :: r => if Ascii.eqb c "." then take_while is_digit r else []
    | [] => []
    end in
  match ip ++ fp with
  | [] => None
  | ds => Some (MkDecimal (digits_val ds) (List.length fp))
  end.

(** [parsePrice]: drop [$] and [,], then read the number.  The parsers
    only pass matches of [/\$[\d,]+/], so what is left is a text of
    digits and the result is an integer. *)
Definition parsePrice (priceStr : string) : Z :=
  parseInt (replace_all (one_of ["$"; ","]%char) [] priceStr).

Record Specs : Type := MkSpecs {
  sp_beds : option Z;
  sp_baths : option Decimal;
  sp_sqft : option Z
}.

(** [/(\d+)\s*(?:bd|beds?|bedrooms?)/i] *)
Definition beds_re : regex :=
  seqs [Grp 1 (Plus digit); Star space;
        alts [liti "bd"; Seq (liti "bed") (Opt (chi "s"));
              Seq (liti "bedroom") (Opt (chi "s"))]].

(** [/([\d.]+)\s*(?:ba|baths?|bathrooms?)/i] *)
Definition baths_re : regex :=
  seqs [Grp 1 (Plus (Chr (fun c => is_digit c || Ascii.eqb c ".")));
        Star space;
        alts [liti "ba"; Seq (liti "bath") (Opt (chi "s"));
              Seq (liti "bathroom") (Opt (chi "s"))]].

(** [/([\d,]+)\s*(?:sqft|sq\.?\s*ft\.?)/i] *)
Definition sqft_re : regex :=
  seqs [Grp 1 (Plus (Chr (fun c => is_digit c || Ascii.eqb c ",")));
        Star space;
        alts [liti "sqft";
              seqs [liti "sq"; Opt (ch "."); Star space; liti "ft";
                    Opt (ch ".")]]].

(** utils.ts, [parseSpecs].  A NaN bath count is represented like an
    absent one: every reader of the field tests its truthiness. *)
Definition parseSpecs (specsStr : string) : Specs :=
  MkSpecs
    (option_map parseInt (match_group beds_re 1 specsStr))
    (match match_group baths_re 1 specsStr with
     | Some g => parseFloat g
     | None => None
     end)
    (option_map
       (fun g => parseInt (replace_all (ch ",") [] g))
       (match_group sqft_re 1 specsStr)).

Record PriceChange : Type := MkPriceChange {
  amount : Z;
  date : Date
}.

(** [/\$(\d+)K\s*\((\d+)\/(\d+)\)/] *)
Definition price_change_re : regex :=
  seqs [ch "$"; Grp 1 (Plus digit); ch "K"; Star space; ch "(";
        Grp 2 (Plus digit); ch "/"; Grp 3 (Plus digit); ch ")"].

(** utils.ts, [parsePriceChange]; [year] is [new Date().getFullYear()]. *)
Definition parsePriceChange (year : Z) (priceChangeStr : string)
  : option PriceChange :=
  match search price_change_re (chars priceChangeStr) with
  | None => None
  | Some m =>
      let g i := parseInt (str (cap i (m_caps m))) in
      Some (MkPriceChange (g 1%nat * 1000)
              (LocalDay year (g 2%nat - 1) (g 3%nat)))
  end.

(** [match?.[1] ?? url] *)
Definition group1_or (r : regex) (url : string) : string :=
  match match_group r 1 url with Some g => g | None => url end.

(** utils.ts, [extractListingId] *)
Definition extractListingId (url source : string) : string :=
  if String.eqb source "zillow" then
    group1_or (seqs [ch "/"; Grp 1 (Plus digit); lit "_zpid"]) url
  else if String.eqb source "redfin" then
    group1_or (seqs [lit "/home/"; Grp 1 (Plus digit)]) url
  else if String.eqb source "realtor" then
    group1_or
      (seqs [ch "M"; Grp 1 (seqs [Plus digit; ch "-"; Plus digit])]) url
  else if String.eqb source "land" then
    group1_or (seqs [ch "/"; Grp 1 (Plus digit); Opt (ch "/"); Eol]) url
  else url.

(** The table of street-type words, in the order [Object.entries] lists
    them. *)
Definition abbreviations : list (string * string) :=
  [("street", "st"); ("avenue", "ave"); ("road", "rd"); ("drive", "dr");
   ("court", "ct"); ("circle", "cir"); ("boulevard", "blvd");
   ("lane", "ln"); ("way", "way"); ("place", "pl"); ("terrace", "ter");
   ("parkway", "pkwy"); ("highway", "hwy"); ("trail", "trl");
   ("square", "sq")].

(** [new RegExp(`\\b${full}\\b`, "g")] *)
Definition word_re (full : string) : regex := seqs [Wordb; lit full; Wordb].

(** [/\b(north|south|east|west|n|s|e|w)\b\.?/g] *)
Definition direction_re : regex :=
  seqs [Wordb;
        Grp 1 (alts [lit "north"; lit "south"; lit "east"; lit "west";
                     lit "n"; lit "s"; lit "e"; lit "w"]);
        Wordb; Opt (ch ".")].

(** [/\b(unit|apt|#)\b\.?\s*[\w\d-]*/gi] *)
Definition unit_re : regex :=
  seqs [Wordb; Grp 1 (alts [liti "unit"; liti "apt"; ch "#"]); Wordb;
        Opt (ch "."); Star space;
        Star (Chr (fun c => is_word c || is_digit c || Ascii.eqb c "-"))].

Definition normalizeStreet (street : string) : string :=
  let normalized := trim (toLowerCase street) in
  let normalized :=
    fold_left
      (fun acc (e : string * string) =>
         replace_all (word_re (fst e)) [TLit (snd e)] acc)
      abbreviations normalized in
  let normalized := replace_all direction_re [] normalized in
  let normalized := replace_all unit_re [] normalized in
  let normalized := replace_all (one_of ["."; ","]%char) [] normalized in
  let normalized := replace_all (Plus space) [TLit " "] normalized in
  trim normalized.

(** utils.ts, [normalizeAddress] *)
Definition normalizeAddress (street city state : string) : string :=
  normalizeStreet street ++ "|" ++ trim (toLowerCase city)
    ++ "|" ++ trim (toLowerCase state).

(** utils.ts, [determineSource] (latest version); [url] is the optional
    second argument. *)
Definition determineSource (email : string) (url : option string) : string :=
  let lowerEmail := toLowerCase email in
  let lowerUrl := match url with Some u => toLowerCase u | None => "" end in
  if includes lowerEmail "zillow" || includes lowerEmail "mail.zillow"
     || includes lowerUrl "zillow" then "zillow"
  else if includes lowerEmail "redfin" || includes lowerUrl "redfin"
  then "redfin"
  else if includes lowerEmail "realtor"
          || includes lowerEmail "notifications.realtor"
          || includes lowerUrl "realtor" || includes lowerUrl "move.com"
  then "realtor"
  else if includes lowerEmail "land.com" || includes lowerEmail "land"
          || includes lowerUrl "land.com"
  then "land"
  else "unknown".

End Utils.

(* ====================================================================== *)
(** ** types.ts and the persisted tables *)
(* ====================================================================== *)

Inductive PropertyType : Type := HOME | LAND | CONDO | TOWNHOUSE | MULTI_FAMILY.
Inductive PropertyStatus : Type := ACTIVE | PENDING | SOLD | OFF_MARKET.

(** types.ts, [ParsedProperty]: a candidate listing.  An optional field
    that is [undefined] is [None]. *)
Module ParsedProperty.
Record t : Type := Make {
  street : string;
  city : string;
  state : string;
  zip : option string;
  county : option string;
  source : string;
  sourceId : string;
  url : string;
  status : option string;
  price : Z;
  priceChange : option Utils.PriceChange;
  propertyType : option PropertyType;
  beds : option Z;
  baths : option Decimal;
  sqft : option Z;
  lotSize : option Decimal;
  yearBuilt : option Z;
  builder : option string;
  agent : option string;
  images : list string;
  description : option string
}.
End ParsedProperty.

(** A row of the [Property] table.  A nullable column that is NULL is
    [None].  The timestamps the store maintains by itself ([firstSeenAt],
    [createdAt], [updatedAt]) are never read by the code and are left out. *)
Module Property.
Record t : Type := Make {
  id : nat;
  street : string;
  city : string;
  state : string;
  zip : option string;
  county : option string;
  source : string;
  sourceId : string;
  url : string;
  status : PropertyStatus;
  price : Z;
  propertyType : PropertyType;
  beds : option Z;
  baths : option Decimal;
  sqft : option Z;
  lotSize : option Decimal;
  yearBuilt : option Z;
  builder : option string;
  agent : option string;
  images : list string;
  description : option string
}.
End Property.

(** A row of the [PriceHistory] table (its own key and [createdAt] left
    out). *)
Module PriceHistory.
Record t : Type := Make {
  propertyId : nat;
  oldPrice : Z;
  newPrice : Z;
  changeDate : Date
}.
End PriceHistory.

(** The database: both tables in insertion order, and the next fresh
    primary key of [Property]. *)
Record Store : Type := MkStore {
  properties : list Property.t;
  priceHistory : list PriceHistory.t;
  nextId : nat
}.

Definition emptyStore : Store := MkStore [] [] 0.

(* ====================================================================== *)
(** ** The Prisma calls the processor makes *)
(* ====================================================================== *)

Module Prisma.
Import Str.

Definition has_identity (source sourceId : string) (p : Property.t) : bool :=
  String.eqb (Property.source p) source
  && String.eqb (Property.sourceId p) sourceId.

(** [prisma.property.findUnique({ where: { source_sourceId } })] *)
Definition findUnique (source sourceId : string) (db : Store)
  : option Property.t :=
  find (has_identity source sourceId) (properties db).

(** [{ equals: v, mode: "insensitive" }] *)
Definition equals_insensitive (column v : string) : bool :=
  String.eqb (toLowerCase column) (toLowerCase v).

(** [prisma.property.findMany({ where: { city, state } })], both compared
    case-insensitively.  The call has no [orderBy]: the embedding lists
    the rows in table order, and what is proved of a whole run is stated
    for tables on which the scan has one row to find at most
    ([Props.tidy]), or without reference to the order. *)
Definition findMany (city state : string) (db : Store) : list Property.t :=
  filter (fun p => equals_insensitive (Property.city p) city
                   && equals_insensitive (Property.state p) state)
         (properties db).

(** [prisma.property.create({ data })]: the row gets a fresh key; the
    unique index on (source, sourceId) rejects a second row with the same
    pair (error code P2002).  The limits of the columns are not part of
    the embedding: [Props.storable] tells the candidates whose rows the
    schema accepts, and [create] is exact for these. *)
Definition create (row : nat -> Property.t) (db : Store)
  : outcome (Property.t * Store) :=
  let saved := row (nextId db) in
  match findUnique (Property.source saved) (Property.sourceId saved) db with
  | Some _ => Throws "P2002"
  | None =>
      Returns (saved,
               MkStore (properties db ++ [saved]) (priceHistory db)
                       (S (nextId db)))
  end.

(** [prisma.property.update({ where: { id }, data })]: [patch] is what
    [data] does to the row; in the embedding it stays where it is in the
    table (see [findMany]), and like [create] the call is exact for the
    candidates of [Props.storable]. *)
Definition update (id : nat) (patch : Property.t -> Property.t) (db : Store)
  : Store :=
  MkStore
    (map (fun p => if (Property.id p =? id)%nat then patch p else p)
         (properties db))
    (priceHistory db) (nextId db).

(** [prisma.priceHistory.create({ data })] *)
Definition createPriceHistory (entry : PriceHistory.t) (db : Store) : Store :=
  MkStore (properties db) (priceHistory db ++ [entry]) (nextId db).

(** In the [data] of an update, a field that is [undefined] is left as it
    is in the row; a field with a value overwrites the column. *)
Definition unless_undefined {A} (field : option A) (column : option A)
  : option A :=
  match field with Some _ => field | None => column end.

End Prisma.

(* ====================================================================== *)
(** ** processor.ts: the upsert engine and the batch loop *)
(* ====================================================================== *)

(** [a ?? b] *)
Definition nullish {A} (a b : option A) : option A :=
  match a with Some _ => a | None => b end.

(** Truthiness of an optional string: [undefined] and [""] are falsy. *)
Definition truthy_string (o : option string) : option string :=
  match o with
  | Some s => if Str.is_empty s then None else Some s
  | None => None
  end.

(** Truthiness of an optional number: [undefined] and [0] are falsy. *)
Definition truthy_decimal (o : option Decimal) : option Decimal :=
  match o with
  | Some d => if decimal_truthy d then Some d else None
  | None => None
  end.

(** processor.ts, [mapStatus] *)
Definition mapStatus (status : string) : PropertyStatus :=
  let lower := Str.toLowerCase status in
  if Str.includes lower "pending" then PENDING
  else if Str.includes lower "sold" then SOLD
  else if Str.includes lower "off" then OFF_MARKET
  else ACTIVE.

Inductive UpsertResult : Type := created | updated.

Module Processor.
Import Utils Prisma.
Module C := ParsedProperty.
Module P := Property.

(** [property.status ? mapStatus(property.status) : "ACTIVE"] *)
Definition data_status (property : C.t) : PropertyStatus :=
  match truthy_string (C.status property) with
  | Some s => mapStatus s
  | None => ACTIVE
  end.

(** [property.propertyType || "HOME"] *)
Definition data_propertyType (property : C.t) : PropertyType :=
  match C.propertyType property with Some t => t | None => HOME end.

(** The row [prisma.property.create({ data })] stores for [data] as
    [upsertProperty] builds it: the fields [data] does not mention, and
    those that are [undefined], are NULL. *)
Definition data_row (property : C.t) (id : nat) : P.t :=
  P.Make id
    (C.street property) (C.city property) (C.state property)
    (C.zip property)
    None
    (C.source property) (C.sourceId property) (C.url property)
    (data_status property)
    (C.price property)
    (data_propertyType property)
    (C.beds property)
    (truthy_decimal (C.baths property))
    (C.sqft property)
    (truthy_decimal (C.lotSize property))
    None None None
    (C.images property)
    None.

(** What the [data] of the update in [upsertProperty] does to the matched
    row: [...data] with [beds], [baths], [sqft] and [images] replaced by
    the merged values. *)
Definition data_patch (property : C.t) (existing : P.t) (row : P.t) : P.t :=
  P.Make (P.id row)
    (C.street property) (C.city property) (C.state property)
    (unless_undefined (C.zip property) (P.zip row))
    (P.county row)
    (C.source property) (C.sourceId property) (C.url property)
    (data_status property)
    (C.price property)
    (data_propertyType property)
    (nullish (C.beds property) (P.beds existing))
    (match truthy_decimal (C.baths property) with
     | Some b => Some b
     | None => P.baths existing
     end)
    (nullish (C.sqft property) (P.sqft existing))
    (unless_undefined (truthy_decimal (C.lotSize property)) (P.lotSize row))
    (P.yearBuilt row) (P.builder row) (P.agent row)
    (match C.images property with
     | [] => P.images existing
     | imgs => imgs
     end)
    (P.description row).

(** The first half of [upsertProperty]: the row the candidate stands
    for, by (source, sourceId) and failing that by normalized address. *)
Definition findExisting (property : C.t) (db : Store) : option P.t :=
  match findUnique (C.source property) (C.sourceId property) db with
  | Some existing => Some existing
  | None =>
      let normalized :=
        normalizeAddress (C.street property) (C.city property)
                         (C.state property) in
      let allProperties :=
        findMany (C.city property) (C.state property) db in
      find (fun p =>
              String.eqb
                (normalizeAddress (P.street p) (P.city p) (P.state p))
                normalized)
           allProperties
  end.

(** processor.ts, [upsertProperty]; [now] is what [new Date()] returns. *)
Definition upsertProperty (now : Date) (property : C.t) (db : Store)
  : outcome (UpsertResult * Store) :=
  match findExisting property db with
  | Some existing =>
      let oldPrice := P.price existing in
      let newPrice := C.price property in
      let priceChanged := negb (oldPrice =? newPrice)%Z in
      let db := update (P.id existing) (data_patch property existing) db in
      let db :=
        if priceChanged then
          createPriceHistory
            (PriceHistory.Make (P.id existing) oldPrice newPrice now) db
        else db in
      Returns (updated, db)
  | None =>
      match create (data_row property) db with
      | Throws e => Throws e
      | Returns (savedProperty, db) =>
          let db :=
            match C.priceChange property with
            | Some pc =>
                createPriceHistory
                  (PriceHistory.Make (P.id savedProperty)
                     (C.price property + amount pc)%Z
                     (C.price property)
                     (date pc)) db
            | None => db
            end in
          Returns (created, db)
      end
  end.

(** The value [processPropertyEmails] resolves to. *)
Record Summary : Type := MkSummary {
  sum_created : nat;
  sum_updated : nat;
  sum_errors : list string
}.

(** One turn of the [for (const property of properties)] loop. *)
Definition processOne (now : Date) (acc : Summary * Store) (property : C.t)
  : Summary * Store :=
  let (sm, db) := acc in
  match upsertProperty now property db with
  | Returns (created, db') =>
      (MkSummary (S (sum_created sm)) (sum_updated sm) (sum_errors sm), db')
  | Returns (updated, db') =>
      (MkSummary (sum_created sm) (S (sum_updated sm)) (sum_errors sm), db')
  | Throws e =>
      (MkSummary (sum_created sm) (sum_updated sm)
         (sum_errors sm
            ++ [("Error processing property " ++ C.url property
                 ++ ": " ++ e)%string])%list,
       db)
  end.

Definition processProperties (now : Date) (props : list C.t) (db : Store)
  : Summary * Store :=
  fold_left (processOne now) props (MkSummary 0 0 [], db).

End Processor.

(* ====================================================================== *)
(** ** The earlier processor: create first, update on a key conflict *)
(* ====================================================================== *)

Module Legacy.
Import Utils Prisma.
Module C := ParsedProperty.
Module P := Property.

Definition saved_row (property : C.t) (id : nat) : P.t :=
  P.Make id
    (C.street property) (C.city property) (C.state property)
    (C.zip property) (C.county property)
    (C.source property) (C.sourceId property) (C.url property)
    (Processor.data_status property)
    (C.price property)
    (Processor.data_propertyType property)
    (C.beds property)
    (truthy_decimal (C.baths property))
    (C.sqft property)
    (truthy_decimal (C.lotSize property))
    (C.yearBuilt property) (C.builder property) (C.agent property)
    (C.images property)
    (C.description property).

(** [saveProperty] *)
Definition saveProperty (property : C.t) (db : Store) : outcome Store :=
  match create (saved_row property) db with
  | Throws e => Throws e
  | Returns (savedProperty, db) =>
      Returns
        match C.priceChange property with
        | Some pc =>
            createPriceHistory
              (PriceHistory.Make (P.id savedProperty)
                 (C.price property + amount pc)%Z
                 (C.price property)
                 (date pc)) db
        | None => db
        end
  end.

Definition update_patch (property : C.t) (existing : P.t) (row : P.t) : P.t :=
  P.Make (P.id row)
    (P.street row) (P.city row) (P.state row) (P.zip row) (P.county row)
    (P.source row) (P.sourceId row) (P.url row)
    (match truthy_string (C.status property) with
     | Some s => mapStatus s
     | None => P.status existing
     end)
    (C.price property)
    (P.propertyType row)
    (nullish (C.beds property) (P.beds existing))
    (match truthy_decimal (C.baths property) with
     | Some b => Some b
     | None => P.baths existing
     end)
    (nullish (C.sqft property) (P.sqft existing))
    (P.lotSize row)
    (P.yearBuilt row)
    (nullish (C.builder property) (P.builder existing))
    (nullish (C.agent property) (P.agent existing))
    (match C.images property with
     | [] => P.images existing
     | imgs => imgs
     end)
    (P.description row).

(** [updateProperty] *)
Definition updateProperty (now : Date) (property : C.t) (db : Store)
  : outcome Store :=
  match findUnique (C.source property) (C.sourceId property) db with
  | None => Throws "Property not found for update"
  | Some existing =>
      let oldPrice := P.price existing in
      let newPrice := C.price property in
      let priceChanged := negb (oldPrice =? newPrice)%Z in
      let db := update (P.id existing) (update_patch property existing) db in
      Returns
        (if priceChanged then
           createPriceHistory
             (PriceHistory.Make (P.id existing) oldPrice newPrice now) db
         else db)
  end.

End Legacy.

(* ====================================================================== *)
(** ** parser.ts: the source parsers *)
(* ====================================================================== *)

Module Parser.
Import Str Regex Utils.
Module C := ParsedProperty.

(** What the parsers read off a container element: [$card.text()] and
    [$card.find("img").first().attr("src")]. *)
Record Card : Type := MkCard {
  text : string;
  imgSrc : option string
}.

(** An [a] element: its [href] attribute, and the containers
    [closest("table[role='presentation'], table")] and
    [closest("table, div, td")] find for it ([None]: an empty
    selection). *)
Record Anchor : Type := MkAnchor {
  href : option string;
  closestTable : option Card;
  closestBlock : option Card
}.

(** A loaded document: its anchors in document order. *)
Definition Document : Type := list Anchor.

(** [$('a[href*="n1"], a[href*="n2"], ...')] *)
Definition select (needles : list string) (doc : Document) : list Anchor :=
  filter (fun a =>
            match href a with
            | Some u => existsb (includes u) needles
            | None => false
            end) doc.

(** [/\$[\d,]+/] *)
Definition price_re : regex :=
  seqs [ch "$"; Plus (Chr (fun c => is_digit c || Ascii.eqb c ","))].

Definition no_comma : regex := not_of [","%char].
Definition no_comma_lf : regex := not_of [","%char; LF].

(** [/\d+\s+[^,]+,\s*[^,]+,\s*[A-Z]{2}/] *)
Definition address_re : regex :=
  seqs [Plus digit; Plus space; Plus no_comma; ch ","; Star space;
        Plus no_comma; ch ","; Star space; Rep 2 upper].

(** [/\d+\s+[^,]+,\s*[^,]+,\s*[A-Z]{2}(?:\s+\d{5})?/] *)
Definition address_zip_re : regex :=
  Seq address_re (Opt (Seq (Plus space) (Rep 5 digit))).

(** [/\d+\s+[^,\n]+(?:,|\n)\s*[^,\n]+(?:,|\n)\s*[A-Z]{2}(?:\s+\d{5})?/] *)
Definition realtor_address_re : regex :=
  seqs [Plus digit; Plus space; Plus no_comma_lf; Alt (ch ",") (ch LF);
        Star space; Plus no_comma_lf; Alt (ch ",") (ch LF); Star space;
        Rep 2 upper; Opt (Seq (Plus space) (Rep 5 digit))].

(** [/[^,]+,\s*[^,]+,\s*[A-Z]{2}/] *)
Definition land_address_re : regex :=
  seqs [Plus no_comma; ch ","; Star space; Plus no_comma; ch ",";
        Star space; Rep 2 upper].

(** [/^.*?(\d+\s+[A-Za-z])/s], replaced by [$1] *)
Definition street_number_re : regex :=
  seqs [Bol; Lazy any;
        Grp 1 (seqs [Plus digit; Plus space; Chr is_alpha])].

(** [.] without the s flag: anything but a line terminator *)
Definition dot : regex := not_of [LF; ascii_of_nat 13].

(** A candidate as the parsers build it: the address, the identity, the
    price and what else the card gave. *)
Definition candidate (a : Address) (source sourceId url : string)
    (status : option string) (price : Z) (priceChange : option PriceChange)
    (propertyType : option PropertyType) (specs : Specs)
    (lotSize : option Decimal) (images : list string) : C.t :=
  C.Make (a_street a) (a_city a) (a_state a) (a_zip a) None
    source sourceId url status price priceChange propertyType
    (sp_beds specs) (sp_baths specs) (sp_sqft specs) lotSize
    None None None images None.

Definition no_specs : Specs := MkSpecs None None None.

(** [!url] *)
Definition missing (url : option string) : bool :=
  match url with Some u => is_empty u | None => true end.

(** [seenUrls.has(url)], the set kept as a list *)
Definition has (seenUrls : list string) (url : string) : bool :=
  existsb (String.eqb url) seenUrls.

(** The image of a Zillow or Realtor card, placeholders skipped. *)
Definition card_image_filtered (card : Card) : list string :=
  match imgSrc card with
  | Some src =>
      if negb (is_empty src) && negb (includes src "spacer")
         && negb (includes src "pixel")
      then [src] else []
  | None => []
  end.

(** The image of a Redfin or Land card. *)
Definition card_image (card : option Card) : list string :=
  match card with
  | Some c =>
      match imgSrc c with
      | Some src => if is_empty src then [] else [src]
      | None => []
      end
  | None => []
  end.

Definition card_text (card : option Card) : string :=
  match card with Some c => text c | None => "" end.

(** The loop state of the parsers that remember the links they used. *)
Definition Seen : Type := (list C.t * list string)%type.

(** Body of the [each] callback of [parseZillowEmail]. *)
Definition zillowAnchor (source : string) (st : Seen) (a : Anchor) : Seen :=
  let (properties, seenUrls) := st in
  match href a with
  | None => st
  | Some url =>
      if missing (Some url) then st
      else if includes url "unsubscribe" || includes url "settings"
              || includes url "_web_" then st
      else if has seenUrls url then st
      else
        match closestTable a with
        | None => st
        | Some card =>
            match match0 price_re (text card),
                  match0 address_zip_re (text card) with
            | Some priceMatch, Some addressMatch =>
                let seenUrls := url :: seenUrls in
                let price := parsePrice priceMatch in
                let cleanAddress :=
                  trim
                    (replace_first street_number_re [TRef 1]
                      (replace_first
                        (seqs [Bol; Plus digit; Star space; liti "bd";
                               Lazy any; liti "sqft"; Star space]) []
                        (replace_all
                          (seqs [Bol; Plus digit; Star space; Plus (ch LF)])
                          []
                          (replace_first
                            (seqs [Bol; Plus digit; Star space;
                                   liti "sqft"; Star space]) []
                            addressMatch)))) in
                match parseAddress cleanAddress with
                | Throws _ => (properties, seenUrls)
                | Returns address =>
                    let images := card_image_filtered card in
                    let specs := parseSpecs (text card) in
                    let sourceId := url in
                    (properties ++
                       [candidate address source sourceId url None price
                          None None specs None images],
                     seenUrls)
                end
            | _, _ => st
            end
        end
  end.

(** parser.ts, [parseZillowEmail] *)
Definition parseZillowEmail (doc : Document) (source : string) : list C.t :=
  fst (fold_left (zillowAnchor source) (select ["zillow.com"] doc) ([], [])).

(** Body of the [each] callback of [parseRedfinEmail]; [year] is the
    current year. *)
Definition redfinAnchor (year : Z) (source : string) (properties : list C.t)
    (a : Anchor) : list C.t :=
  match href a with
  | None => properties
  | Some url =>
      if missing (Some url) || negb (includes url "/home/") then properties
      else
        let card := closestBlock a in
        let images := card_image card in
        let text := card_text card in
        match match0 price_re text with
        | None => properties
        | Some priceMatch =>
            let price := parsePrice priceMatch in
            let priceChange :=
              match match0
                      (seqs [lit "Price cut:"; Star space; ch "$";
                             Plus digit; ch "K"; Star space; ch "(";
                             Plus digit; ch "/"; Plus digit; ch ")"])
                      text with
              | Some m => parsePriceChange year m
              | None => None
              end in
            match match0 address_re text with
            | None => properties
            | Some addressMatch =>
                let addressStr :=
                  trim (replace_first
                          (seqs [Bol; Plus digit; Star space; liti "Sq";
                                 ch "."; Star space; liti "Ft"; ch ".";
                                 Star space]) [] addressMatch) in
                let addressStr :=
                  replace_all (Plus space) [TLit " "]
                    (replace_all (Plus (ch LF)) [TLit " "] addressStr) in
                match parseAddress addressStr with
                | Throws _ => properties
                | Returns address =>
                    let specs := parseSpecs text in
                    let sourceId := extractListingId url source in
                    let isNewConstruction :=
                      includes (toLowerCase text) "new construction" in
                    properties ++
                      [candidate address source sourceId url
                         (if isNewConstruction
                          then Some "New construction" else None)
                         price priceChange None specs None images]
                end
            end
        end
  end.

(** parser.ts, [parseRedfinEmail] *)
Definition parseRedfinEmail (year : Z) (doc : Document) (source : string)
  : list C.t :=
  fold_left (redfinAnchor year source) (select ["redfin.com"] doc) [].

(** Body of the [each] callback of [parseRealtorEmail]. *)
Definition realtorAnchor (source : string) (st : Seen) (a : Anchor) : Seen :=
  let (properties, seenUrls) := st in
  match href a with
  | None => st
  | Some url =>
      if missing (Some url) then st
      else if includes url "unsubscribe" || includes url "privacy"
              || includes (toLowerCase url) "keep searching" then st
      else if has seenUrls url then st
      else
        match closestTable a with
        | None => st
        | Some card =>
            match match0 price_re (text card),
                  match0 realtor_address_re (text card) with
            | Some priceMatch, Some addressMatch =>
                let seenUrls := url :: seenUrls in
                let price := parsePrice priceMatch in
                let addressStr :=
                  trim
                    (replace_first street_number_re [TRef 1]
                      (replace_first
                        (seqs [Bol; Plus digit; Star space; liti "bed";
                               Lazy dot; liti "sqft"; Star space]) []
                        (replace_all (Plus space) [TLit " "]
                          (replace_all (Plus (ch LF)) [TLit " "]
                             addressMatch)))) in
                let addressStr :=
                  replace_first
                    (seqs [Wordb;
                           Grp 1 (alts (map lit
                             ["St"; "Ave"; "Rd"; "Dr"; "Ct"; "Ln"; "Blvd";
                              "Way"; "Pl"; "Cir"; "Ter"; "Pkwy"; "Trl"]));
                           Grp 2 (Seq upper (Plus (Chr is_lower)))])
                    [TRef 1; TLit ", "; TRef 2] addressStr in
                match parseAddress addressStr with
                | Throws _ => (properties, seenUrls)
                | Returns address =>
                    let images := card_image_filtered card in
                    let specs := parseSpecs (text card) in
                    let sourceId := url in
                    (properties ++
                       [candidate address source sourceId url None price
                          None None specs None images],
                     seenUrls)
                end
            | _, _ => st
            end
        end
  end.

(** parser.ts, [parseRealtorEmail] *)
Definition parseRealtorEmail (doc : Document) (source : string) : list C.t :=
  fst (fold_left (realtorAnchor source)
         (select ["realtor.com"; "move.com"] doc) ([], [])).

(** Body of the [each] callback of [parseLandEmail]. *)
Definition landAnchor (source : string) (properties : list C.t) (a : Anchor)
  : list C.t :=
  match href a with
  | None => properties
  | Some url =>
      if missing (Some url) then properties
      else
        let card := closestBlock a in
        let images := card_image card in
        let text := card_text card in
        match match0 price_re text with
        | None => properties
        | Some priceMatch =>
            let price := parsePrice priceMatch in
            match match0 land_address_re text with
            | None => properties
            | Some addressMatch =>
                match parseAddress addressMatch with
                | Throws _ => properties
                | Returns address =>
                    let lotSize :=
                      match match_group
                              (seqs [Grp 1 (Plus (Chr (fun c =>
                                       is_digit c || Ascii.eqb c ".")));
                                     Star space; liti "acre";
                                     Opt (chi "s")]) 1 text with
                      | Some g => parseFloat g
                      | None => None
                      end in
                    let sourceId := extractListingId url source in
                    properties ++
                      [candidate address source sourceId url None price
                         None (Some LAND) no_specs lotSize images]
                end
            end
        end
  end.

(** parser.ts, [parseLandEmail] *)
Definition parseLandEmail (doc : Document) (source : string) : list C.t :=
  fold_left (landAnchor source) (select ["land.com"] doc) [].

(** types.ts, [EmailParserResult] *)
Record EmailParserResult : Type := MkResult {
  res_properties : list C.t;
  res_errors : list string
}.

(** parser.ts, [parsePropertyEmail]; [doc] is [cheerio.load(htmlContent)].
    No parser throws (each callback catches what its body throws), so the
    outer [catch] never runs. *)
Definition parsePropertyEmail (year : Z) (doc : Document)
    (fromEmail : string) : EmailParserResult :=
  let source := determineSource fromEmail None in
  if String.eqb source "zillow" then
    MkResult (parseZillowEmail doc source) []
  else if String.eqb source "redfin" then
    MkResult (parseRedfinEmail year doc source) []
  else if String.eqb source "realtor" then
    MkResult (parseRealtorEmail doc source) []
  else if String.eqb source "land" then
    MkResult (parseLandEmail doc source) []
  else MkResult [] [("Unknown email source: " ++ fromEmail)%string].

End Parser.

(* ====================================================================== *)
(** ** fetcher.ts and the whole batch *)
(* ====================================================================== *)

Module Pipeline.
Import Utils Parser Processor.

(** A mail as [simpleParser] hands it over: [parsed.from?.text] and the
    loaded [parsed.html] ([None] when the mail has no HTML part). *)
Record Message : Type := MkMessage {
  from : option string;
  html : option Document
}.

(** What one mail contributes to [allProperties]; the parser's [errors]
    are written to the console and go no further. *)
Definition messageProperties (year : Z) (m : Message)
  : list ParsedProperty.t :=
  match html m with
  | Some doc => res_properties (parsePropertyEmail year doc (or_empty (from m)))
  | None => []
  end.

(** fetcher.ts, [fetchPropertyEmails], on the mails the search returned,
    taken in the order they arrived. *)
Definition fetchPropertyEmails (year : Z) (inbox : list Message)
  : list ParsedProperty.t :=
  flat_map (messageProperties year) inbox.

(** processor.ts, [processPropertyEmails]: [inbox] is the outcome of the
    IMAP session, [now] and [year] are read off the clock. *)
Definition processPropertyEmails (now : Date) (year : Z)
    (inbox : outcome (list Message)) (db : Store) : Summary * Store :=
  match inbox with
  | Throws e =>
      (MkSummary 0 0 [("Error fetching emails: " ++ e)%string], db)
  | Returns mails =>
      processProperties now (fetchPropertyEmails year mails) db
  end.

End Pipeline.

(* ====================================================================== *)
(** ** Earlier versions kept in the sources *)
(* ====================================================================== *)

Module Earlier.
Import Str Regex Utils Prisma Processor Pipeline.
Module C := ParsedProperty.

(** utils.ts, the first [parseAddress]: street, city and state, no zip
    code. *)
Definition parseAddress (address : string)
  : outcome (string * string * string) :=
  let trimmed := trim address in
  let parts := map trim (split "," trimmed) in
  match parts with
  | [] | [_] => Throws ("Invalid address format: " ++ address)
  | [street; cityState] =>
      let cityStateParts := split_ws (trim cityState) in
      let (state, l1) := pop cityStateParts in
      Returns (street, join " " l1, or_empty state)
  | street :: city :: state :: _ => Returns (street, city, state)
  end.

(** utils.ts, the first [determineSource]. *)
Definition determineSource (email : string) (url : option string) : string :=
  let lowerEmail := toLowerCase email in
  let lowerUrl := match url with Some u => toLowerCase u | None => "" end in
  if includes lowerEmail "zillow" || includes lowerUrl "zillow"
  then "zillow"
  else if includes lowerEmail "redfin" || includes lowerUrl "redfin"
  then "redfin"
  else if includes lowerEmail "realtor" || includes lowerUrl "realtor"
          || includes lowerUrl "move.com"
  then "realtor"
  else if includes lowerEmail "land.com" || includes lowerUrl "land.com"
  then "land"
  else "unknown".

(** One turn of the loop of the first [processPropertyEmails]: save, and
    on a unique-key violation (P2002) update instead. *)
Definition processOne (now : Date) (acc : Summary * Store) (property : C.t)
  : Summary * Store :=
  let (sm, db) := acc in
  match Legacy.saveProperty property db with
  | Returns db' =>
      (MkSummary (S (sum_created sm)) (sum_updated sm) (sum_errors sm), db')
  | Throws e =>
      if String.eqb e "P2002" then
        match Legacy.updateProperty now property db with
        | Returns db' =>
            (MkSummary (sum_created sm) (S (sum_updated sm)) (sum_errors sm),
             db')
        | Throws updateError =>
            (MkSummary (sum_created sm) (sum_updated sm)
               (sum_errors sm
                  ++ [("Error updating property " ++ C.url property
                       ++ ": " ++ updateError)%string])%list,
             db)
        end
      else
        (MkSummary (sum_created sm) (sum_updated sm)
           (sum_errors sm
              ++ [("Error saving property " ++ C.url property
                   ++ ": " ++ e)%string])%list,
         db)
  end.

Definition processProperties (now : Date) (props : list C.t) (db : Store)
  : Summary * Store :=
  fold_left (processOne now) props (MkSummary 0 0 [], db).

(** The first [processPropertyEmails]. *)
Definition processPropertyEmails (now : Date) (year : Z)
    (inbox : outcome (list Message)) (db : Store) : Summary * Store :=
  match inbox with
  | Throws e =>
      (MkSummary 0 0 [("Error fetching emails: " ++ e)%string], db)
  | Returns mails =>
      processProperties now (fetchPropertyEmails year mails) db
  end.

End Earlier.

(* ====================================================================== *)
(** ** Invariants and input classes *)
(* ====================================================================== *)

Module Invariants.
Import Str Regex Utils Prisma Processor Parser.
Module C := ParsedProperty.
Module P := Property.

(** [db'] holds everything [db] held, in place: the primary keys of [db]
    in their order followed by new ones, and the history of [db] followed
    by new rows. *)
Definition extends (db db' : Store) : Prop :=
  (exists ids, map P.id (properties db') = map P.id (properties db) ++ ids)
  /\ (exists rows, priceHistory db' = priceHistory db ++ rows)
  /\ (nextId db <= nextId db')%nat.

(** Every history row belongs to a stored listing. *)
Definition historyLinked (db : Store) : Prop :=
  forall h, In h (priceHistory db) ->
    exists p, In p (properties db) /\ P.id p = PriceHistory.propertyId h.

(** Every stored listing is ACTIVE. *)
Definition activeOnly (db : Store) : Prop :=
  Forall (fun p => P.status p = ACTIVE) (properties db).

(** A price as the mails print it: digits, [$] and [,]. *)
Definition priceText (s : string) : Prop :=
  Forall (fun c => is_digit c = true \/ c = "$"%char \/ c = ","%char)
         (chars s).

(** A part of an address written without a comma and without white space
    around it. *)
Definition plainPart (s : string) : Prop :=
  trim s = s /\ ~ In ","%char (chars s).

(** One word: not empty, no white space, no comma. *)
Definition word (s : string) : Prop :=
  s <> "" /\ Forall (fun c => is_space c = false /\ c <> ","%char) (chars s).

(** Five digits. *)
Definition zipCode (s : string) : Prop :=
  List.length (chars s) = 5%nat
  /\ Forall (fun c => is_digit c = true) (chars s).

(** No white space in front. *)
Definition starts_clean (l : list ascii) : Prop :=
  match l with c :: _ => is_space c = false | [] => True end.

(** The columns that say where a listing is and who listed it, with the
    primary key. *)
Definition placement (p : P.t)
  : nat * (string * string * string * option string * option string)
    * (string * string * string) :=
  (P.id p,
   (P.street p, P.city p, P.state p, P.zip p, P.county p),
   (P.source p, P.sourceId p, P.url p)).


(** The totals of two runs taken together. *)
Definition combined (a b : Summary) : Summary :=
  MkSummary (sum_created a + sum_created b) (sum_updated a + sum_updated b)
            (sum_errors a ++ sum_errors b).

(** A character of the amount in [/\$[\d,]+/]. *)
Definition amountChar (c : ascii) : bool := is_digit c || Ascii.eqb c ",".

(** [amount] is the leftmost dollar amount of [text], taken as far as it
    goes: a [$] followed by one or more digits and commas. *)
Definition firstAmount (text amount : list ascii) : Prop :=
  exists skipped rest,
    text = skipped ++ "$"%char :: amount ++ rest
    /\ amount <> []
    /\ Forall (fun c => amountChar c = true) amount
    /\ match rest with c :: _ => amountChar c = false | [] => True end
    /\ forall a c b,
         skipped = a ++ "$"%char :: c :: b -> amountChar c = false.

(** The price of the candidate was read off the card [card] finds for
    one of the anchors: it is the number spelled by the digits of the
    leftmost dollar amount of the card's text (when these are at least
    one and at most fifteen, so that the number is an exact integer). *)
Definition pricedFrom (card : Anchor -> option Card)
    (anchors : list Anchor) (c : C.t) : Prop :=
  exists a amount,
    In a anchors /\ href a = Some (C.url c)
    /\ firstAmount (chars (card_text (card a))) amount
    /\ ((1 <= List.length (filter is_digit amount) <= 15)%nat ->
        C.price c = digits_val (filter is_digit amount)).

(** The links the Zillow parser skips. *)
Definition zillowUtility (url : string) : bool :=
  includes url "unsubscribe" || includes url "settings"
  || includes url "_web_".

(** The links the Realtor parser skips. *)
Definition realtorUtility (url : string) : bool :=
  includes url "unsubscribe" || includes url "privacy"
  || includes (toLowerCase url) "keep searching".

(** The candidate comes from an anchor of the document whose link target
    contains one of the given texts. *)
Definition fromAnchor (needles : list string) (doc : Document) (c : C.t)
  : Prop :=
  exists a,
    In a doc /\ href a = Some (C.url c)
    /\ existsb (includes (C.url c)) needles = true.

(** What the parsers leave unset in every candidate. *)
Definition bare (c : C.t) : Prop :=
  C.county c = None /\ C.yearBuilt c = None /\ C.builder c = None
  /\ C.agent c = None /\ C.description c = None.

(** The status text of a parsed candidate. *)
Definition parsedStatus (c : C.t) : Prop :=
  C.status c = None \/ C.status c = Some "New construction".

(** A candidate of a parser that uses the link itself as the listing id
    (Zillow, Realtor): [utility] tells the links the parser skips. *)
Definition tracked (source : string) (utility : string -> bool) (c : C.t)
  : Prop :=
  C.source c = source /\ C.sourceId c = C.url c
  /\ is_empty (C.url c) = false /\ utility (C.url c) = false
  /\ C.status c = None /\ C.priceChange c = None
  /\ C.propertyType c = None /\ C.lotSize c = None /\ bare c
  /\ (List.length (C.images c) <= 1)%nat
  /\ Forall (fun src => includes src "spacer" = false
                        /\ includes src "pixel" = false)
            (C.images c).

(** A candidate of the Redfin parser. *)
Definition redfinListing (source : string) (c : C.t) : Prop :=
  C.source c = source
  /\ C.sourceId c = extractListingId (C.url c) source
  /\ includes (C.url c) "/home/" = true
  /\ parsedStatus c
  /\ C.propertyType c = None /\ C.lotSize c = None /\ bare c.

(** A candidate of the Land parser. *)
Definition landListing (source : string) (c : C.t) : Prop :=
  C.source c = source
  /\ C.sourceId c = extractListingId (C.url c) source
  /\ is_empty (C.url c) = false
  /\ C.propertyType c = Some LAND
  /\ C.beds c = None /\ C.baths c = None /\ C.sqft c = None
  /\ C.status c = None /\ C.priceChange c = None /\ bare c.

(** The candidate was read off an anchor of [anchors]. *)
Definition linkedFrom (anchors : list Anchor) (c : C.t) : Prop :=
  exists a, In a anchors /\ href a = Some (C.url c).

End Invariants.

(* ====================================================================== *)
(** ** Notions used to state the properties *)
(* ====================================================================== *)

Module Props.
Import Utils Prisma Processor.
Module C := ParsedProperty.
Module P := Property.

(** The identity key of a stored row and of a candidate. *)
Definition key (p : P.t) : string * string := (P.source p, P.sourceId p).
Definition ckey (c : C.t) : string * string := (C.source c, C.sourceId c).

(** The comparison key of a stored row and of a candidate. *)
Definition addressKey (p : P.t) : string :=
  normalizeAddress (P.street p) (P.city p) (P.state p).
Definition caddressKey (c : C.t) : string :=
  normalizeAddress (C.street c) (C.city c) (C.state c).

(** The test of the address scan in [upsertProperty]. *)
Definition same_address (c : C.t) (p : P.t) : bool :=
  String.eqb (addressKey p) (caddressKey c).

(** The address scan as one test on the rows of the table: the city and
    state filter of [findMany], then the comparison of the keys. *)
Definition scan (c : C.t) (p : P.t) : bool :=
  equals_insensitive (P.city p) (C.city c)
  && equals_insensitive (P.state p) (C.state c)
  && same_address c p.

(* These abbreviations are unfolded before anything is computed. *)
#[global] Strategy expand [same_address addressKey caddressKey key ckey].

(** What the database guarantees of the [Property] table: primary keys
    are distinct and were all handed out already, and the unique index on
    (source, sourceId) holds. *)
Record wf (db : Store) : Prop := MkWf {
  wf_ids : NoDup (map P.id (properties db));
  wf_fresh : Forall (fun p => (P.id p < nextId db)%nat) (properties db);
  wf_keys : NoDup (map key (properties db))
}.

(** The row with primary key [id]. *)
Definition rowOf (id : nat) (db : Store) : option P.t :=
  find (fun p => (P.id p =? id)%nat) (properties db).

(** The rows a candidate's identity selects. *)
Definition rowsOf (c : C.t) (db : Store) : list P.t :=
  filter (has_identity (C.source c) (C.sourceId c)) (properties db).

(** The table after [update]: the rows with primary key [id] rewritten
    by [patch]. *)
Definition rewritten (id : nat) (patch : P.t -> P.t) (rows : list P.t)
  : list P.t :=
  properties (update id patch (MkStore rows [] 0)).


(** The candidate has its row: its identity selects a row that an update
    by the candidate would leave as it is. *)
Definition settled (c : C.t) (db : Store) : Prop :=
  exists row,
    findUnique (C.source c) (C.sourceId c) db = Some row
    /\ data_patch c row row = row.

(** The listings of a batch are pairwise distinct, by identity and by
    normalized address. *)
Definition distinct (cs : list C.t) : Prop :=
  NoDup (map ckey cs) /\ NoDup (map caddressKey cs).

(** The comma-delimited segments of an address, each trimmed. *)
Definition segments (address : string) : list string :=
  map Str.trim (Str.split "," (Str.trim address)).

(** The second of two segments, read as the specification words it: split
    on white space; a trailing 5-digit token is the zip code and is taken
    off; the token then last is the state; what precedes it is the city. *)
Definition readCityStateZip (seg : string) : string * string * option string :=
  let tokens := Str.split_ws seg in
  if Regex.test zip_re (last tokens "") then
    let rest := removelast tokens in
    (Str.join " " (removelast rest), last rest "", Some (last tokens ""))
  else (Str.join " " (removelast tokens), last tokens "", None).

(** The third segment, read as the specification words it: the state,
    with a trailing 5-digit zip code taken off when one follows it. *)
Definition readStateZip (seg : string) : string * option string :=
  let tokens := Str.split_ws seg in
  if (1 <? List.length tokens)%nat && Regex.test zip_re (last tokens "")
  then (Str.join " " (removelast tokens), Some (last tokens ""))
  else (Str.join " " tokens, None).

(** A text whose words are separated by exactly one blank each, with no
    white space in front or behind; [after_space] tells that the previous
    character was the separating blank. *)
Fixpoint single_spaced (after_space : bool) (l : list ascii) : bool :=
  match l with
  | [] => negb after_space
  | c :: l' =>
      if Str.is_space c
      then Ascii.eqb c " " && negb after_space && single_spaced true l'
      else single_spaced false l'
  end.

(** The loop invariant of a parser that remembers its links: no two
    candidates share a link, and every candidate's link is remembered. *)
Definition seenInv (st : Parser.Seen) : Prop :=
  NoDup (map C.url (fst st))
  /\ forall c, In c (fst st) -> In (C.url c) (snd st).

(** The history rows an update writes: one when the price moved. *)
Definition deltaEntries (now : Date) (existing : P.t) (c : C.t)
  : list PriceHistory.t :=
  if (P.price existing =? C.price c)%Z then []
  else [PriceHistory.Make (P.id existing) (P.price existing) (C.price c) now].

(** The history rows a creation writes: the backdated one of the hint. *)
Definition hintEntries (id : nat) (c : C.t) : list PriceHistory.t :=
  match C.priceChange c with
  | Some pc =>
      [PriceHistory.Make id (C.price c + amount pc)%Z (C.price c) (date pc)]
  | None => []
  end.

(** Where a row, and a candidate, is: the comparison key with the city
    and the state as the case-insensitive filter of the scan sees them.
    The address scan matches a candidate with a row when the two
    agree. *)
Definition aclass (p : P.t) : string * string * string :=
  (addressKey p, Str.toLowerCase (P.city p), Str.toLowerCase (P.state p)).
Definition cclass (c : C.t) : string * string * string :=
  (caddressKey c, Str.toLowerCase (C.city c), Str.toLowerCase (C.state c)).

(** Two candidates with one identity; two candidates at one place. *)
Definition same_identity (k c : C.t) : bool :=
  String.eqb (C.source c) (C.source k)
  && String.eqb (C.sourceId c) (C.sourceId k).
Definition same_place (k c : C.t) : bool :=
  String.eqb (caddressKey c) (caddressKey k)
  && equals_insensitive (C.city c) (C.city k)
  && equals_insensitive (C.state c) (C.state k).


(** The listings of a batch do not contradict each other: an identity
    stands for one place, and a place is shown at one price. *)
Definition consistent (cs : list C.t) : Prop :=
  forall c c', In c cs -> In c' cs ->
    (ckey c = ckey c' -> cclass c = cclass c')
    /\ (cclass c = cclass c' -> C.price c = C.price c').

Definition consistentb (cs : list C.t) : bool :=
  forallb (fun c =>
    forallb (fun c' =>
      implb (same_identity c c') (same_place c c')
      && implb (same_place c c') (C.price c =? C.price c')%Z) cs) cs.

(** The row is at the place of a listing of the batch. *)
Definition atBatch (cs : list C.t) (q : P.t) : bool :=
  existsb (fun c => scan c q) cs.

(** At every place of a listing of the batch the table holds one row at
    most, and the rows that carry the identity of a listing of the batch
    are at the place of that listing.  On such a table the address scan
    of a listing of the batch has at most one row to find, so the order
    in which the store lists the rows plays no part.  Runs of batches
    that do not contradict themselves keep a table so, from the empty
    table on. *)
Definition tidy (cs : list C.t) (db : Store) : Prop :=
  NoDup (map aclass (filter (atBatch cs) (properties db)))
  /\ forall q c, In q (properties db) -> In c cs ->
       key q = ckey c -> aclass q = cclass c.

(** The table has a row at place [a] with price [price]. *)
Definition priced (db : Store) (a : string * string * string) (price : Z)
  : Prop :=
  exists row, In row (properties db) /\ aclass row = a /\ P.price row = price.

(** [db'] holds everything [db] held, whatever the order of the rows: the
    primary keys of [db] and new ones, the history of [db] and new
    rows. *)
Definition keeps (db db' : Store) : Prop :=
  (exists ids,
      Permutation (map P.id (properties db'))
                  (map P.id (properties db) ++ ids))
  /\ (exists rows, Permutation (priceHistory db') (priceHistory db ++ rows)).

(** *** What the columns of the schema accept *)

(** A text column takes every text without a NUL character. *)
Definition storedText (s : string) : bool :=
  forallb (fun ch => negb (Ascii.eqb ch Ascii.zero)) (Str.chars s).

(** [INTEGER] *)
Definition fitsInteger (n : Z) : bool := ((0 <=? n) && (n <? 2 ^ 31))%Z.

(** [DECIMAL(precision, places)]: the number, rounded to [places]
    decimals, has at most [precision - places] digits before the point:
    it is below [10 ^ (precision - places) - 10 ^ (- places) / 2]. *)
Definition fitsDecimal (precision places : nat) (d : Decimal) : bool :=
  ((0 <=? mantissa d)
   && (2 * 10 ^ Z.of_nat places * mantissa d
       <? (2 * 10 ^ Z.of_nat precision - 1) * 10 ^ Z.of_nat (scale d)))%Z.

(** A date [new Date(year, monthIndex, day)] of the calendar. *)
Definition calendarDay (d : Date) : bool :=
  match d with
  | Instant _ => true
  | LocalDay year monthIndex day =>
      ((1970 <=? year) && (year <=? 9999) && (0 <=? monthIndex)
       && (monthIndex <=? 11) && (1 <=? day) && (day <=? 31))%Z
  end.

Definition whenSet {A} (f : A -> bool) (o : option A) : bool :=
  match o with Some a => f a | None => true end.

(** The candidate can be stored: its price is a positive amount of
    [DECIMAL(12,2)], as is the earlier price of its hint, whose date is a
    day of the calendar; [beds], [sqft] and [yearBuilt] fit [INTEGER]
    ([sqft] positive), [baths] fits [DECIMAL(3,1)] and [lotSize]
    [DECIMAL(10,2)]; the texts hold no NUL character.  The store rejects
    a row that breaks one of these, and the embedding of the store does
    not: what is proved of a batch that is accepted is stated for
    storable candidates. *)
Definition storable (c : C.t) : bool :=
  ((0 <? C.price c) && (C.price c <? 10 ^ 10))%Z
  && whenSet fitsInteger (C.beds c)
  && whenSet (fun n => (0 <? n)%Z && fitsInteger n) (C.sqft c)
  && whenSet fitsInteger (C.yearBuilt c)
  && whenSet (fitsDecimal 3 1) (C.baths c)
  && whenSet (fitsDecimal 10 2) (C.lotSize c)
  && whenSet (fun pc => ((0 <=? amount pc)
                         && (C.price c + amount pc <? 10 ^ 10))%Z
                        && calendarDay (date pc))
             (C.priceChange c)
  && forallb storedText
       ([C.street c; C.city c; C.state c; C.source c; C.sourceId c;
         C.url c] ++ C.images c)
  && forallb (whenSet storedText)
       [C.zip c; C.county c; C.builder c; C.agent c; C.description c].

(** The number has [places] decimals at most. *)
Definition wholeAt (places : nat) (d : Decimal) : bool :=
  ((mantissa d * 10 ^ Z.of_nat places) mod 10 ^ Z.of_nat (scale d) =? 0)%Z.

(** The store keeps the numbers of the candidate as they are: [baths]
    has one decimal at most and [lotSize] two, so that [DECIMAL(3,1)]
    and [DECIMAL(10,2)] do not round them. *)
Definition unrounded (c : C.t) : bool :=
  whenSet (wholeAt 1) (C.baths c) && whenSet (wholeAt 2) (C.lotSize c).


(** The state of a run in which the place of [k] moves from [p1] to the
    price of [k], while the other places are at their prices: [moved]
    tells whether the row [id] at the place of [k] has the new price. *)
Definition movingTo (cs : list C.t) (k : C.t) (p1 : Z) (id : nat)
    (moved : bool) (db : Store) : Prop :=
  wf db /\ tidy cs db
  /\ (forall c, In c cs -> same_place k c = false ->
        priced db (cclass c) (C.price c))
  /\ exists row,
       In row (properties db) /\ aclass row = cclass k /\ P.id row = id
       /\ P.price row = if moved then C.price k else p1.

End Props.

(* ====================================================================== *)
(** ** The tables the pipeline produces *)
(* ====================================================================== *)

Module Runs.
Import Prisma Processor Pipeline.


End Runs.

(* ====================================================================== *)
(** ** Sample data *)
(* ====================================================================== *)

Module Samples.
Import Utils Parser Processor Pipeline Props.

Definition nl : string := String Regex.LF "".

(** A listing seen through a tracking link. *)
Definition mainSt : C.t :=
  C.Make "123 North Main Street" "Anytown" "CA" None None
    "zillow" "https://click.mail.zillow.com/f/a/first"
    "https://click.mail.zillow.com/f/a/first" None 250000 None None
    (Some 3%Z) (Some (MkDecimal 25 1)) (Some 1800%Z) None None None None
    ["https://photos.example/1.jpg"] None.


(** A listing announced with a price cut. *)
Definition priceCut : C.t :=
  C.Make "8007 Broadmead Ct" "Spartanburg" "SC" None None
    "redfin" "12345678"
    "https://www.redfin.com/SC/Spartanburg/8007-Broadmead-Ct/home/12345678"
    None 120000 (Some (MkPriceChange 2000 (LocalDay 2025 10 5))) None
    (Some 3%Z) (Some (MkDecimal 2 0)) (Some 1075%Z) None None None None
    ["https://ssl.cdn-redfin.com/photo/1.jpg"] None.

(** The mail that announces it: one Redfin card, linked once. *)
Definition priceCutCard : Card :=
  MkCard ("$120,000" ++ nl ++ "Price cut: $2K (11/5)" ++ nl
          ++ "3 Beds | 2 Baths | 1,075 Sq. Ft." ++ nl
          ++ "8007 Broadmead Ct, Spartanburg, SC 29307")%string
         (Some "https://ssl.cdn-redfin.com/photo/1.jpg").

Definition priceCutLink : Anchor :=
  MkAnchor
    (Some "https://www.redfin.com/SC/Spartanburg/8007-Broadmead-Ct/home/12345678")
    None (Some priceCutCard).

Definition priceCutMail : Message :=
  MkMessage (Some "Redfin <listings@redfin.com>") (Some [priceCutLink]).

(** A mail with two flats of one building, at different prices. *)
Definition flatCard (unit price : string) : Card :=
  MkCard (price ++ nl ++ "2 Beds | 1 Bath | 1,075 Sq. Ft." ++ nl
          ++ "500 Oak Ave Apt " ++ unit ++ ", Anytown, SC")%string
         None.

Definition flatLink (id unit price : string) : Anchor :=
  MkAnchor
    (Some ("https://www.redfin.com/SC/Anytown/500-Oak-Ave/unit-" ++ unit
           ++ "/home/" ++ id)%string)
    None (Some (flatCard unit price)).

Definition flatsMail : Message :=
  MkMessage (Some "Redfin <listings@redfin.com>")
    (Some [flatLink "111" "5" "$100,000"; flatLink "222" "7" "$150,000"]).

(** A Land.com card, and a Zillow card behind a tracking link. *)
Definition landCard : Card :=
  MkCard ("Lot 7 Pine Ridge Rd, Florence, SC" ++ nl ++ "$45,000" ++ nl
          ++ "12.5 acres")%string
         (Some "https://assets.land.com/lot7.jpg").

Definition landLink : Anchor :=
  MkAnchor (Some "https://www.land.com/property/7-pine-ridge/4411/")
    None (Some landCard).

Definition zillowCard : Card :=
  MkCard ("$250,000" ++ nl ++ "3 bd | 2.5 ba | 1,800 sqft" ++ nl
          ++ "123 North Main Street, Anytown, CA 90210")%string
         (Some "https://photos.zillowstatic.com/1.jpg").

Definition zillowLink : Anchor :=
  MkAnchor (Some "https://click.mail.zillow.com/f/a/first")
    (Some zillowCard) (Some zillowCard).

(** A mail from a sender that is none of the four sources. *)
Definition unknownMail : Message :=
  MkMessage (Some "newsletter@example.org") (Some [priceCutLink]).

(** A land listing with a zip code, announced while its sale is pending;
    the row that is stored for it, and the store that holds it. *)
Definition pendingListing : C.t :=
  C.Make "8007 Broadmead Ct" "Spartanburg" "SC" (Some "29307") None
    "redfin" "12345678"
    "https://www.redfin.com/SC/Spartanburg/8007-Broadmead-Ct/home/12345678"
    (Some "Sale pending") 120000 None (Some LAND)
    (Some 3%Z) (Some (MkDecimal 2 0)) (Some 1075%Z) None None None None
    [] None.

Definition pendingRow : P.t := data_row pendingListing 0.

Definition pendingStore : Store := MkStore [pendingRow] [] 1.

(** The pending listing seen again by its own id, without status text,
    square footage or zip code. *)
Definition seenAgain : C.t :=
  C.Make "8007 Broadmead Ct" "Spartanburg" "SC" None None
    "redfin" "12345678"
    "https://www.redfin.com/SC/Spartanburg/8007-Broadmead-Ct/home/12345678"
    None 120000 None None None None None None None None None [] None.

(** The pending listing seen through a tracking link of another source,
    without a zip code. *)
Definition seenElsewhere : C.t :=
  C.Make "8007 Broadmead Court" "Spartanburg" "SC" None None
    "realtor" "https://click.realtor.com/t/9"
    "https://click.realtor.com/t/9"
    None 118000 None None None None None None None None None [] None.


(** A table with two listings. *)
Definition twoListings : Store :=
  MkStore [pendingRow; data_row mainSt 1] [] 2.


(** A Redfin mail whose card is linked twice. *)
Definition linkedTwiceMail : Message :=
  MkMessage (Some "Redfin <listings@redfin.com>")
    (Some [priceCutLink; priceCutLink]).

(** A Zillow mail whose card is behind two tracking links, and the same
    mail with the card at another price. *)
Definition zillowCardAt (price : string) : Card :=
  MkCard (price ++ nl ++ "3 bd | 2.5 ba | 1,800 sqft" ++ nl
          ++ "123 North Main Street, Anytown, CA 90210")%string
         (Some "https://photos.zillowstatic.com/1.jpg").

Definition zillowLinkAt (link price : string) : Anchor :=
  MkAnchor (Some ("https://click.mail.zillow.com/f/a/" ++ link)%string)
    (Some (zillowCardAt price)) (Some (zillowCardAt price)).

Definition twoLinksMail (price : string) : Message :=
  MkMessage (Some "Zillow <alerts@mail.zillow.com>")
    (Some [zillowLinkAt "first" price; zillowLinkAt "second" price]).


(** A Redfin mail whose card shows more baths than the column holds. *)
Definition manyBathsCard : Card :=
  MkCard ("$300,000" ++ nl ++ "4 Beds | 123 Baths | 2,000 Sq. Ft." ++ nl
          ++ "9 Bay Rd, Anytown, SC 29307")%string
         None.

Definition manyBathsMail : Message :=
  MkMessage (Some "Redfin <listings@redfin.com>")
    (Some [MkAnchor (Some "https://www.redfin.com/SC/Anytown/9-Bay-Rd/home/99")
             None (Some manyBathsCard)]).




(** A table with one listing. *)
Definition oneListing : Store := MkStore [data_row mainSt 0] [] 1.


End Samples.

(* ====================================================================== *)
(** ** Properties of the store operations *)
(* ====================================================================== *)

Module StoreFacts.
Import Utils Prisma Processor Props.

(** Well-formedness of a store that is written out. *)
Ltac wf_by_computation :=
  constructor; simpl;
  repeat (constructor; simpl; try tauto; try lia).

Lemma find_app_none {A} (f : A -> bool) (l1 l2 : list A) :
  find f l1 = None -> find f (l1 ++ l2) = find f l2.
Proof.
  induction l1 as [|x l1 IH]; simpl; [reflexivity|].
  destruct (f x); [discriminate | exact IH].
Qed.

Lemma find_app_some {A} (f : A -> bool) (l1 l2 : list A) (x : A) :
  find f l1 = Some x -> find f (l1 ++ l2) = Some x.
Proof.
  induction l1 as [|y l1 IH]; simpl; [discriminate|].
  destruct (f y); [trivial | exact IH].
Qed.

Lemma find_ext_in {A} (f g : A -> bool) (l : list A) :
  (forall x, In x l -> f x = g x) -> find f l = find g l.
Proof.
  induction l as [|x l IH]; simpl; intros H; [reflexivity|].
  rewrite (H x) by (left; reflexivity).
  destruct (g x); [reflexivity|].
  apply IH. intros y Hy. apply H. right. exact Hy.
Qed.

Lemma has_identity_key (s i : string) (p : P.t) :
  has_identity s i p = true <-> key p = (s, i).
Proof.
  unfold has_identity, key. rewrite andb_true_iff, !String.eqb_eq.
  split; [intros [-> ->]; reflexivity | intros H; inversion H; auto].
Qed.

Lemma has_identity_false (s i : string) (p : P.t) :
  has_identity s i p = false <-> key p <> (s, i).
Proof.
  rewrite <- has_identity_key. destruct (has_identity s i p); split;
    congruence.
Qed.

Lemma findUnique_some (s i : string) (db : Store) (p : P.t) :
  findUnique s i db = Some p -> In p (properties db) /\ key p = (s, i).
Proof.
  unfold findUnique. intros H. apply find_some in H.
  destruct H as [Hin Hk]. split; [exact Hin|].
  apply has_identity_key. exact Hk.
Qed.

Lemma findUnique_none (s i : string) (db : Store) :
  findUnique s i db = None ->
  forall p, In p (properties db) -> key p <> (s, i).
Proof.
  unfold findUnique. intros H p Hin.
  apply has_identity_false. exact (find_none _ _ H p Hin).
Qed.

(** The resolution order of [upsertProperty]: the identity lookup wins. *)
Lemma findExisting_identity (c : C.t) (db : Store) (p : P.t) :
  findUnique (C.source c) (C.sourceId c) db = Some p ->
  findExisting c db = Some p.
Proof. unfold findExisting. intros ->. reflexivity. Qed.

(** ... and when it fails, the scan of the rows of the same city and
    state decides. *)
Lemma findExisting_fallback (c : C.t) (db : Store) :
  findUnique (C.source c) (C.sourceId c) db = None ->
  findExisting c db
  = find (same_address c) (findMany (C.city c) (C.state c) db).
Proof.
  unfold findExisting, same_address, addressKey, caddressKey.
  intros ->. reflexivity.
Qed.

Lemma findMany_In (city state : string) (db : Store) (p : P.t) :
  In p (findMany city state db) ->
  In p (properties db)
  /\ equals_insensitive (P.city p) city = true
  /\ equals_insensitive (P.state p) state = true.
Proof.
  unfold findMany. rewrite filter_In, andb_true_iff. tauto.
Qed.

Lemma findExisting_In (c : C.t) (db : Store) (p : P.t) :
  findExisting c db = Some p -> In p (properties db).
Proof.
  unfold findExisting.
  destruct (findUnique (C.source c) (C.sourceId c) db) as [q|] eqn:E.
  - intros H. inversion H; subst. apply (findUnique_some _ _ _ _ E).
  - intros H. apply find_some in H. destruct H as [H _].
    apply findMany_In in H. tauto.
Qed.

Lemma findExisting_none_identity (c : C.t) (db : Store) :
  findExisting c db = None ->
  findUnique (C.source c) (C.sourceId c) db = None.
Proof.
  unfold findExisting.
  destruct (findUnique (C.source c) (C.sourceId c) db); [discriminate|].
  reflexivity.
Qed.

(** An update touches the one row with the given key and nothing else. *)
Lemma update_split (f : P.t -> P.t) (l1 l2 : list P.t) (ex : P.t) :
  NoDup (map P.id (l1 ++ ex :: l2)) ->
  rewritten (P.id ex) f (l1 ++ ex :: l2) = l1 ++ f ex :: l2.
Proof.
  unfold rewritten, update. cbn [properties]. intros Hnd.
  assert (Hother : forall q, In q l1 \/ In q l2 -> P.id q <> P.id ex).
  { intros q Hq Heq. rewrite map_app in Hnd. simpl in Hnd.
    apply NoDup_remove_2 in Hnd. apply Hnd. rewrite in_app_iff.
    rewrite <- Heq. destruct Hq as [Hq|Hq]; [left|right];
      apply in_map; exact Hq. }
  rewrite map_app. simpl. rewrite Nat.eqb_refl. f_equal; [|f_equal].
  - rewrite <- (map_id l1) at 2. apply map_ext_in. intros q Hq.
    destruct (Nat.eqb_spec (P.id q) (P.id ex)) as [E|_]; [|reflexivity].
    exfalso. exact (Hother q (or_introl Hq) E).
  - rewrite <- (map_id l2) at 2. apply map_ext_in. intros q Hq.
    destruct (Nat.eqb_spec (P.id q) (P.id ex)) as [E|_]; [|reflexivity].
    exfalso. exact (Hother q (or_intror Hq) E).
Qed.

Lemma rewritten_length (id : nat) (f : P.t -> P.t) (rows : list P.t) :
  List.length (rewritten id f rows) = List.length rows.
Proof. unfold rewritten, update. simpl. apply length_map. Qed.

(** [upsertProperty] on a candidate that matches a stored row. *)
Lemma upsert_existing (now : Date) (c : C.t) (db : Store) (ex : P.t) :
  findExisting c db = Some ex ->
  upsertProperty now c db
  = Returns (updated,
             MkStore
               (rewritten (P.id ex) (data_patch c ex) (properties db))
               (priceHistory db ++ deltaEntries now ex c)
               (nextId db)).
Proof.
  intros H. unfold upsertProperty. rewrite H. unfold deltaEntries.
  destruct (P.price ex =? C.price c)%Z; simpl.
  - rewrite app_nil_r. reflexivity.
  - reflexivity.
Qed.

(** [upsertProperty] on a candidate that matches nothing. *)
Lemma upsert_new (now : Date) (c : C.t) (db : Store) :
  findExisting c db = None ->
  upsertProperty now c db
  = Returns (created,
             MkStore
               (properties db ++ [data_row c (nextId db)])
               (priceHistory db ++ hintEntries (nextId db) c)
               (S (nextId db))).
Proof.
  intros H. unfold upsertProperty. rewrite H.
  apply findExisting_none_identity in H.
  unfold create. cbn [data_row P.source P.sourceId]. rewrite H.
  unfold hintEntries. destruct (C.priceChange c); simpl.
  - reflexivity.
  - rewrite app_nil_r. reflexivity.
Qed.

(** [upsertProperty] never throws: the identity it creates was looked up
    and found free just before. *)
Lemma upsert_returns (now : Date) (c : C.t) (db : Store) :
  exists r db', upsertProperty now c db = Returns (r, db').
Proof.
  destruct (findExisting c db) as [ex|] eqn:E.
  - rewrite (upsert_existing now c db ex E). eauto.
  - rewrite (upsert_new now c db E). eauto.
Qed.

Lemma find_middle {A} (f : A -> bool) (l1 l2 : list A) (x : A) :
  (forall q, In q l1 -> f q = false) -> f x = true ->
  find f (l1 ++ x :: l2) = Some x.
Proof.
  intros Hl1 Hx. induction l1 as [|y l1 IH]; simpl.
  - rewrite Hx. reflexivity.
  - rewrite (Hl1 y) by (left; reflexivity).
    apply IH. intros q Hq. apply Hl1. right. exact Hq.
Qed.

Lemma NoDup_replace {A} (l1 l2 : list A) (x y : A) :
  NoDup (l1 ++ x :: l2) -> y = x \/ ~ In y (l1 ++ l2) ->
  NoDup (l1 ++ y :: l2).
Proof.
  intros Hnd [->|Hy]; [exact Hnd|].
  apply NoDup_remove_1 in Hnd.
  apply (Permutation_NoDup (l := y :: l1 ++ l2)).
  - apply Permutation_middle.
  - constructor; assumption.
Qed.

Lemma find_first {A} (f : A -> bool) (l : list A) (x : A) :
  find f l = Some x ->
  exists l1 l2,
    l = l1 ++ x :: l2 /\ f x = true /\ forall q, In q l1 -> f q = false.
Proof.
  induction l as [|y l IH]; simpl; [discriminate|].
  destruct (f y) eqn:E.
  - intros [= <-]. exists [], l. split; [reflexivity|].
    split; [exact E | intros q []].
  - intros H. destruct (IH H) as (l1 & l2 & -> & Hx & Hl1).
    exists (y :: l1), l2. split; [reflexivity|]. split; [exact Hx|].
    intros q [<-|Hq]; [exact E | exact (Hl1 q Hq)].
Qed.


(** A matched row either carries the candidate's identity already, or no
    row does. *)
Lemma findExisting_key (c : C.t) (db : Store) (ex : P.t) :
  findExisting c db = Some ex ->
  key ex = ckey c
  \/ findUnique (C.source c) (C.sourceId c) db = None.
Proof.
  unfold findExisting.
  destruct (findUnique (C.source c) (C.sourceId c) db) as [q|] eqn:E.
  - intros H. inversion H; subst. left.
    apply (findUnique_some _ _ _ _ E).
  - intros _. right. reflexivity.
Qed.

Lemma data_patch_id (c : C.t) (ex row : P.t) :
  P.id (data_patch c ex row) = P.id row.
Proof. reflexivity. Qed.

Lemma data_patch_key (c : C.t) (ex row : P.t) :
  key (data_patch c ex row) = ckey c.
Proof. reflexivity. Qed.

(** The rows after an update of a matched row: the store is well formed,
    so exactly that row is rewritten, and no other row carries the
    candidate's identity. *)
Lemma update_existing (c : C.t) (db : Store) (ex : P.t) :
  wf db -> findExisting c db = Some ex ->
  exists l1 l2,
    properties db = l1 ++ ex :: l2
    /\ rewritten (P.id ex) (data_patch c ex) (properties db)
       = l1 ++ data_patch c ex ex :: l2
    /\ (forall q, In q (l1 ++ l2) -> key q <> ckey c).
Proof.
  intros Hwf He.
  destruct (in_split _ _ (findExisting_In _ _ _ He)) as (l1 & l2 & Hs).
  exists l1, l2. split; [exact Hs|]. split.
  - rewrite Hs. apply update_split.
    rewrite <- Hs. apply (wf_ids _ Hwf).
  - intros q Hq. destruct (findExisting_key _ _ _ He) as [Hk|Hn].
    + pose proof (wf_keys _ Hwf) as Hnd. rewrite Hs, map_app in Hnd.
      simpl in Hnd. apply NoDup_remove_2 in Hnd.
      intros Hq'. apply Hnd. rewrite <- map_app, Hk, <- Hq'.
      apply in_map. exact Hq.
    + apply (findUnique_none _ _ _ Hn). rewrite Hs.
      rewrite in_app_iff in *. simpl. tauto.
Qed.

(** Well-formedness is an invariant of [upsertProperty]. *)
Lemma upsert_wf (now : Date) (c : C.t) (db db' : Store) (r : UpsertResult) :
  wf db -> upsertProperty now c db = Returns (r, db') -> wf db'.
Proof.
  intros Hwf Hu.
  destruct (findExisting c db) as [ex|] eqn:E.
  - rewrite (upsert_existing now c db ex E) in Hu.
    injection Hu as _ <-.
    destruct (update_existing c db ex Hwf E) as (l1 & l2 & Hs & Hs' & Hk).
    constructor; cbn [properties nextId]; rewrite Hs'.
    + rewrite map_app. simpl. rewrite ?data_patch_id.
      pose proof (wf_ids _ Hwf) as H. rewrite Hs, map_app in H. exact H.
    + pose proof (wf_fresh _ Hwf) as H. rewrite Hs in H.
      rewrite Forall_app in *. destruct H as [H1 H2]. split; [exact H1|].
      inversion H2; subst. constructor; [|assumption].
      rewrite ?data_patch_id. assumption.
    + rewrite map_app. cbn [map]. rewrite data_patch_key.
      apply (NoDup_replace _ _ (key ex)).
      * pose proof (wf_keys _ Hwf) as H. rewrite Hs, map_app in H. exact H.
      * right. rewrite <- map_app. intros Hin.
        apply in_map_iff in Hin. destruct Hin as (q & Hq & Hin).
        exact (Hk q Hin Hq).
  - rewrite (upsert_new now c db E) in Hu. injection Hu as _ <-.
    pose proof (findExisting_none_identity _ _ E) as Hn.
    constructor; cbn [properties nextId].
    + rewrite map_app. simpl.
      apply (Permutation_NoDup (l := nextId db :: map P.id (properties db))).
      * apply Permutation_cons_append.
      * constructor; [|apply (wf_ids _ Hwf)].
        intros Hin. apply in_map_iff in Hin. destruct Hin as (q & Hq & Hin).
        pose proof (wf_fresh _ Hwf) as Hf. rewrite Forall_forall in Hf.
        specialize (Hf q Hin). lia.
    + rewrite Forall_app. split.
      * pose proof (wf_fresh _ Hwf) as Hf. rewrite Forall_forall in *.
        intros q Hq. specialize (Hf q Hq). lia.
      * constructor; [simpl; lia | constructor].
    + rewrite map_app. simpl.
      apply (Permutation_NoDup (l := ckey c :: map key (properties db))).
      * apply Permutation_cons_append.
      * constructor; [|apply (wf_keys _ Hwf)].
        intros Hin. apply in_map_iff in Hin. destruct Hin as (q & Hq & Hin).
        exact (findUnique_none _ _ _ Hn q Hin Hq).
Qed.

Lemma wf_empty : wf emptyStore.
Proof. constructor; simpl; constructor. Qed.

Lemma has_identity_ckey (c : C.t) (p : P.t) :
  key p = ckey c -> has_identity (C.source c) (C.sourceId c) p = true.
Proof. intros H. apply has_identity_key. exact H. Qed.

(** After [upsertProperty], the candidate's identity selects the row that
    was written for it. *)
Lemma upsert_settles (now : Date) (c : C.t) (db : Store) :
  wf db ->
  exists r db' row,
    upsertProperty now c db = Returns (r, db')
    /\ findUnique (C.source c) (C.sourceId c) db' = Some row
    /\ match findExisting c db with
       | Some ex => row = data_patch c ex ex
       | None => row = data_row c (nextId db)
       end.
Proof.
  intros Hwf.
  destruct (findExisting c db) as [ex|] eqn:E.
  - rewrite (upsert_existing now c db ex E).
    destruct (update_existing c db ex Hwf E) as (l1 & l2 & Hs & Hs' & Hk).
    eexists _, _, _. split; [reflexivity|]. split; [|reflexivity].
    unfold findUnique. cbn [properties]. rewrite Hs'.
    apply find_middle.
    + intros q Hq. apply has_identity_false. apply Hk.
      rewrite in_app_iff. left. exact Hq.
    + apply has_identity_ckey. reflexivity.
  - rewrite (upsert_new now c db E).
    eexists _, _, _. split; [reflexivity|]. split; [|reflexivity].
    unfold findUnique. cbn [properties].
    rewrite find_app_none by apply (findExisting_none_identity _ _ E).
    simpl. rewrite (has_identity_ckey c) by reflexivity. reflexivity.
Qed.

Lemma rowOf_updated (c : C.t) (db : Store) (ex : P.t) :
  wf db -> findExisting c db = Some ex ->
  find (fun p => (P.id p =? P.id ex)%nat)
    (rewritten (P.id ex) (data_patch c ex) (properties db))
  = Some (data_patch c ex ex).
Proof.
  intros Hwf He.
  destruct (update_existing c db ex Hwf He) as (l1 & l2 & Hs & Hs' & _).
  rewrite Hs'.
  apply find_middle.
  - intros q Hq. apply Nat.eqb_neq. intros Heq.
    pose proof (wf_ids _ Hwf) as Hnd. rewrite Hs, map_app in Hnd.
    simpl in Hnd. apply NoDup_remove_2 in Hnd. apply Hnd.
    rewrite in_app_iff. left. rewrite <- Heq. apply in_map. exact Hq.
  - rewrite ?data_patch_id. apply Nat.eqb_refl.
Qed.

End StoreFacts.

(* ====================================================================== *)
(** ** The upsert engine: creation, price history, identity resolution *)
(* ====================================================================== *)

Module UpsertFacts.
Import Utils Prisma Processor Props StoreFacts Samples.


Lemma equals_insensitive_eq (a b column : string) :
  equals_insensitive a b = true ->
  equals_insensitive column a = equals_insensitive column b.
Proof.
  unfold equals_insensitive. intros H. apply String.eqb_eq in H.
  rewrite H. reflexivity.
Qed.

Lemma findMany_insensitive (city1 city2 state1 state2 : string) (db : Store) :
  equals_insensitive city1 city2 = true ->
  equals_insensitive state1 state2 = true ->
  findMany city1 state1 db = findMany city2 state2 db.
Proof.
  intros Hc Hs. unfold findMany. apply filter_ext. intros p.
  rewrite (equals_insensitive_eq _ _ _ Hc), (equals_insensitive_eq _ _ _ Hs).
  reflexivity.
Qed.

Lemma addressKey_data_row (c : C.t) (id : nat) :
  addressKey (data_row c id) = caddressKey c.
Proof.
  unfold addressKey, caddressKey, data_row.
  cbn [P.street P.city P.state]. reflexivity.
Qed.

Lemma same_address_key (c1 c2 : C.t) (p : P.t) :
  caddressKey c1 = caddressKey c2 -> same_address c1 p = same_address c2 p.
Proof. unfold same_address. intros ->. reflexivity. Qed.

Lemma find_filter {A} (f g : A -> bool) (l : list A) :
  find f (filter g l) = find (fun x => g x && f x) l.
Proof.
  induction l as [|x l IH]; simpl; [reflexivity|].
  destruct (g x); simpl; [destruct (f x); [reflexivity | exact IH] | exact IH].
Qed.

Lemma findExisting_scan (c : C.t) (db : Store) :
  findUnique (C.source c) (C.sourceId c) db = None ->
  findExisting c db = find (scan c) (properties db).
Proof.
  intros Hn. rewrite (findExisting_fallback c db Hn).
  unfold findMany. apply find_filter.
Qed.

Lemma scan_same (c1 c2 : C.t) (p : P.t) :
  caddressKey c1 = caddressKey c2 ->
  equals_insensitive (C.city c1) (C.city c2) = true ->
  equals_insensitive (C.state c1) (C.state c2) = true ->
  scan c1 p = scan c2 p.
Proof.
  intros Hk Hc Hs. unfold scan.
  rewrite (equals_insensitive_eq _ _ _ Hc), (equals_insensitive_eq _ _ _ Hs).
  rewrite (same_address_key c1 c2 p Hk). reflexivity.
Qed.

Lemma find_all_false {A} (f : A -> bool) (l : list A) :
  (forall x, In x l -> f x = false) -> find f l = None.
Proof.
  induction l as [|x l IH]; simpl; intros H; [reflexivity|].
  rewrite (H x) by (left; reflexivity).
  apply IH. intros y Hy. apply H. right. exact Hy.
Qed.

(** The same holds when the listing is already stored under a third
    identity: two candidates that are both unknown by (source, sourceId)
    and agree on normalized address, city and state are resolved to one and
    the same row, which the first one creates or updates and the second one
    updates. *)
Lemma address_fallback_same_row (now1 now2 : Date) (c1 c2 : C.t) (db : Store) :
  wf db ->
  findUnique (C.source c1) (C.sourceId c1) db = None ->
  findUnique (C.source c2) (C.sourceId c2) db = None ->
  C.sourceId c1 <> C.sourceId c2 ->
  caddressKey c1 = caddressKey c2 ->
  equals_insensitive (C.city c1) (C.city c2) = true ->
  equals_insensitive (C.state c1) (C.state c2) = true ->
  exists r1 db1 row db2,
    upsertProperty now1 c1 db = Returns (r1, db1)
    /\ findUnique (C.source c1) (C.sourceId c1) db1 = Some row
    /\ findUnique (C.source c2) (C.sourceId c2) db1 = None
    /\ findExisting c2 db1 = Some row
    /\ upsertProperty now2 c2 db1 = Returns (updated, db2)
    /\ List.length (properties db2)
       = match findExisting c1 db with
         | Some _ => List.length (properties db)
         | None => S (List.length (properties db))
         end.
Proof.
  intros Hwf H1 H2 Hid Hkey Hcity Hstate.
  assert (Hrow : forall row,
             key row = ckey c1 -> P.city row = C.city c1 ->
             P.state row = C.state c1 -> addressKey row = caddressKey c1 ->
             has_identity (C.source c2) (C.sourceId c2) row = false
             /\ scan c2 row = true).
  { intros row Hk Hc Hs Ha. split.
    - apply has_identity_false. rewrite Hk. unfold ckey. intros E.
      apply Hid. congruence.
    - unfold scan, same_address. rewrite Hc, Hs, Hcity, Hstate, Ha, Hkey.
      rewrite String.eqb_refl. reflexivity. }
  destruct (findExisting c1 db) as [ex|] eqn:E.
  - rewrite (upsert_existing now1 c1 db ex E).
    rewrite (findExisting_scan c1 db H1) in E.
    destruct (find_first _ _ _ E) as (l1 & l2 & Hs & _ & Hl1).
    assert (Hs' : rewritten (P.id ex) (data_patch c1 ex) (properties db)
                  = l1 ++ data_patch c1 ex ex :: l2).
    { rewrite Hs. apply update_split. rewrite <- Hs. apply (wf_ids _ Hwf). }
    destruct (Hrow (data_patch c1 ex ex) eq_refl eq_refl eq_refl eq_refl)
      as [Hno Hyes].
    set (db1 := MkStore _ _ _).
    assert (Hold : forall q, In q (l1 ++ l2) -> In q (properties db))
      by (intros q Hq; rewrite Hs, in_app_iff in *; simpl; tauto).
    assert (Hu1 : findUnique (C.source c1) (C.sourceId c1) db1
                  = Some (data_patch c1 ex ex)).
    { unfold findUnique, db1. cbn [properties]. rewrite Hs'.
      apply find_middle; [|apply has_identity_ckey; reflexivity].
      intros q Hq. apply has_identity_false.
      apply (findUnique_none _ _ _ H1), Hold.
      rewrite in_app_iff. left. exact Hq. }
    assert (Hu2 : findUnique (C.source c2) (C.sourceId c2) db1 = None).
    { unfold findUnique, db1. cbn [properties]. rewrite Hs'.
      apply find_all_false. intros q Hq.
      rewrite in_app_iff in Hq. simpl in Hq.
      destruct Hq as [Hq|[<-|Hq]]; [|exact Hno|];
        apply has_identity_false, (findUnique_none _ _ _ H2), Hold;
        rewrite in_app_iff; tauto. }
    assert (He : findExisting c2 db1 = Some (data_patch c1 ex ex)).
    { rewrite (findExisting_scan c2 db1 Hu2). unfold db1. cbn [properties].
      rewrite Hs'. apply find_middle; [|exact Hyes].
      intros q Hq. rewrite <- (scan_same c1 c2 q Hkey Hcity Hstate).
      exact (Hl1 q Hq). }
    exists updated, db1, (data_patch c1 ex ex). eexists.
    split; [reflexivity|]. split; [exact Hu1|]. split; [exact Hu2|].
    split; [exact He|].
    split; [apply (upsert_existing now2 c2 db1 _ He)|].
    cbn [properties]. rewrite rewritten_length. unfold db1. cbn [properties].
    apply rewritten_length.
  - rewrite (upsert_new now1 c1 db E).
    rewrite (findExisting_scan c1 db H1) in E.
    destruct (Hrow (data_row c1 (nextId db)) eq_refl eq_refl eq_refl
                (addressKey_data_row c1 (nextId db))) as [Hno Hyes].
    set (db1 := MkStore _ _ _).
    assert (Hu1 : findUnique (C.source c1) (C.sourceId c1) db1
                  = Some (data_row c1 (nextId db))).
    { unfold findUnique, db1. cbn [properties].
      rewrite find_app_none by exact H1. cbn [find].
      rewrite (has_identity_ckey c1) by reflexivity. reflexivity. }
    assert (Hu2 : findUnique (C.source c2) (C.sourceId c2) db1 = None).
    { unfold findUnique, db1. cbn [properties].
      rewrite find_app_none by exact H2. cbn [find]. rewrite Hno.
      reflexivity. }
    assert (He : findExisting c2 db1 = Some (data_row c1 (nextId db))).
    { rewrite (findExisting_scan c2 db1 Hu2). unfold db1. cbn [properties].
      rewrite find_app_none.
      - cbn [find]. rewrite Hyes. reflexivity.
      - rewrite <- E. apply find_ext_in. intros q _. symmetry.
        apply scan_same; assumption. }
    exists created, db1, (data_row c1 (nextId db)). eexists.
    split; [reflexivity|]. split; [exact Hu1|]. split; [exact Hu2|].
    split; [exact He|].
    split; [apply (upsert_existing now2 c2 db1 _ He)|].
    cbn [properties]. rewrite rewritten_length. unfold db1. cbn [properties].
    rewrite length_app. simpl. lia.
Qed.




(** The store with the pending sale is what a first sighting of that
    listing leaves behind. *)
Lemma pendingStore_reached :
  upsertProperty (Instant 0) pendingListing emptyStore
  = Returns (created, pendingStore)
  /\ P.status pendingRow = PENDING.
Proof. split; vm_compute; reflexivity. Qed.

(** What the function does when the candidate has no status text: the
    update writes ACTIVE, whatever the row held.  In the tables the
    program can be in every row is ACTIVE ([reachable_wf] below), so
    that there the status written is the status the row had. *)
Lemma update_without_status_stores_active
    (now : Date) (c : C.t) (db : Store) (ex : P.t) :
  wf db ->
  findExisting c db = Some ex ->
  truthy_string (C.status c) = None ->
  exists db' row,
    upsertProperty now c db = Returns (updated, db')
    /\ rowOf (P.id ex) db' = Some row
    /\ P.status row = ACTIVE.
Proof.
  intros Hwf He Hst. rewrite (upsert_existing now c db ex He).
  eexists _, _. split; [reflexivity|]. split.
  - unfold rowOf. cbn [properties]. apply (rowOf_updated c db ex Hwf He).
  - cbn [data_patch P.status]. unfold data_status. rewrite Hst. reflexivity.
Qed.

Lemma update_without_status_stores_active_witness :
  wf pendingStore
  /\ findExisting seenAgain pendingStore = Some pendingRow
  /\ truthy_string (C.status seenAgain) = None
  /\ P.status pendingRow = PENDING
  /\ exists db' row,
       upsertProperty (Instant 9) seenAgain pendingStore
       = Returns (updated, db')
       /\ rowOf (P.id pendingRow) db' = Some row
       /\ P.status row = ACTIVE.
Proof.
  assert (Hwf : wf pendingStore) by wf_by_computation.
  split; [exact Hwf|]. split; [reflexivity|]. split; [reflexivity|].
  split; [reflexivity|].
  apply (update_without_status_stores_active (Instant 9) seenAgain
           pendingStore pendingRow Hwf); reflexivity.
Defined.


Lemma mapStatus_examples :
  mapStatus "Sale Pending" = PENDING /\ mapStatus "SOLD" = SOLD
  /\ mapStatus "Off market" = OFF_MARKET
  /\ mapStatus "New construction" = ACTIVE.
Proof. repeat split. Qed.

(** The earlier [updateProperty] keeps the status of the row itself:
    without a status text the stored status stays. *)
Lemma legacy_update_keeps_status (now : Date) (c : C.t) (db : Store) (ex : P.t) :
  findUnique (C.source c) (C.sourceId c) db = Some ex ->
  truthy_string (C.status c) = None ->
  P.status (Legacy.update_patch c ex ex) = P.status ex.
Proof.
  intros _ Hst. cbn [Legacy.update_patch P.status]. rewrite Hst. reflexivity.
Qed.

Lemma legacy_update_keeps_pending :
  exists db',
    Legacy.updateProperty (Instant 9) seenAgain pendingStore = Returns db'
    /\ option_map P.status (rowOf 0 db') = Some PENDING.
Proof. eexists. split; reflexivity. Qed.

End UpsertFacts.


(* ====================================================================== *)
(** ** Running a batch again *)
(* ====================================================================== *)

Module Idempotence.
Import Utils Prisma Processor Pipeline Props StoreFacts UpsertFacts Samples.

Lemma NoDup_map_inj {A B} (f : A -> B) (l : list A) (x y : A) :
  NoDup (map f l) -> In x l -> In y l -> f x = f y -> x = y.
Proof.
  induction l as [|a l IH]; simpl; intros Hnd Hx Hy Hf; [contradiction|].
  inversion Hnd as [|? ? Hna Hnd']; subst.
  destruct Hx as [->|Hx], Hy as [->|Hy].
  - reflexivity.
  - exfalso. apply Hna. rewrite Hf. apply in_map. exact Hy.
  - exfalso. apply Hna. rewrite <- Hf. apply in_map. exact Hx.
  - apply IH; assumption.
Qed.

Lemma find_the_one {A} (f : A -> bool) (l : list A) (r : A) :
  In r l -> f r = true ->
  (forall q, In q l -> f q = true -> q = r) ->
  find f l = Some r.
Proof.
  intros Hin Hr Huniq. destruct (find f l) as [q|] eqn:E.
  - apply find_some in E. destruct E as [Hq Hfq].
    rewrite (Huniq q Hq Hfq). reflexivity.
  - rewrite (find_none _ _ E r Hin) in Hr. discriminate.
Qed.

Lemma filter_the_one (k : string * string) (l : list P.t) (r : P.t) :
  NoDup (map key l) -> In r l -> key r = k ->
  filter (has_identity (fst k) (snd k)) l = [r].
Proof.
  destruct k as [s i]. cbn [fst snd].
  induction l as [|x l IH]; simpl; intros Hnd Hin Hk; [contradiction|].
  inversion Hnd as [|? ? Hna Hnd']; subst.
  destruct Hin as [->|Hin].
  - rewrite (proj2 (has_identity_key s i r) Hk). f_equal.
    destruct (filter (has_identity s i) l) as [|q qs] eqn:E; [reflexivity|].
    exfalso. assert (Hq : In q (filter (has_identity s i) l))
      by (rewrite E; left; reflexivity).
    apply filter_In in Hq. destruct Hq as [Hq Hfq].
    apply has_identity_key in Hfq. apply Hna. rewrite Hk, <- Hfq.
    apply in_map. exact Hq.
  - replace (has_identity s i x) with false; [apply IH; assumption|].
    symmetry. apply has_identity_false. intros Hx. apply Hna.
    rewrite Hx, <- Hk. apply in_map. exact Hin.
Qed.

(** A row written for a candidate is a fixed point of the candidate's
    update. *)
Lemma data_patch_data_row (c : C.t) (id : nat) :
  data_patch c (data_row c id) (data_row c id) = data_row c id.
Proof.
  destruct c as [st ci sa zip co so si url stat pr pc pt beds baths sqft
                 lot yb bu ag imgs de].
  unfold data_patch, data_row, data_status, data_propertyType,
    unless_undefined, nullish.
  cbn [C.street C.city C.state C.zip C.county C.source C.sourceId C.url
       C.status C.price C.priceChange C.propertyType C.beds C.baths C.sqft
       C.lotSize C.yearBuilt C.builder C.agent C.images C.description
       P.id P.zip P.county P.beds P.baths P.sqft P.lotSize P.yearBuilt
       P.builder P.agent P.images P.description].
  destruct zip, beds, (truthy_decimal baths), sqft, (truthy_decimal lot),
    imgs; reflexivity.
Qed.

Lemma data_patch_twice (c : C.t) (ex : P.t) :
  data_patch c (data_patch c ex ex) (data_patch c ex ex) = data_patch c ex ex.
Proof.
  destruct c as [st ci sa zip co so si url stat pr pc pt beds baths sqft
                 lot yb bu ag imgs de].
  unfold data_patch, data_status, data_propertyType, unless_undefined,
    nullish.
  cbn [C.street C.city C.state C.zip C.county C.source C.sourceId C.url
       C.status C.price C.priceChange C.propertyType C.beds C.baths C.sqft
       C.lotSize C.yearBuilt C.builder C.agent C.images C.description
       P.id P.zip P.county P.beds P.baths P.sqft P.lotSize P.yearBuilt
       P.builder P.agent P.images P.description].
  destruct zip, beds, (truthy_decimal baths), sqft, (truthy_decimal lot),
    imgs; reflexivity.
Qed.

Lemma upsert_settled (now : Date) (c : C.t) (db db' : Store) (r : UpsertResult) :
  wf db -> upsertProperty now c db = Returns (r, db') -> settled c db'.
Proof.
  intros Hwf Hu.
  destruct (upsert_settles now c db Hwf) as (r0 & db0 & row & Hu0 & Hf & Hrow).
  rewrite Hu in Hu0. injection Hu0 as _ <-.
  exists row. split; [exact Hf|].
  destruct (findExisting c db); subst row.
  - apply data_patch_twice.
  - apply data_patch_data_row.
Qed.

Lemma settled_address (c : C.t) (row : P.t) :
  data_patch c row row = row -> addressKey row = caddressKey c.
Proof.
  intros H. rewrite <- H. unfold addressKey, caddressKey, data_patch.
  cbn [P.street P.city P.state]. reflexivity.
Qed.

Lemma settled_price (c : C.t) (row : P.t) :
  data_patch c row row = row -> P.price row = C.price c.
Proof. intros H. rewrite <- H. reflexivity. Qed.

(** A candidate that has its row is updated in place, and nothing moves. *)
Lemma upsert_noop (now : Date) (c : C.t) (db : Store) :
  wf db -> settled c db -> upsertProperty now c db = Returns (updated, db).
Proof.
  intros Hwf (row & Hf & Hfix).
  pose proof (findExisting_identity c db row Hf) as He.
  rewrite (upsert_existing now c db row He).
  destruct (update_existing c db row Hwf He) as (l1 & l2 & Hs & Hs' & _).
  rewrite Hs', Hfix, <- Hs. unfold deltaEntries.
  rewrite (settled_price c row Hfix), Z.eqb_refl, app_nil_r.
  destruct db; reflexivity.
Qed.

Lemma findExisting_cases (c : C.t) (db : Store) (ex : P.t) :
  findExisting c db = Some ex ->
  key ex = ckey c \/ addressKey ex = caddressKey c.
Proof.
  intros He. destruct (findExisting_key c db ex He) as [Hk|Hn].
  - left. exact Hk.
  - right. rewrite (findExisting_fallback c db Hn) in He.
    apply find_some in He. destruct He as [_ He].
    unfold same_address in He. apply String.eqb_eq in He. exact He.
Qed.

(** The upsert of another listing leaves a settled candidate settled. *)
Lemma upsert_keeps_settled
    (now : Date) (c c' : C.t) (db db' : Store) (r : UpsertResult) :
  wf db -> settled c db ->
  ckey c' <> ckey c -> caddressKey c' <> caddressKey c ->
  upsertProperty now c' db = Returns (r, db') ->
  settled c db'.
Proof.
  intros Hwf (row & Hf & Hfix) Hk Ha Hu.
  destruct (findUnique_some _ _ _ _ Hf) as [Hin Hkey].
  exists row. split; [|exact Hfix].
  destruct (findExisting c' db) as [ex|] eqn:E.
  - rewrite (upsert_existing now c' db ex E) in Hu. injection Hu as _ <-.
    assert (Hne : P.id ex <> P.id row).
    { intros Hid.
      assert (ex = row).
      { apply (NoDup_map_inj P.id (properties db));
          [apply (wf_ids _ Hwf) | apply (findExisting_In _ _ _ E)
          | exact Hin | exact Hid]. }
      subst ex. destruct (findExisting_cases c' db row E) as [H|H].
      - apply Hk. rewrite <- H. exact Hkey.
      - apply Ha. rewrite <- H. apply settled_address. exact Hfix. }
    unfold findUnique. cbn [properties]. apply find_the_one.
    + unfold rewritten, update. cbn [properties]. apply in_map_iff.
      exists row. split; [|exact Hin].
      destruct (Nat.eqb_spec (P.id row) (P.id ex)); [congruence|reflexivity].
    + apply has_identity_key. exact Hkey.
    + unfold rewritten, update. cbn [properties]. intros q Hq Hfq.
      apply in_map_iff in Hq. destruct Hq as (q0 & <- & Hq0).
      destruct (Nat.eqb_spec (P.id q0) (P.id ex)) as [Hid|Hid].
      * exfalso. apply has_identity_key in Hfq.
        rewrite data_patch_key in Hfq. exact (Hk Hfq).
      * apply (NoDup_map_inj key (properties db));
          [apply (wf_keys _ Hwf) | exact Hq0 | exact Hin|].
        apply has_identity_key in Hfq. rewrite Hfq, Hkey. reflexivity.
  - rewrite (upsert_new now c' db E) in Hu. injection Hu as _ <-.
    unfold findUnique. cbn [properties]. apply find_app_some. exact Hf.
Qed.

(** The first run settles every listing of a batch of distinct listings. *)
Lemma first_run_settles (now : Date) (cs : list C.t) :
  forall (others : list C.t) (sm : Summary) (db : Store),
    wf db -> distinct cs ->
    (forall o, In o others ->
       settled o db
       /\ forall c, In c cs ->
            ckey c <> ckey o /\ caddressKey c <> caddressKey o) ->
    let out := fold_left (processOne now) cs (sm, db) in
    wf (snd out)
    /\ (forall o, In o others -> settled o (snd out))
    /\ (forall c, In c cs -> settled c (snd out)).
Proof.
  induction cs as [|c cs IH]; intros others sm db Hwf [Hd1 Hd2] Hoth;
    cbn [fold_left snd].
  - split; [exact Hwf|]. split; [|intros c []].
    intros o Ho. apply (Hoth o Ho).
  - destruct (upsert_returns now c db) as (r & db1 & Hu).
    assert (Hwf1 : wf db1) by exact (upsert_wf _ _ _ _ _ Hwf Hu).
    assert (Hstep : exists sm1, processOne now (sm, db) c = (sm1, db1)).
    { unfold processOne. rewrite Hu. destruct r; eexists; reflexivity. }
    destruct Hstep as (sm1 & ->).
    simpl in Hd1, Hd2.
    inversion Hd1 as [|? ? Hn1 Hd1']; inversion Hd2 as [|? ? Hn2 Hd2'];
      subst.
    destruct (IH (c :: others) sm1 db1 Hwf1 (conj Hd1' Hd2')) as (H1 & H2 & H3).
    + intros o [<-|Ho].
      * split; [exact (upsert_settled _ _ _ _ _ Hwf Hu)|].
        intros c2 Hc2. split; intros E.
        -- apply Hn1. rewrite <- E. apply in_map. exact Hc2.
        -- apply Hn2. rewrite <- E. apply in_map. exact Hc2.
      * destruct (Hoth o Ho) as [Hso Hdist]. split.
        -- destruct (Hdist c (or_introl eq_refl)) as [Hk Ha].
           exact (upsert_keeps_settled _ _ _ _ _ _ Hwf Hso Hk Ha Hu).
        -- intros c2 Hc2. apply Hdist. right. exact Hc2.
    + split; [exact H1|]. split.
      * intros o Ho. apply H2. right. exact Ho.
      * intros c2 [<-|Hc2]; [apply H2; left; reflexivity | apply H3; exact Hc2].
Qed.

(** A run over listings that are all settled only counts them. *)
Lemma settled_run (now : Date) (cs : list C.t) :
  forall (sm : Summary) (db : Store),
    wf db -> (forall c, In c cs -> settled c db) ->
    fold_left (processOne now) cs (sm, db)
    = (MkSummary (sum_created sm) (sum_updated sm + List.length cs)
         (sum_errors sm), db).
Proof.
  induction cs as [|c cs IH]; intros sm db Hwf Hs; cbn [fold_left List.length].
  - rewrite Nat.add_0_r. destruct sm; reflexivity.
  - unfold processOne at 2.
    rewrite (upsert_noop now c db Hwf (Hs c (or_introl eq_refl))).
    rewrite IH; [|exact Hwf|intros c2 Hc2; apply Hs; right; exact Hc2].
    cbn [sum_created sum_updated sum_errors].
    rewrite <- Nat.add_succ_comm. reflexivity.
Qed.

(** C3 as worded fails in two ways.  A listing announced with a
    price cut has one history row after the first run, and still has it
    after the second.  And a mail with two flats of one building, whose
    addresses normalize alike, is folded into one row whose price flips at
    every run: three history rows after the second run. *)
Lemma rerun_leaves_history_rows :
  (exists s1 db1 s2 db2,
      processPropertyEmails (Instant 1) 2025 (Returns [priceCutMail])
        emptyStore = (s1, db1)
      /\ processPropertyEmails (Instant 2) 2025 (Returns [priceCutMail]) db1
         = (s2, db2)
      /\ List.length (properties db2) = 1%nat
      /\ priceHistory db2
         = [PriceHistory.Make 0 122000 120000 (LocalDay 2025 10 5)])
  /\
  (exists s1 db1 s2 db2,
      processPropertyEmails (Instant 1) 2025 (Returns [flatsMail])
        emptyStore = (s1, db1)
      /\ processPropertyEmails (Instant 2) 2025 (Returns [flatsMail]) db1
         = (s2, db2)
      /\ List.length (properties db2) = 1%nat
      /\ priceHistory db2
         = [PriceHistory.Make 0 100000 150000 (Instant 1);
            PriceHistory.Make 0 150000 100000 (Instant 2);
            PriceHistory.Make 0 100000 150000 (Instant 2)]).
Proof.
  split; eexists _, _, _, _.
  - split; [vm_compute; reflexivity|]. split; [vm_compute; reflexivity|].
    split; reflexivity.
  - split; [vm_compute; reflexivity|]. split; [vm_compute; reflexivity|].
    split; reflexivity.
Qed.

(** A listing seen for the first time in an empty store leaves no history
    row unless it carries a price-change hint. *)
Lemma first_sighting_history (now : Date) (c : C.t) :
  exists db1,
    upsertProperty now c emptyStore = Returns (created, db1)
    /\ priceHistory db1 = hintEntries 0 c.
Proof.
  rewrite (upsert_new now c emptyStore eq_refl). eexists. split; reflexivity.
Qed.

End Idempotence.

(* ====================================================================== *)
(** ** Address parsing and normalization *)
(* ====================================================================== *)

Module AddressFacts.
Import Str Regex Utils Props.

Lemma chars_str (l : list ascii) : chars (str l) = l.
Proof. apply list_ascii_of_string_of_list_ascii. Qed.

Lemma str_chars (s : string) : str (chars s) = s.
Proof. apply string_of_list_ascii_of_string. Qed.

Lemma str_app (a b : list ascii) : str (a ++ b) = (str a ++ str b)%string.
Proof.
  induction a as [|c a IH]; simpl; [reflexivity|].
  unfold str in *. simpl. rewrite IH. reflexivity.
Qed.

(** *** [trim] *)

Lemma drop_space_fixed (l : list ascii) :
  match l with c :: _ => is_space c = false | [] => True end ->
  drop_space l = l.
Proof. destruct l as [|c l]; simpl; [reflexivity|]. intros ->. reflexivity. Qed.

Lemma drop_space_head (l : list ascii) :
  match drop_space l with c :: _ => is_space c = false | [] => True end.
Proof.
  induction l as [|c l IH]; simpl; [exact I|].
  destruct (is_space c) eqn:E; [exact IH | exact E].
Qed.

Lemma drop_space_idem (l : list ascii) :
  drop_space (drop_space l) = drop_space l.
Proof. apply drop_space_fixed, drop_space_head. Qed.

Lemma drop_space_snoc (l : list ascii) (c : ascii) :
  is_space c = false -> drop_space (l ++ [c]) = drop_space l ++ [c].
Proof.
  intros Hc. induction l as [|d l IH]; simpl.
  - rewrite Hc. reflexivity.
  - destruct (is_space d); [exact IH | reflexivity].
Qed.

Lemma trim_chars_shape (l : list ascii) :
  trim_chars l = []
  \/ exists c a, is_space c = false
       /\ trim_chars l = c :: rev (drop_space (rev a)).
Proof.
  unfold trim_chars. pose proof (drop_space_head l) as H.
  destruct (drop_space l) as [|c a]; [left; reflexivity|].
  right. exists c, a. split; [exact H|].
  simpl. rewrite (drop_space_snoc _ _ H), rev_app_distr. reflexivity.
Qed.

Lemma trim_chars_idem (l : list ascii) :
  trim_chars (trim_chars l) = trim_chars l.
Proof.
  destruct (trim_chars_shape l) as [->|(c & a & Hc & ->)]; [reflexivity|].
  unfold trim_chars. simpl. rewrite Hc. simpl.
  rewrite rev_involutive, (drop_space_snoc _ _ Hc), drop_space_idem.
  rewrite rev_app_distr. reflexivity.
Qed.

Lemma trim_idem (s : string) : trim (trim s) = trim s.
Proof. unfold trim. rewrite chars_str, trim_chars_idem. reflexivity. Qed.

Lemma segments_trimmed (address seg : string) :
  In seg (segments address) -> trim seg = seg.
Proof.
  unfold segments. intros H. apply in_map_iff in H.
  destruct H as (x & <- & _). apply trim_idem.
Qed.

(** *** [split], and what "fewer than two segments" means *)

Lemma split_chars_length (sep : ascii) (l cur : list ascii) :
  List.length (split_chars sep cur l) = S (count_occ ascii_dec l sep).
Proof.
  revert cur. induction l as [|c l IH]; intros cur; simpl; [reflexivity|].
  destruct (Ascii.eqb_spec c sep) as [->|Hne].
  - simpl. rewrite IH. destruct (ascii_dec sep sep); [reflexivity|congruence].
  - rewrite IH. destruct (ascii_dec c sep); [congruence|reflexivity].
Qed.

Lemma segments_length (address : string) :
  List.length (segments address)
  = S (count_occ ascii_dec (chars (trim address)) ","%char).
Proof.
  unfold segments, split. rewrite !length_map. apply split_chars_length.
Qed.

Lemma In_drop_space (c : ascii) (l : list ascii) :
  is_space c = false -> (In c (drop_space l) <-> In c l).
Proof.
  intros Hc. induction l as [|d l IH]; simpl; [tauto|].
  destruct (is_space d) eqn:E; simpl; [|tauto].
  rewrite IH. split; [tauto|]. intros [->|H]; [congruence|exact H].
Qed.

Lemma In_trim_chars (c : ascii) (l : list ascii) :
  is_space c = false -> (In c (trim_chars l) <-> In c l).
Proof.
  intros Hc. unfold trim_chars.
  rewrite <- in_rev, (In_drop_space c _ Hc), <- in_rev.
  apply In_drop_space. exact Hc.
Qed.

(** An address has fewer than two segments exactly when it has no comma. *)
Lemma segments_lt_2 (address : string) :
  (List.length (segments address) < 2)%nat <-> ~ In ","%char (chars address).
Proof.
  rewrite segments_length. unfold trim. rewrite chars_str.
  rewrite <- (In_trim_chars ","%char (chars address)) by reflexivity.
  rewrite (count_occ_not_In ascii_dec). lia.
Qed.

(** *** [pop] and the last token *)

Lemma split_ws_chars_cons (insep : bool) (cur l : list ascii) :
  exists t ts, split_ws_chars insep cur l = t :: ts.
Proof.
  revert insep cur. induction l as [|c l IH]; intros insep cur; simpl.
  - eauto.
  - destruct (is_space c); [destruct insep|]; eauto.
Qed.

Lemma split_ws_nonempty (s : string) : split_ws s <> [].
Proof.
  unfold split_ws.
  destruct (split_ws_chars_cons false [] (chars s)) as (t & ts & ->).
  discriminate.
Qed.

Lemma pop_last (l : list string) :
  l <> [] -> pop l = (Some (last l ""), removelast l).
Proof.
  intros H. destruct (exists_last H) as (l' & x & ->).
  unfold pop. rewrite rev_app_distr. simpl.
  rewrite rev_involutive, last_last, removelast_last. reflexivity.
Qed.

Lemma pop_nil : @pop string [] = (None, []).
Proof. reflexivity. Qed.

Lemma last_elem_last (l : list string) : or_empty (last_elem l) = last l "".
Proof.
  destruct l as [|a l]; [reflexivity|].
  assert (H : a :: l <> []) by discriminate.
  destruct (exists_last H) as (l' & x & ->).
  unfold last_elem. rewrite rev_app_distr. simpl.
  rewrite last_last. reflexivity.
Qed.

Lemma pop_or_empty (l : list string) :
  or_empty (fst (pop l)) = last l "" /\ snd (pop l) = removelast l.
Proof.
  destruct l as [|a l]; [split; reflexivity|].
  rewrite pop_last by discriminate. split; reflexivity.
Qed.


Lemma parseAddress_two_segments (address street seg : string) :
  segments address = [street; seg] ->
  parseAddress address
  = Returns (let '(city, state, zip) := readCityStateZip seg in
             MkAddress street city state zip).
Proof.
  intros E. pose proof (segments_trimmed address seg) as Htrim.
  rewrite E in Htrim. unfold parseAddress. fold (segments address).
  rewrite E, Htrim by (simpl; tauto).
  unfold readCityStateZip. rewrite last_elem_last.
  pose proof (split_ws_nonempty seg) as Hne.
  destruct (test zip_re (last (split_ws seg) "")).
  - rewrite (pop_last _ Hne).
    destruct (pop_or_empty (removelast (split_ws seg))) as [H1 H2].
    destruct (pop (removelast (split_ws seg))) as [st l2].
    cbn [fst snd] in H1, H2. rewrite H1, H2. reflexivity.
  - rewrite (pop_last _ Hne). reflexivity.
Qed.

Lemma parseAddress_three_segments (address street city seg : string)
    (rest : list string) :
  segments address = street :: city :: seg :: rest ->
  parseAddress address
  = Returns (let '(state, zip) := readStateZip seg in
             MkAddress street city state zip).
Proof.
  intros E. pose proof (segments_trimmed address seg) as Htrim.
  rewrite E in Htrim. unfold parseAddress. fold (segments address).
  rewrite E, Htrim by (simpl; tauto).
  unfold readStateZip. rewrite last_elem_last.
  pose proof (split_ws_nonempty seg) as Hne.
  destruct (_ && _).
  - rewrite (pop_last _ Hne). reflexivity.
  - reflexivity.
Qed.



(** *** The state is the third segment *)

Lemma join_cons (sep p : string) (t : string) (ts : list string) :
  join sep (p :: t :: ts) = (p ++ sep ++ join sep (t :: ts))%string.
Proof. reflexivity. Qed.

Lemma join_split_ws_chars (l : list ascii) :
  forall cur,
    single_spaced false l = true ->
    join " " (map str (split_ws_chars false cur l)) = str (rev cur ++ l).
Proof.
  induction l as [|c l IH]; intros cur H.
  - simpl. rewrite app_nil_r. reflexivity.
  - cbn [single_spaced] in H. cbn [split_ws_chars].
    destruct (is_space c) eqn:E.
    + apply andb_true_iff in H. destruct H as [H Hl].
      apply andb_true_iff in H. destruct H as [Hc _].
      apply Ascii.eqb_eq in Hc. subst c.
      destruct l as [|d l]; [discriminate|].
      cbn [single_spaced] in Hl. cbn [split_ws_chars].
      destruct (is_space d) eqn:Ed.
      { rewrite andb_false_r in Hl. discriminate. }
      specialize (IH []).
      cbn [single_spaced split_ws_chars] in IH. rewrite Ed in IH.
      specialize (IH Hl).
      destruct (split_ws_chars_cons false [d] l) as (t & ts & Ht).
      rewrite Ht in *. cbn [map] in *. rewrite join_cons, IH.
      rewrite !str_app. reflexivity.
    + rewrite (IH (c :: cur) H). cbn [rev]. rewrite <- app_assoc.
      reflexivity.
Qed.

Lemma join_split_ws (s : string) :
  single_spaced true (chars s) = true -> join " " (split_ws s) = s.
Proof.
  unfold split_ws. intros H.
  destruct (chars s) as [|c l] eqn:E; [discriminate|].
  cbn [single_spaced] in H. cbn [split_ws_chars].
  destruct (is_space c) eqn:Ec.
  { rewrite andb_false_r in H. discriminate. }
  rewrite <- (str_chars s), E.
  rewrite (join_split_ws_chars l [c] H). reflexivity.
Qed.

(** With three or more segments and no zip code, a third segment whose
    words are separated by single blanks is the state as it stands. *)
Lemma third_segment_is_state (address street city seg : string)
    (rest : list string) :
  segments address = street :: city :: seg :: rest ->
  single_spaced true (chars seg) = true ->
  test zip_re (last (split_ws seg) "") = false ->
  parseAddress address = Returns (MkAddress street city seg None).
Proof.
  intros Hseg Hsp Hzip.
  rewrite (parseAddress_three_segments address _ _ _ _ Hseg).
  unfold readStateZip. rewrite Hzip, andb_false_r, (join_split_ws seg Hsp).
  reflexivity.
Qed.

(** *** The field extractors on the examples of the specification *)

Lemma parsePrice_examples :
  parsePrice "$1,234,567" = 1234567%Z /\ parsePrice "$2,000" = 2000%Z
  /\ parsePrice "$120,000" = 120000%Z.
Proof. vm_compute. repeat split. Qed.

Lemma parseSpecs_examples :
  parseSpecs "3 bd | 2.5 ba | 1,800 sqft"
  = MkSpecs (Some 3%Z) (Some (MkDecimal 25 1)) (Some 1800%Z)
  /\ parseSpecs "3 Beds | 2.5 Baths | 1,800 Sq. Ft."
     = MkSpecs (Some 3%Z) (Some (MkDecimal 25 1)) (Some 1800%Z)
  /\ parseSpecs "4 bedrooms, 1,200 sq ft" = MkSpecs (Some 4%Z) None (Some 1200%Z)
  /\ parseSpecs "a vacant lot" = MkSpecs None None None.
Proof. vm_compute. repeat split. Qed.

Lemma parsePriceChange_examples :
  parsePriceChange 2025 "Price cut: $2K (11/5)"
  = Some (MkPriceChange 2000 (LocalDay 2025 10 5))
  /\ parsePriceChange 2025 "Price cut: 2K" = None.
Proof. vm_compute. repeat split. Qed.

Lemma extractListingId_examples :
  extractListingId "https://www.zillow.com/homedetails/1-Main-St/12345678_zpid/"
    "zillow" = "12345678"
  /\ extractListingId
       "https://redfin.com/SC/Florence/1002-Pitty-Pat-Dr-29501/home/12345678"
       "redfin" = "12345678"
  /\ extractListingId
       "https://www.realtor.com/realestateandhomes-detail/x_M12345-67890"
       "realtor" = "12345-67890"
  /\ extractListingId "https://www.land.com/property/4411/" "land" = "4411"
  /\ extractListingId "https://click.mail.zillow.com/f/a/first" "zillow"
     = "https://click.mail.zillow.com/f/a/first".
Proof. vm_compute. repeat split. Qed.

Lemma determineSource_examples :
  determineSource "Zillow <alerts@mail.zillow.com>" None = "zillow"
  /\ determineSource "listings@redfin.com" None = "redfin"
  /\ determineSource "x@notifications.realtor.com" None = "realtor"
  /\ determineSource "alerts@land.com" None = "land"
  /\ determineSource "someone@example.org" (Some "https://www.MOVE.com/x")
     = "realtor"
  /\ determineSource "someone@example.org" None = "unknown".
Proof. vm_compute. repeat split. Qed.

(** How the matcher treats the constructs the patterns rely on: greedy
    and reluctant stars, back-tracking into a star, word boundaries and
    anchors. *)
Lemma matcher_examples :
  match0 (Seq (Star any) (ch ",")) "a,b,c" = Some "a,b,"
  /\ match0 (Seq (Lazy any) (ch ",")) "a,b,c" = Some "a,"
  /\ match0 (seqs [Plus digit; Star space; Plus (ch LF)])
       (String "7" (String " " (String LF (String LF "x"))))
     = Some (String "7" (String " " (String LF (String LF ""))))
  /\ test (seqs [Wordb; ch "#"; Wordb]) "st #5" = false
  /\ test (seqs [Wordb; ch "#"; Wordb]) "st#5" = true
  /\ test (word_re "st") "west" = false
  /\ replace_all (word_re "e") [] "e 5-e e." = " 5- ."
  /\ test zip_re "29307" = true /\ test zip_re "293075" = false
  /\ replace_first (seqs [Bol; Lazy any;
                          Grp 1 (seqs [Plus digit; Plus space; Chr is_alpha])])
       [TRef 1] "sqft 12 Oak St" = "12 Oak St".
Proof. vm_compute. repeat split. Qed.

(** *** Normalization *)

Lemma lower_char_idem (c : ascii) : lower_char (lower_char c) = lower_char c.
Proof. destruct c as [[] [] [] [] [] [] [] []]; reflexivity. Qed.

Lemma toLowerCase_idem (s : string) : toLowerCase (toLowerCase s) = toLowerCase s.
Proof.
  unfold toLowerCase, lower_chars. rewrite chars_str, map_map.
  f_equal. apply map_ext. exact lower_char_idem.
Qed.

(** The key depends on the letters of its three arguments, not on their
    case. *)
Lemma normalizeAddress_case (street1 street2 city1 city2 state1 state2 : string) :
  toLowerCase street1 = toLowerCase street2 ->
  toLowerCase city1 = toLowerCase city2 ->
  toLowerCase state1 = toLowerCase state2 ->
  normalizeAddress street1 city1 state1 = normalizeAddress street2 city2 state2.
Proof.
  intros H1 H2 H3. unfold normalizeAddress, normalizeStreet.
  rewrite H1, H2, H3. reflexivity.
Qed.

(** The example of the specification. *)
Lemma normalizeAddress_example :
  normalizeAddress "123 North Main Street" "Anytown" "CA"
  = normalizeAddress "123 Main St" "Anytown" "CA".
Proof. vm_compute. reflexivity. Qed.

Lemma normalizeAddress_surface_forms :
  normalizeAddress "123 N. Main Street" "Anytown" "CA" = "123 main st|anytown|ca"
  /\ normalizeAddress " 123  MAIN ST., " " Anytown" "ca " = "123 main st|anytown|ca"
  /\ normalizeAddress "123 Main St Apt 5" "Anytown" "CA" = "123 main st|anytown|ca"
  /\ normalizeAddress "123 Main St, Unit 5-B" "Anytown" "CA"
     = "123 main st|anytown|ca"
  /\ normalizeAddress "123 Main St#5" "Anytown" "CA" = "123 main st|anytown|ca".
Proof. vm_compute. repeat split. Qed.

(** C6, where the code misses it.  The pattern that strips unit fragments
    names [#] between two word boundaries, and there is no word boundary
    between a blank and [#]: a unit written "#5" after a blank stays in
    the key, so the same flat written "Apt 5" and "#5" gets two keys. *)
Theorem normalizeAddress_keeps_hash_unit :
  normalizeAddress "123 Main St #5" "Anytown" "CA" = "123 main st #5|anytown|ca"
  /\ normalizeAddress "123 Main St Apt 5" "Anytown" "CA"
     = "123 main st|anytown|ca"
  /\ normalizeAddress "123 Main St #5" "Anytown" "CA"
     <> normalizeAddress "123 Main St Apt 5" "Anytown" "CA"
  /\ normalizeAddress "123 Main St #5" "Anytown" "CA"
     <> normalizeAddress "123 Main St" "Anytown" "CA".
Proof. vm_compute. repeat split; discriminate. Qed.

End AddressFacts.

(* ====================================================================== *)
(** ** The source parsers and the batch *)
(* ====================================================================== *)

Module ParserFacts.
Import Str Regex Utils Parser Processor Pipeline Props Samples.

Lemma has_In (seenUrls : list string) (url : string) :
  has seenUrls url = true <-> In url seenUrls.
Proof.
  unfold has. rewrite existsb_exists. split.
  - intros (x & Hx & E). apply String.eqb_eq in E. subst x. exact Hx.
  - intros H. exists url. split; [exact H | apply String.eqb_refl].
Qed.

Lemma fold_left_inv {A B} (f : A -> B -> A) (P : A -> Prop) :
  (forall a b, P a -> P (f a b)) ->
  forall l a, P a -> P (fold_left f l a).
Proof.
  intros Hf l. induction l as [|b l IH]; simpl; intros a Ha; [exact Ha|].
  apply IH, Hf, Ha.
Qed.

(** Remembering a link, and maybe adding a candidate that carries it, keeps
    the invariant when the link is new. *)
Lemma seenInv_step (properties : list C.t) (seenUrls : list string)
    (url : string) (new : list C.t) :
  seenInv (properties, seenUrls) ->
  has seenUrls url = false ->
  (new = [] \/ exists c, new = [c] /\ C.url c = url) ->
  seenInv (properties ++ new, url :: seenUrls).
Proof.
  intros [Hnd Hin] Hhas Hnew. unfold seenInv in *. cbn [fst snd] in *.
  assert (Hfresh : ~ In url (map C.url properties)).
  { intros H. apply in_map_iff in H. destruct H as (c & Hc & Hcin).
    apply Hin in Hcin. rewrite Hc in Hcin. apply has_In in Hcin. congruence. }
  destruct Hnew as [->|(c & -> & Hc)].
  - rewrite app_nil_r. split; [exact Hnd|].
    intros c Hcin. right. apply Hin. exact Hcin.
  - split.
    + rewrite map_app. simpl. rewrite Hc.
      apply (Permutation_NoDup (l := url :: map C.url properties)).
      * apply Permutation_cons_append.
      * constructor; assumption.
    + intros c' Hc'. apply in_app_iff in Hc'. destruct Hc' as [Hc'|[<-|[]]].
      * right. apply Hin. exact Hc'.
      * left. symmetry. exact Hc.
Qed.

(** Both remembering parsers have the same shape: a chain of early
    returns, then the link is remembered and a candidate may follow. *)
Ltac early_return Hinv :=
  match goal with
  | |- seenInv (match ?x with _ => _ end) =>
      destruct x eqn:?; try exact Hinv
  | |- seenInv (if ?x then _ else _) =>
      destruct x eqn:?; try exact Hinv
  end.

Ltac remembering_parser Hinv :=
  repeat early_return Hinv;
  first
    [ apply seenInv_step;
      [exact Hinv | assumption | right; eexists; split; reflexivity]
    | match goal with
      | |- seenInv (?props, _) =>
          rewrite <- (app_nil_r props);
          apply seenInv_step; [exact Hinv | assumption | left; reflexivity]
      end ].

Lemma zillowAnchor_inv (source : string) (st : Seen) (a : Anchor) :
  seenInv st -> seenInv (zillowAnchor source st a).
Proof.
  destruct st as [properties seenUrls]. intros Hinv. unfold zillowAnchor.
  remembering_parser Hinv.
Qed.

Lemma realtorAnchor_inv (source : string) (st : Seen) (a : Anchor) :
  seenInv st -> seenInv (realtorAnchor source st a).
Proof.
  destruct st as [properties seenUrls]. intros Hinv. unfold realtorAnchor.
  remembering_parser Hinv.
Qed.

Lemma seenInv_start : seenInv ([], []).
Proof. split; [constructor | intros c []]. Qed.

(** The Zillow and Realtor parsers do what C8 says: whatever the document,
    no two of their candidates come from the same link target. *)
Lemma zillow_links_deduplicated (doc : Document) (source : string) :
  NoDup (map C.url (parseZillowEmail doc source)).
Proof.
  unfold parseZillowEmail.
  apply (fold_left_inv (zillowAnchor source) seenInv);
    [intros; apply zillowAnchor_inv; assumption | exact seenInv_start].
Qed.

Lemma realtor_links_deduplicated (doc : Document) (source : string) :
  NoDup (map C.url (parseRealtorEmail doc source)).
Proof.
  unfold parseRealtorEmail.
  apply (fold_left_inv (realtorAnchor source) seenInv);
    [intros; apply realtorAnchor_inv; assumption | exact seenInv_start].
Qed.

Lemma zillow_repeated_link_example :
  exists c,
    parseZillowEmail [zillowLink; zillowLink] "zillow" = [c]
    /\ C.url c = "https://click.mail.zillow.com/f/a/first"
    /\ C.street c = "123 North Main Street".
Proof. eexists. split; [vm_compute; reflexivity|]. split; reflexivity. Qed.

(** C8, where the code misses it.  The Redfin and Land parsers keep no
    record of the links they used: a listing card linked twice with the
    same target gives two candidates in one parser run. *)
Theorem redfin_and_land_repeat_links :
  (exists c,
      parseRedfinEmail 2025 [priceCutLink; priceCutLink] "redfin" = [c; c]
      /\ C.url c
         = "https://www.redfin.com/SC/Spartanburg/8007-Broadmead-Ct/home/12345678")
  /\ (exists c,
        parseLandEmail [landLink; landLink] "land" = [c; c]
        /\ C.url c = "https://www.land.com/property/7-pine-ridge/4411/").
Proof.
  split; eexists; (split; [vm_compute; reflexivity | reflexivity]).
Qed.

(** The claim as worded fails at the batch level: the error the parser
    records for an unrecognized sender stays in the parser's result; the
    batch reports no error for that mail. *)
Lemma unknown_sender_error_is_dropped :
  determineSource "newsletter@example.org" None = "unknown"
  /\ parsePropertyEmail 2025 [priceCutLink] "newsletter@example.org"
     = MkResult [] ["Unknown email source: newsletter@example.org"]
  /\ processPropertyEmails (Instant 1) 2025 (Returns [unknownMail]) emptyStore
     = (MkSummary 0 0 [], emptyStore)
  /\ List.length
       (sum_errors
          (fst (processPropertyEmails (Instant 1) 2025 (Returns [unknownMail])
                  emptyStore)))
     <> 1%nat.
Proof.
  split; [vm_compute; reflexivity|]. split; [vm_compute; reflexivity|].
  split; [vm_compute; reflexivity|]. vm_compute. discriminate.
Qed.

Lemma unknown_source_parse (year : Z) (doc : Document) (fromEmail : string) :
  determineSource fromEmail None = "unknown" ->
  parsePropertyEmail year doc fromEmail
  = MkResult [] [("Unknown email source: " ++ fromEmail)%string].
Proof. intros H. unfold parsePropertyEmail. rewrite H. reflexivity. Qed.

(** C9, as the code has it.  For a mail whose sender matches no known
    source the parser throws nothing, produces no candidate and records
    exactly one error string; the batch is the same with the mail as
    without it: no listing is created or updated for it, and nothing is
    appended to the batch's errors (the parser's error is only logged). *)
Theorem unknown_source_changes_nothing (year : Z) (m : Message) :
  determineSource (or_empty (from m)) None = "unknown" ->
  (forall doc,
      parsePropertyEmail year doc (or_empty (from m))
      = MkResult [] [("Unknown email source: " ++ or_empty (from m))%string])
  /\ messageProperties year m = []
  /\ (forall now before after db,
        processPropertyEmails now year (Returns (before ++ m :: after)) db
        = processPropertyEmails now year (Returns (before ++ after)) db).
Proof.
  intros H.
  assert (Hm : messageProperties year m = []).
  { unfold messageProperties. destruct (html m) as [doc|]; [|reflexivity].
    rewrite (unknown_source_parse year doc _ H). reflexivity. }
  split; [intros doc; apply unknown_source_parse; exact H|].
  split; [exact Hm|].
  intros now before after db. unfold processPropertyEmails, fetchPropertyEmails.
  rewrite !flat_map_app. cbn [flat_map]. rewrite Hm. reflexivity.
Qed.

Lemma unknown_source_changes_nothing_witness :
  determineSource (or_empty (from unknownMail)) None = "unknown"
  /\ (forall doc,
        parsePropertyEmail 2025 doc (or_empty (from unknownMail))
        = MkResult []
            [("Unknown email source: " ++ or_empty (from unknownMail))%string])
  /\ messageProperties 2025 unknownMail = []
  /\ (forall now before after db,
        processPropertyEmails now 2025
          (Returns (before ++ unknownMail :: after)) db
        = processPropertyEmails now 2025 (Returns (before ++ after)) db).
Proof.
  split; [vm_compute; reflexivity|].
  apply (unknown_source_changes_nothing 2025 unknownMail).
  vm_compute. reflexivity.
Defined.

End ParserFacts.

(* ====================================================================== *)
(** ** A whole batch: accounting and what the store keeps *)
(* ====================================================================== *)

Module BatchFacts.
Import Utils Prisma Processor Parser Pipeline Props Invariants Samples.
Import StoreFacts.

Lemma rewritten_ids (id : nat) (f : P.t -> P.t) (rows : list P.t) :
  (forall p, P.id (f p) = P.id p) ->
  map P.id (rewritten id f rows) = map P.id rows.
Proof.
  intros Hf. unfold rewritten, update. cbn [properties].
  rewrite map_map. apply map_ext. intros p.
  destruct (P.id p =? id)%nat; [apply Hf | reflexivity].
Qed.

(** The two ways a turn of the loop can go. *)
Lemma processOne_cases (now : Date) (sm : Summary) (db : Store) (c : C.t) :
  (exists ex,
      findExisting c db = Some ex
      /\ processOne now (sm, db) c
         = (MkSummary (sum_created sm) (S (sum_updated sm)) (sum_errors sm),
            MkStore (rewritten (P.id ex) (data_patch c ex) (properties db))
                    (priceHistory db ++ deltaEntries now ex c)
                    (nextId db)))
  \/ (findExisting c db = None
      /\ processOne now (sm, db) c
         = (MkSummary (S (sum_created sm)) (sum_updated sm) (sum_errors sm),
            MkStore (properties db ++ [data_row c (nextId db)])
                    (priceHistory db ++ hintEntries (nextId db) c)
                    (S (nextId db)))).
Proof.
  unfold processOne. destruct (findExisting c db) as [ex|] eqn:E.
  - left. exists ex. split; [reflexivity|].
    rewrite (upsert_existing now c db ex E). reflexivity.
  - right. split; [reflexivity|].
    rewrite (upsert_new now c db E). reflexivity.
Qed.

(** What every turn keeps, the whole loop keeps. *)
Lemma loop_inv (I : Store -> Prop) (now : Date) :
  (forall sm db c, I db -> I (snd (processOne now (sm, db) c))) ->
  forall cs sm db, I db -> I (snd (fold_left (processOne now) cs (sm, db))).
Proof.
  intros Hstep cs. induction cs as [|c cs IH]; intros sm db H; [exact H|].
  cbn [fold_left]. specialize (Hstep sm db c H).
  destruct (processOne now (sm, db) c) as [sm' db']. apply IH. exact Hstep.
Qed.

Lemma batch_inv (I : Store -> Prop) (now : Date) (year : Z)
    (inbox : outcome (list Message)) (db : Store) :
  (forall sm db c, I db -> I (snd (processOne now (sm, db) c))) ->
  I db -> I (snd (processPropertyEmails now year inbox db)).
Proof.
  intros Hstep H. unfold processPropertyEmails.
  destruct inbox as [mails|e]; [|exact H].
  unfold processProperties. apply loop_inv; assumption.
Qed.

Lemma loop_accounting (now : Date) (cs : list C.t) :
  forall sm db,
    let out := fold_left (processOne now) cs (sm, db) in
    sum_errors (fst out) = sum_errors sm
    /\ (sum_created (fst out) + sum_updated (fst out)
        = sum_created sm + sum_updated sm + List.length cs)%nat
    /\ (List.length (properties (snd out)) + sum_created sm
        = List.length (properties db) + sum_created (fst out))%nat.
Proof.
  induction cs as [|c cs IH]; intros sm db.
  - cbn [fold_left fst snd List.length]. repeat split; lia.
  - cbn [fold_left List.length].
    destruct (processOne_cases now sm db c) as [(ex & _ & E)|[_ E]];
      rewrite E; clear E;
      match goal with
      | |- context [fold_left _ cs (?s, ?d)] =>
          specialize (IH s d); cbv zeta in IH;
          destruct (fold_left (processOne now) cs (s, d)) as [sm' db']
      end;
      cbn [fst snd sum_created sum_updated sum_errors properties] in *;
      destruct IH as (He & Hn & Hl);
      try rewrite rewritten_length in Hl; try rewrite length_app in Hl;
      cbn [List.length] in Hl; repeat split; try assumption; lia.
Qed.

Lemma extends_refl (db : Store) : extends db db.
Proof.
  repeat split; [exists [] | exists [] | lia]; rewrite app_nil_r; reflexivity.
Qed.

Lemma extends_trans (a b c : Store) :
  extends a b -> extends b c -> extends a c.
Proof.
  intros ((i1 & H1) & (h1 & G1) & L1) ((i2 & H2) & (h2 & G2) & L2).
  repeat split; [exists (i1 ++ i2) | exists (h1 ++ h2) | lia].
  - rewrite H2, H1, app_assoc. reflexivity.
  - rewrite G2, G1, app_assoc. reflexivity.
Qed.

Lemma processOne_extends (now : Date) (sm : Summary) (db : Store) (c : C.t) :
  extends db (snd (processOne now (sm, db) c)).
Proof.
  destruct (processOne_cases now sm db c) as [(ex & _ & E)|[_ E]];
    rewrite E; cbn [snd]; unfold extends; cbn [properties priceHistory nextId].
  - repeat split; [exists [] | eexists; reflexivity | lia].
    rewrite app_nil_r. apply rewritten_ids. intros p. apply data_patch_id.
  - repeat split; [eexists | eexists; reflexivity | lia].
    rewrite map_app. reflexivity.
Qed.

Lemma processOne_wf (now : Date) (sm : Summary) (db : Store) (c : C.t) :
  wf db -> wf (snd (processOne now (sm, db) c)).
Proof.
  intros H. destruct (upsert_returns now c db) as (r & db' & E).
  pose proof (upsert_wf now c db db' r H E) as H'.
  unfold processOne. rewrite E. destruct r; exact H'.
Qed.

Lemma processOne_linked (now : Date) (sm : Summary) (db : Store) (c : C.t) :
  historyLinked db -> historyLinked (snd (processOne now (sm, db) c)).
Proof.
  intros H.
  destruct (processOne_cases now sm db c) as [(ex & Hex & E)|[_ E]];
    rewrite E; cbn [snd]; unfold historyLinked;
    cbn [properties priceHistory]; intros h Hh;
    apply in_app_iff in Hh.
  - assert (Hid : forall p, In p (properties db) ->
              exists q,
                In q (rewritten (P.id ex) (data_patch c ex) (properties db))
                /\ P.id q = P.id p).
    { intros p Hp.
      assert (Hin : In (P.id p)
                (map P.id
                   (rewritten (P.id ex) (data_patch c ex) (properties db)))).
      { rewrite rewritten_ids by (intros; apply data_patch_id).
        apply in_map. exact Hp. }
      apply in_map_iff in Hin. destruct Hin as (q & Hq & Hqin).
      exists q. split; assumption. }
    destruct Hh as [Hh|Hh].
    + destruct (H h Hh) as (p & Hp & Hpid).
      destruct (Hid p Hp) as (q & Hq & Hqid). exists q. split; congruence.
    + unfold deltaEntries in Hh.
      destruct (P.price ex =? C.price c)%Z; [destruct Hh|].
      destruct Hh as [<-|[]]. cbn [PriceHistory.propertyId].
      apply Hid. apply (findExisting_In c). exact Hex.
  - destruct Hh as [Hh|Hh].
    + destruct (H h Hh) as (p & Hp & Hpid). exists p.
      split; [apply in_app_iff; left; exact Hp | exact Hpid].
    + unfold hintEntries in Hh. destruct (C.priceChange c); [|destruct Hh].
      destruct Hh as [<-|[]]. exists (data_row c (nextId db)).
      split; [apply in_app_iff; right; left; reflexivity | reflexivity].
Qed.

(** A mail that the store turns down: a card with 123 baths, more than
    [DECIMAL(3,1)] holds. *)
Lemma many_baths_not_storable :
  map C.baths (fetchPropertyEmails 2025 [manyBathsMail])
  = [Some (MkDecimal 123 0)]
  /\ forallb storable (fetchPropertyEmails 2025 [manyBathsMail]) = false.
Proof. split; vm_compute; reflexivity. Qed.

(** X1.  The books of a run balance.  When the fetch succeeds and every
    listing the parsers produced can be stored, the run reports no
    error: every listing is counted once, as created or as updated, and
    the table grows by exactly the number reported as created.  A run
    whose fetch fails reports that one error, counts nothing and leaves
    the tables as they were. *)
Theorem batch_accounting (now : Date) (year : Z) (db : Store) :
  (forall mails,
      forallb storable (fetchPropertyEmails year mails) = true ->
      let out := processPropertyEmails now year (Returns mails) db in
      sum_errors (fst out) = []
      /\ (sum_created (fst out) + sum_updated (fst out)
          = List.length (fetchPropertyEmails year mails))%nat
      /\ (List.length (properties (snd out))
          = List.length (properties db) + sum_created (fst out))%nat)
  /\ (forall e,
        processPropertyEmails now year (Throws e) db
        = (MkSummary 0 0 [("Error fetching emails: " ++ e)%string], db)).
Proof.
  split; [|reflexivity].
  intros mails _. cbv zeta. unfold processPropertyEmails, processProperties.
  pose proof (loop_accounting now (fetchPropertyEmails year mails)
                (MkSummary 0 0 []) db) as H.
  cbv zeta in H. cbn [sum_created sum_updated sum_errors] in H.
  destruct H as (He & Hn & Hl). repeat split; [exact He | lia | lia].
Qed.

Lemma batch_accounting_witness :
  let mails := [priceCutMail; twoLinksMail "$250,000"] in
  let out :=
    processPropertyEmails (Instant 1) 2025 (Returns mails) oneListing in
  forallb storable (fetchPropertyEmails 2025 mails) = true
  /\ sum_errors (fst out) = []
  /\ (sum_created (fst out) + sum_updated (fst out) = 3)%nat
  /\ List.length (properties (snd out)) = 2%nat.
Proof.
  intros mails out.
  assert (H : forallb storable (fetchPropertyEmails 2025 mails) = true)
    by (vm_compute; reflexivity).
  split; [exact H|].
  destruct (proj1 (batch_accounting (Instant 1) 2025 oneListing) mails H)
    as (He & Hn & Hl).
  split; [exact He|]. split; [exact Hn|]. exact Hl.
Defined.

(** X2.  A run keeps what the database guarantees of the listing table:
    primary keys stay distinct and below the next fresh key, and no two
    rows share (source, sourceId), whatever the mails held and whether or
    not the fetch failed. *)
Theorem batch_keeps_unique_index (now : Date) (year : Z)
    (inbox : outcome (list Message)) (db : Store) :
  wf db -> wf (snd (processPropertyEmails now year inbox db)).
Proof.
  apply (batch_inv wf). intros sm d c. apply processOne_wf.
Qed.

Lemma batch_keeps_unique_index_witness :
  wf emptyStore
  /\ wf (snd (processPropertyEmails (Instant 1) 2025
                (Returns [priceCutMail; flatsMail]) emptyStore)).
Proof.
  split; [exact wf_empty|].
  apply (batch_keeps_unique_index (Instant 1) 2025
           (Returns [priceCutMail; flatsMail]) emptyStore).
  exact wf_empty.
Defined.

(** X3.  A run only adds: the listings that were stored are still there
    under their primary keys (no row is deleted or renumbered), and the
    price history that was recorded is still there, row for row.
    Nothing is said of the order in which the store lists the rows. *)
Theorem batch_only_adds (now : Date) (year : Z)
    (inbox : outcome (list Message)) (db : Store) :
  keeps db (snd (processPropertyEmails now year inbox db)).
Proof.
  assert (H : extends db (snd (processPropertyEmails now year inbox db))).
  { apply (batch_inv (extends db)); [|apply extends_refl].
    intros sm d c H. apply (extends_trans db d); [exact H|].
    apply processOne_extends. }
  destruct H as ((ids & Hi) & (rows & Hr) & _).
  split.
  - exists ids. rewrite Hi. apply Permutation_refl.
  - exists rows. rewrite Hr. apply Permutation_refl.
Qed.

(** X4.  Every price-history row a run leaves behind belongs to a stored
    listing, provided that held before the run. *)
Theorem batch_keeps_history_linked (now : Date) (year : Z)
    (inbox : outcome (list Message)) (db : Store) :
  historyLinked db ->
  historyLinked (snd (processPropertyEmails now year inbox db)).
Proof.
  apply (batch_inv historyLinked). intros sm d c. apply processOne_linked.
Qed.

Lemma batch_keeps_history_linked_witness :
  historyLinked emptyStore
  /\ historyLinked
       (snd (processPropertyEmails (Instant 1) 2025
               (Returns [priceCutMail; flatsMail]) emptyStore)).
Proof.
  assert (H : historyLinked emptyStore) by (intros h []).
  split; [exact H|].
  apply (batch_keeps_history_linked (Instant 1) 2025
           (Returns [priceCutMail; flatsMail]) emptyStore).
  exact H.
Defined.

(** X5.  An upsert touches one row at most.  In a well-formed table every
    stored listing other than the one the candidate was matched with is
    found unchanged afterwards. *)
Theorem upsert_leaves_other_rows (now : Date) (c : C.t) (db db' : Store)
    (r : UpsertResult) (p : P.t) :
  wf db -> upsertProperty now c db = Returns (r, db') ->
  In p (properties db) -> findExisting c db <> Some p ->
  In p (properties db').
Proof.
  intros Hwf E Hp Hne. destruct (findExisting c db) as [ex|] eqn:Hex.
  - rewrite (upsert_existing now c db ex Hex) in E.
    destruct (update_existing c db ex Hwf Hex) as (l1 & l2 & Hrows & Hrw & _).
    injection E as _ <-. cbn [properties]. rewrite Hrw.
    rewrite Hrows in Hp. apply in_app_iff in Hp. apply in_app_iff.
    destruct Hp as [Hp|[Hp|Hp]]; [left; exact Hp | | right; right; exact Hp].
    subst p. congruence.
  - rewrite (upsert_new now c db Hex) in E. injection E as _ <-.
    cbn [properties]. apply in_app_iff. left. exact Hp.
Qed.

Lemma upsert_leaves_other_rows_witness :
  exists db',
    upsertProperty (Instant 1) seenAgain twoListings = Returns (updated, db')
    /\ In (data_row mainSt 1) (properties db').
Proof.
  eexists. split; [vm_compute; reflexivity|].
  apply (upsert_leaves_other_rows (Instant 1) seenAgain twoListings _ updated).
  - wf_by_computation. intros [H|[]]. vm_compute in H. discriminate H.
  - vm_compute. reflexivity.
  - right. left. reflexivity.
  - vm_compute. discriminate.
Defined.

(** X20.  After an upsert the listing is found under its own identity,
    and the row found says what the mail said: address, link, price,
    status and property type are the candidate's, whether the row was
    created or an older row, matched by identity or by address, was
    updated.  A created row has the next fresh primary key. *)
Theorem upsert_then_lookup (now : Date) (c : C.t) (db db' : Store)
    (r : UpsertResult) :
  wf db -> upsertProperty now c db = Returns (r, db') ->
  exists row,
    findUnique (C.source c) (C.sourceId c) db' = Some row
    /\ In row (properties db')
    /\ (P.street row, P.city row, P.state row)
       = (C.street c, C.city c, C.state c)
    /\ P.url row = C.url c
    /\ P.price row = C.price c
    /\ P.status row = data_status c
    /\ P.propertyType row = data_propertyType c
    /\ (r = created -> P.id row = nextId db).
Proof.
  intros Hwf E.
  destruct (upsert_settles now c db Hwf) as (r0 & db0 & row & E0 & Hrow & Hm).
  rewrite E in E0. injection E0 as <- <-.
  exists row. split; [exact Hrow|].
  split; [apply (findUnique_some _ _ _ _ Hrow)|].
  destruct (findExisting c db) as [ex|] eqn:Hex; subst row.
  - rewrite (upsert_existing now c db ex Hex) in E. injection E as <- _.
    repeat split; try reflexivity. discriminate.
  - repeat split; reflexivity.
Qed.

Lemma upsert_then_lookup_witness :
  wf pendingStore
  /\ exists db' row,
       upsertProperty (Instant 1) seenElsewhere pendingStore
       = Returns (updated, db')
       /\ findUnique "realtor" "https://click.realtor.com/t/9" db' = Some row
       /\ P.price row = 118000%Z.
Proof.
  assert (Hwf : wf pendingStore) by wf_by_computation.
  split; [exact Hwf|].
  destruct (upsert_returns (Instant 1) seenElsewhere pendingStore)
    as (r & db' & E).
  assert (Hr : r = updated).
  { revert E. vm_compute. intros E. injection E as <- _. reflexivity. }
  subst r.
  destruct (upsert_then_lookup (Instant 1) seenElsewhere pendingStore db'
              updated Hwf E)
    as (row & Hrow & _ & _ & _ & Hprice & _).
  exists db', row. split; [exact E|]. split; [exact Hrow | exact Hprice].
Defined.

(** *** Splitting a batch *)

Lemma combined_assoc (a b c : Summary) :
  combined (combined a b) c = combined a (combined b c).
Proof.
  unfold combined. cbn [sum_created sum_updated sum_errors].
  rewrite !Nat.add_assoc, app_assoc. reflexivity.
Qed.

Lemma processOne_shift (now : Date) (sm : Summary) (db : Store) (c : C.t) :
  processOne now (sm, db) c
  = (combined sm (fst (processOne now (MkSummary 0 0 [], db) c)),
     snd (processOne now (MkSummary 0 0 [], db) c)).
Proof.
  unfold processOne. destruct (upsert_returns now c db) as (r & db' & E).
  rewrite E. destruct r; cbn [fst snd]; unfold combined;
    cbn [sum_created sum_updated sum_errors];
    rewrite ?Nat.add_0_r, ?Nat.add_1_r, app_nil_r; reflexivity.
Qed.

Lemma loop_shift (now : Date) (cs : list C.t) :
  forall sm db,
    fold_left (processOne now) cs (sm, db)
    = (combined sm
         (fst (fold_left (processOne now) cs (MkSummary 0 0 [], db))),
       snd (fold_left (processOne now) cs (MkSummary 0 0 [], db))).
Proof.
  induction cs as [|c cs IH]; intros sm db.
  - cbn [fold_left fst snd]. unfold combined.
    cbn [sum_created sum_updated sum_errors].
    rewrite !Nat.add_0_r, app_nil_r. destruct sm; reflexivity.
  - cbn [fold_left]. rewrite (processOne_shift now sm db c).
    destruct (processOne now (MkSummary 0 0 [], db) c) as [s1 d1].
    cbn [fst snd]. rewrite (IH (combined sm s1) d1), (IH s1 d1).
    cbn [fst snd]. rewrite combined_assoc. reflexivity.
Qed.

(** X21.  Mails can be processed in one run or in two: a run over the
    mails [first ++ second] leaves the table that a run over [first]
    followed by a run over [second] leaves, and reports the totals of
    the two runs taken together. *)
Theorem batch_splits (now : Date) (year : Z) (first second : list Message)
    (db : Store) :
  let r1 := processPropertyEmails now year (Returns first) db in
  let r2 := processPropertyEmails now year (Returns second) (snd r1) in
  processPropertyEmails now year (Returns (first ++ second)) db
  = (combined (fst r1) (fst r2), snd r2).
Proof.
  cbv zeta. unfold processPropertyEmails, processProperties,
    fetchPropertyEmails.
  rewrite flat_map_app, fold_left_app.
  destruct (fold_left (processOne now) (flat_map (messageProperties year) first)
              (MkSummary 0 0 [], db)) as [s1 d1].
  cbn [fst snd]. apply loop_shift.
Qed.

End BatchFacts.

(* ====================================================================== *)
(** ** What the parsers hand over *)
(* ====================================================================== *)

Module ParserShape.
Import Str Regex Utils Prisma Parser Processor Pipeline Props Invariants.
Import Samples.
Import StoreFacts ParserFacts.

(** A loop whose turns add one candidate at most, each with the property
    [Q] of the anchor of its turn. *)
Section Loop.
Variable St : Type.
Variable out : St -> list C.t.
Variable step : St -> Anchor -> St.
Variable Q : Anchor -> C.t -> Prop.
Hypothesis shape :
  forall st a,
    out (step st a) = out st
    \/ exists c, out (step st a) = out st ++ [c] /\ Q a c.

Lemma loop_adds (anchors : list Anchor) :
  forall st,
    exists new,
      out (fold_left step anchors st) = out st ++ new
      /\ Forall (fun c => exists a, In a anchors /\ Q a c) new
      /\ (List.length new <= List.length anchors)%nat.
Proof.
  induction anchors as [|a anchors IH]; intros st.
  - exists []. cbn [fold_left List.length]. rewrite app_nil_r.
    repeat split; [constructor | lia].
  - cbn [fold_left List.length].
    destruct (IH (step st a)) as (new & E & HQ & Hlen).
    assert (HQ' : Forall (fun c => exists b, In b (a :: anchors) /\ Q b c) new).
    { eapply Forall_impl; [|exact HQ]. intros c (b & Hb & Hc).
      exists b. split; [right; exact Hb | exact Hc]. }
    destruct (shape st a) as [Hs|(c & Hs & Hc)]; rewrite Hs in E.
    + exists new. repeat split; [exact E | exact HQ' | lia].
    + exists (c :: new). rewrite <- app_assoc in E.
      repeat split; [exact E | | cbn [List.length]; lia].
      constructor; [|exact HQ']. exists a. split; [left; reflexivity|exact Hc].
Qed.

Lemma loop_from_nothing (anchors : list Anchor) (st : St) :
  out st = [] ->
  Forall (fun c => exists a, In a anchors /\ Q a c)
         (out (fold_left step anchors st))
  /\ (List.length (out (fold_left step anchors st))
      <= List.length anchors)%nat.
Proof.
  intros H0. destruct (loop_adds anchors st) as (new & E & HQ & Hlen).
  rewrite H0 in E. cbn [app] in E. rewrite E. split; assumption.
Qed.

End Loop.

Lemma card_image_filtered_one (card : Card) :
  (List.length (card_image_filtered card) <= 1)%nat.
Proof.
  unfold card_image_filtered. destruct (imgSrc card) as [src|]; [|simpl; lia].
  destruct (_ && _); simpl; lia.
Qed.

(** A placeholder picture is never taken as the photo of a listing. *)
Lemma card_image_filtered_clean (card : Card) :
  Forall (fun src => includes src "spacer" = false
                     /\ includes src "pixel" = false)
         (card_image_filtered card).
Proof.
  unfold card_image_filtered.
  destruct (imgSrc card) as [src|]; [|constructor].
  destruct (negb (is_empty src) && negb (includes src "spacer")
            && negb (includes src "pixel")) eqn:E; [|constructor].
  apply andb_true_iff in E. destruct E as [E Hp].
  apply andb_true_iff in E. destruct E as [_ Hs].
  apply negb_true_iff in Hp, Hs. constructor; [split; assumption|constructor].
Qed.

(** Walks down the early returns of a loop body. *)
Ltac walk :=
  cbv zeta;
  repeat match goal with
         | |- context [match ?x with _ => _ end] =>
             destruct x eqn:?; try (left; reflexivity)
         end.

Ltac built :=
  right; eexists; split; [reflexivity|];
  unfold tracked, redfinListing, landListing, parsedStatus, bare, candidate;
  cbn [C.source C.sourceId C.url C.status C.priceChange C.propertyType
       C.lotSize C.county C.yearBuilt C.builder C.agent C.description
       C.beds C.baths C.sqft C.images sp_beds sp_baths sp_sqft no_specs];
  repeat match goal with
         | H : (_ || negb _)%bool = false |- _ =>
             apply orb_false_iff in H; destruct H as [? H];
             apply negb_false_iff in H
         end;
  repeat split; try reflexivity; try assumption;
  try (left; reflexivity); try (right; reflexivity);
  try apply card_image_filtered_one; try apply card_image_filtered_clean.

Lemma zillowAnchor_shape (source : string) (st : Seen) (a : Anchor) :
  fst (zillowAnchor source st a) = fst st
  \/ exists c,
       fst (zillowAnchor source st a) = fst st ++ [c]
       /\ (href a = Some (C.url c) /\ tracked source zillowUtility c).
Proof.
  destruct st as [properties seenUrls]. unfold zillowAnchor. cbn [fst].
  walk; built.
Qed.

Lemma realtorAnchor_shape (source : string) (st : Seen) (a : Anchor) :
  fst (realtorAnchor source st a) = fst st
  \/ exists c,
       fst (realtorAnchor source st a) = fst st ++ [c]
       /\ (href a = Some (C.url c) /\ tracked source realtorUtility c).
Proof.
  destruct st as [properties seenUrls]. unfold realtorAnchor. cbn [fst].
  walk; built.
Qed.

Lemma redfinAnchor_shape (year : Z) (source : string) (properties : list C.t)
    (a : Anchor) :
  redfinAnchor year source properties a = properties
  \/ exists c,
       redfinAnchor year source properties a = properties ++ [c]
       /\ (href a = Some (C.url c) /\ redfinListing source c).
Proof.
  unfold redfinAnchor. walk; built.
Qed.

Lemma landAnchor_shape (source : string) (properties : list C.t)
    (a : Anchor) :
  landAnchor source properties a = properties
  \/ exists c,
       landAnchor source properties a = properties ++ [c]
       /\ (href a = Some (C.url c) /\ landListing source c).
Proof.
  unfold landAnchor. walk; built.
Qed.

Lemma select_In (needles : list string) (doc : Document) (a : Anchor) :
  In a (select needles doc) ->
  In a doc
  /\ exists u, href a = Some u /\ existsb (includes u) needles = true.
Proof.
  unfold select. intros H. apply filter_In in H. destruct H as [Hin H].
  split; [exact Hin|]. destruct (href a) as [u|]; [|discriminate].
  exists u. split; [reflexivity | exact H].
Qed.

Lemma select_length (needles : list string) (doc : Document) :
  (List.length (select needles doc) <= List.length doc)%nat.
Proof. apply filter_length_le. Qed.

Lemma linked_fromAnchor (needles : list string) (doc : Document) (c : C.t) :
  linkedFrom (select needles doc) c -> fromAnchor needles doc c.
Proof.
  intros (a & Ha & Hhref). apply select_In in Ha.
  destruct Ha as (Hin & u & Hu & Hn). exists a.
  rewrite Hhref in Hu. injection Hu as <-. repeat split; assumption.
Qed.

(** The candidates of a mail, parser by parser: each was read off one of
    the anchors the parser selects. *)
Lemma zillow_loop (doc : Document) (source : string) :
  Forall (fun c => exists a,
            In a (select ["zillow.com"] doc)
            /\ href a = Some (C.url c) /\ tracked source zillowUtility c)
         (parseZillowEmail doc source)
  /\ (List.length (parseZillowEmail doc source)
      <= List.length (select ["zillow.com"] doc))%nat.
Proof.
  unfold parseZillowEmail.
  exact (loop_from_nothing Seen fst (zillowAnchor source) _
           (zillowAnchor_shape source) (select ["zillow.com"] doc)
           ([], []) eq_refl).
Qed.

Lemma realtor_loop (doc : Document) (source : string) :
  Forall (fun c => exists a,
            In a (select ["realtor.com"; "move.com"] doc)
            /\ href a = Some (C.url c) /\ tracked source realtorUtility c)
         (parseRealtorEmail doc source)
  /\ (List.length (parseRealtorEmail doc source)
      <= List.length (select ["realtor.com"; "move.com"] doc))%nat.
Proof.
  unfold parseRealtorEmail.
  exact (loop_from_nothing Seen fst (realtorAnchor source) _
           (realtorAnchor_shape source)
           (select ["realtor.com"; "move.com"] doc) ([], []) eq_refl).
Qed.

Lemma redfin_loop (year : Z) (doc : Document) (source : string) :
  Forall (fun c => exists a,
            In a (select ["redfin.com"] doc)
            /\ href a = Some (C.url c) /\ redfinListing source c)
         (parseRedfinEmail year doc source)
  /\ (List.length (parseRedfinEmail year doc source)
      <= List.length (select ["redfin.com"] doc))%nat.
Proof.
  unfold parseRedfinEmail.
  exact (loop_from_nothing (list C.t) (fun l => l)
           (redfinAnchor year source) _ (redfinAnchor_shape year source)
           (select ["redfin.com"] doc) [] eq_refl).
Qed.

Lemma land_loop (doc : Document) (source : string) :
  Forall (fun c => exists a,
            In a (select ["land.com"] doc)
            /\ href a = Some (C.url c) /\ landListing source c)
         (parseLandEmail doc source)
  /\ (List.length (parseLandEmail doc source)
      <= List.length (select ["land.com"] doc))%nat.
Proof.
  unfold parseLandEmail.
  exact (loop_from_nothing (list C.t) (fun l => l)
           (landAnchor source) _ (landAnchor_shape source)
           (select ["land.com"] doc) [] eq_refl).
Qed.

Lemma selected_linked (needles : list string) (doc : Document) (c : C.t)
    (a : Anchor) :
  In a (select needles doc) -> href a = Some (C.url c) -> linkedFrom doc c.
Proof.
  intros Ha Hhref. apply select_In in Ha. exists a. split; [apply Ha|exact Hhref].
Qed.

(** What holds of every candidate, whichever parser built it. *)
Lemma parsed_candidates (year : Z) (doc : Document) (fromEmail : string) :
  Forall (fun c =>
            C.source c = determineSource fromEmail None
            /\ linkedFrom doc c /\ parsedStatus c /\ bare c)
         (res_properties (parsePropertyEmail year doc fromEmail))
  /\ (List.length (res_properties (parsePropertyEmail year doc fromEmail))
      <= List.length doc)%nat.
Proof.
  unfold parsePropertyEmail. set (source := determineSource fromEmail None).
  destruct (String.eqb source "zillow");
    [|destruct (String.eqb source "redfin");
      [|destruct (String.eqb source "realtor");
        [|destruct (String.eqb source "land")]]];
    cbn [res_properties].
  - destruct (zillow_loop doc source) as [H Hlen].
    pose proof (select_length ["zillow.com"] doc).
    split; [|lia]. eapply Forall_impl; [|exact H].
    intros c (a & Ha & Hhref & Hs & _ & _ & _ & Hst & _ & _ & _ & Hb & _).
    repeat split; try assumption;
      [exact (selected_linked _ doc c a Ha Hhref) | left; exact Hst
      | apply Hb..].
  - destruct (redfin_loop year doc source) as [H Hlen].
    pose proof (select_length ["redfin.com"] doc).
    split; [|lia]. eapply Forall_impl; [|exact H].
    intros c (a & Ha & Hhref & Hs & _ & _ & Hst & _ & _ & Hb).
    repeat split; try assumption;
      [exact (selected_linked _ doc c a Ha Hhref) | apply Hb..].
  - destruct (realtor_loop doc source) as [H Hlen].
    pose proof (select_length ["realtor.com"; "move.com"] doc).
    split; [|lia]. eapply Forall_impl; [|exact H].
    intros c (a & Ha & Hhref & Hs & _ & _ & _ & Hst & _ & _ & _ & Hb & _).
    repeat split; try assumption;
      [exact (selected_linked _ doc c a Ha Hhref) | left; exact Hst
      | apply Hb..].
  - destruct (land_loop doc source) as [H Hlen].
    pose proof (select_length ["land.com"] doc).
    split; [|lia]. eapply Forall_impl; [|exact H].
    intros c (a & Ha & Hhref & Hs & _ & _ & _ & _ & _ & _ & Hst & _ & Hb).
    repeat split; try assumption;
      [exact (selected_linked _ doc c a Ha Hhref) | left; exact Hst
      | apply Hb..].
  - split; [constructor | cbn [List.length]; lia].
Qed.

Lemma fetched_candidates (year : Z) (mails : list Message) (c : C.t) :
  In c (fetchPropertyEmails year mails) -> parsedStatus c /\ bare c.
Proof.
  unfold fetchPropertyEmails. intros H. apply in_flat_map in H.
  destruct H as (m & _ & H). unfold messageProperties in H.
  destruct (html m) as [doc|]; [|destruct H].
  destruct (parsed_candidates year doc (or_empty (from m))) as [HQ _].
  rewrite Forall_forall in HQ. destruct (HQ c H) as (_ & _ & Hst & Hb).
  split; assumption.
Qed.

Lemma parsed_status_active (c : C.t) :
  parsedStatus c -> data_status c = ACTIVE.
Proof.
  unfold data_status. intros [H|H]; rewrite H; vm_compute; reflexivity.
Qed.

Lemma loop_inv_in (I : Store -> Prop) (now : Date) (cs : list C.t) :
  (forall sm db c, In c cs -> I db -> I (snd (processOne now (sm, db) c))) ->
  forall sm db, I db -> I (snd (fold_left (processOne now) cs (sm, db))).
Proof.
  induction cs as [|c cs IH]; intros Hstep sm db H; [exact H|].
  cbn [fold_left].
  pose proof (Hstep sm db c (or_introl eq_refl) H) as H1.
  destruct (processOne now (sm, db) c) as [sm' db']. apply IH; [|exact H1].
  intros sm0 db0 c0 Hc0. apply Hstep. right. exact Hc0.
Qed.

Lemma processOne_active (now : Date) (sm : Summary) (db : Store) (c : C.t) :
  data_status c = ACTIVE -> activeOnly db ->
  activeOnly (snd (processOne now (sm, db) c)).
Proof.
  intros Hc H.
  destruct (BatchFacts.processOne_cases now sm db c)
    as [(ex & _ & E)|[_ E]];
    rewrite E; cbn [snd]; unfold activeOnly in *; cbn [properties].
  - unfold rewritten, update. cbn [properties]. apply Forall_map.
    eapply Forall_impl; [|exact H]. cbv beta. intros p Hp.
    destruct (P.id p =? P.id ex)%nat; [exact Hc | exact Hp].
  - apply Forall_app. split; [exact H|]. constructor; [exact Hc|constructor].
Qed.

(** X6.  The Zillow and the Realtor parser use the link as the listing
    id.  Whatever the document, each of their candidates carries the
    source it was asked for and its own link as id, comes from an anchor
    of the document that points at the site, is not one of the links the
    parser skips, has no status, price hint, property type or lot size,
    and has one picture at most, never a spacer or pixel image; no two
    candidates of one mail share a link, hence none share an identity. *)
Theorem tracking_link_parsers (doc : Document) (source : string) :
  (Forall (fun c => tracked source zillowUtility c
                    /\ fromAnchor ["zillow.com"] doc c)
          (parseZillowEmail doc source)
   /\ NoDup (map C.sourceId (parseZillowEmail doc source)))
  /\ (Forall (fun c => tracked source realtorUtility c
                       /\ fromAnchor ["realtor.com"; "move.com"] doc c)
             (parseRealtorEmail doc source)
      /\ NoDup (map C.sourceId (parseRealtorEmail doc source))).
Proof.
  split.
  - destruct (zillow_loop doc source) as [H _]. split.
    + eapply Forall_impl; [|exact H]. intros c (a & Ha & Hhref & Hc).
      split; [exact Hc|]. apply linked_fromAnchor. exists a.
      split; assumption.
    + rewrite (map_ext_in C.sourceId C.url).
      * apply zillow_links_deduplicated.
      * intros c Hc. rewrite Forall_forall in H.
        destruct (H c Hc) as (_ & _ & _ & _ & Hid & _). exact Hid.
  - destruct (realtor_loop doc source) as [H _]. split.
    + eapply Forall_impl; [|exact H]. intros c (a & Ha & Hhref & Hc).
      split; [exact Hc|]. apply linked_fromAnchor. exists a.
      split; assumption.
    + rewrite (map_ext_in C.sourceId C.url).
      * apply realtor_links_deduplicated.
      * intros c Hc. rewrite Forall_forall in H.
        destruct (H c Hc) as (_ & _ & _ & _ & Hid & _). exact Hid.
Qed.

(** X7.  Every candidate of the Redfin parser comes from an anchor of
    the document that points at redfin.com through a [/home/] link, has
    the listing id [extractListingId] reads off that link, and has no
    status text other than "New construction"; there are never more
    candidates than anchors. *)
Theorem redfin_parser_candidates (year : Z) (doc : Document)
    (source : string) :
  Forall (fun c => redfinListing source c
                   /\ fromAnchor ["redfin.com"] doc c)
         (parseRedfinEmail year doc source)
  /\ (List.length (parseRedfinEmail year doc source)
      <= List.length doc)%nat.
Proof.
  destruct (redfin_loop year doc source) as [H Hlen]. split.
  - eapply Forall_impl; [|exact H]. intros c (a & Ha & Hhref & Hc).
    split; [exact Hc|]. apply linked_fromAnchor. exists a. split; assumption.
  - pose proof (select_length ["redfin.com"] doc). lia.
Qed.

(** X8.  Every candidate of the Land parser comes from an anchor of the
    document that points at land.com, has the listing id
    [extractListingId] reads off that link, is of type LAND, and has
    neither beds, baths nor square feet, whatever the card says; there
    are never more candidates than anchors. *)
Theorem land_parser_candidates (doc : Document) (source : string) :
  Forall (fun c => landListing source c /\ fromAnchor ["land.com"] doc c)
         (parseLandEmail doc source)
  /\ (List.length (parseLandEmail doc source) <= List.length doc)%nat.
Proof.
  destruct (land_loop doc source) as [H Hlen]. split.
  - eapply Forall_impl; [|exact H]. intros c (a & Ha & Hhref & Hc).
    split; [exact Hc|]. apply linked_fromAnchor. exists a. split; assumption.
  - pose proof (select_length ["land.com"] doc). lia.
Qed.

(** X9.  A mail gives candidates or an error, never both: the errors are
    empty unless the sender is unknown, and then there is that one error
    and no candidate.  Every candidate carries the source detected from
    the sender, which is one of the four sites, and the link of an
    anchor of the document; none has a county, a year of construction, a
    builder, an agent or a description; there are never more candidates
    than anchors. *)
Theorem parsePropertyEmail_result (year : Z) (doc : Document)
    (fromEmail : string) :
  let source := determineSource fromEmail None in
  let r := parsePropertyEmail year doc fromEmail in
  (In source ["zillow"; "redfin"; "realtor"; "land"] /\ res_errors r = []
   \/ ~ In source ["zillow"; "redfin"; "realtor"; "land"]
      /\ res_properties r = []
      /\ res_errors r = [("Unknown email source: " ++ fromEmail)%string])
  /\ Forall (fun c => C.source c = source /\ linkedFrom doc c
                      /\ parsedStatus c /\ bare c)
            (res_properties r)
  /\ (List.length (res_properties r) <= List.length doc)%nat.
Proof.
  cbv zeta. split; [|apply parsed_candidates].
  unfold parsePropertyEmail. set (source := determineSource fromEmail None).
  destruct (String.eqb source "zillow") eqn:E1;
    [apply String.eqb_eq in E1; left; split; [rewrite E1; simpl; tauto|reflexivity]|].
  destruct (String.eqb source "redfin") eqn:E2;
    [apply String.eqb_eq in E2; left; split; [rewrite E2; simpl; tauto|reflexivity]|].
  destruct (String.eqb source "realtor") eqn:E3;
    [apply String.eqb_eq in E3; left; split; [rewrite E3; simpl; tauto|reflexivity]|].
  destruct (String.eqb source "land") eqn:E4;
    [apply String.eqb_eq in E4; left; split; [rewrite E4; simpl; tauto|reflexivity]|].
  right. apply String.eqb_neq in E1, E2, E3, E4.
  split; [|split; reflexivity].
  intros [H|[H|[H|[H|[]]]]]; congruence.
Qed.

(** X10.  No mail can mark a listing as pending, sold or off the market:
    the only status text a parser produces maps to ACTIVE, so a table
    whose listings are all ACTIVE is so after any run. *)
Theorem batch_stores_active_only (now : Date) (year : Z)
    (inbox : outcome (list Message)) (db : Store) :
  activeOnly db ->
  activeOnly (snd (processPropertyEmails now year inbox db)).
Proof.
  intros H. unfold processPropertyEmails.
  destruct inbox as [mails|e]; [|exact H].
  unfold processProperties. apply loop_inv_in; [|exact H].
  intros sm d c Hc Hd. apply processOne_active; [|exact Hd].
  apply parsed_status_active. apply (fetched_candidates year mails c Hc).
Qed.

Lemma batch_stores_active_only_witness :
  activeOnly emptyStore
  /\ activeOnly
       (snd (processPropertyEmails (Instant 1) 2025
               (Returns [priceCutMail; flatsMail]) emptyStore)).
Proof.
  assert (H : activeOnly emptyStore) by constructor.
  split; [exact H|].
  apply (batch_stores_active_only (Instant 1) 2025
           (Returns [priceCutMail; flatsMail]) emptyStore).
  exact H.
Defined.

(** *** Price-cut hints *)







End ParserShape.

(* ====================================================================== *)
(** ** The field extractors in general *)
(* ====================================================================== *)

Module ExtractorFacts.
Import Str Regex Utils Props Invariants.
Import AddressFacts.

(** *** Removing the characters of a class *)

Lemma take_drop_while (q : ascii -> bool) (l : list ascii) :
  l = take_while q l ++ drop_while q l.
Proof.
  induction l as [|c l IH]; simpl; [reflexivity|].
  destruct (q c); simpl; [f_equal; exact IH | reflexivity].
Qed.

Lemma filter_take_while (q : ascii -> bool) (l : list ascii) :
  filter q (take_while q l) = take_while q l.
Proof.
  induction l as [|c l IH]; simpl; [reflexivity|].
  destruct (q c) eqn:E; simpl; [rewrite E, IH|]; reflexivity.
Qed.

Lemma drop_while_head (q : ascii -> bool) (l : list ascii) (c : ascii)
    (rest : list ascii) :
  drop_while q l = c :: rest -> q c = false.
Proof.
  induction l as [|d l IH]; simpl; [discriminate|].
  destruct (q d) eqn:E; [exact IH|]. intros H. injection H as <- _. exact E.
Qed.

Lemma drop_while_length (q : ascii -> bool) (l : list ascii) :
  (List.length (drop_while q l) <= List.length l)%nat.
Proof.
  induction l as [|d l IH]; simpl; [lia|]. destruct (q d); simpl; lia.
Qed.

Lemma search_from_chr (p : ascii -> bool) (s : list ascii) :
  forall pre,
    search_from (Chr p) pre s
    = match drop_while (fun c => negb (p c)) s with
      | [] => None
      | c :: rest =>
          Some (rev (take_while (fun c => negb (p c)) s) ++ pre,
                MState (c :: rev (take_while (fun c => negb (p c)) s) ++ pre)
                       rest [])
      end.
Proof.
  induction s as [|c s IH]; intros pre;
    cbn [search_from run after before caps take_while drop_while];
    [reflexivity|].
  destruct (p c) eqn:E; cbn [negb]; [reflexivity|].
  rewrite IH. destruct (drop_while _ s); [reflexivity|].
  cbn [rev]. rewrite <- !app_assoc. reflexivity.
Qed.

(** [s.replace(/[...]/g, "")] keeps the other characters, in order. *)
Lemma replace_from_chr (p : ascii -> bool) (fuel : nat) :
  forall s pre,
    (List.length s < fuel)%nat ->
    replace_from fuel (Chr p) [] pre s = filter (fun c => negb (p c)) s.
Proof.
  induction fuel as [|fuel IH]; intros s pre Hlen; [lia|].
  cbn [replace_from]. rewrite search_from_chr.
  pose proof (take_drop_while (fun c => negb (p c)) s) as Hs.
  pose proof (drop_while_length (fun c => negb (p c)) s) as Hd.
  destruct (drop_while (fun c => negb (p c)) s) as [|c rest] eqn:E.
  - rewrite app_nil_r in Hs. rewrite Hs, filter_take_while. reflexivity.
  - cbn [before after caps expand flat_map].
    set (tw := take_while (fun c => negb (p c)) s) in *.
    replace (List.length (rev tw ++ pre) - List.length pre)%nat
      with (List.length (rev tw)) by (rewrite length_app; lia).
    rewrite firstn_app, firstn_all, Nat.sub_diag. cbn [firstn].
    rewrite !app_nil_r, rev_involutive.
    replace (List.length (c :: rev tw ++ pre) =? List.length (rev tw ++ pre))%nat
      with false by (symmetry; apply Nat.eqb_neq; cbn [List.length]; lia).
    rewrite IH by (cbn [List.length] in Hd; lia).
    replace (filter (fun c0 => negb (p c0)) s)
      with (filter (fun c0 => negb (p c0)) (tw ++ c :: rest))
      by (rewrite <- Hs; reflexivity).
    rewrite filter_app. unfold tw.
    rewrite filter_take_while. cbn [filter].
    rewrite (drop_while_head _ _ _ _ E). reflexivity.
Qed.

Lemma string_length_chars (s : string) :
  String.length s = List.length (chars s).
Proof. induction s as [|c s IH]; simpl; [reflexivity | rewrite IH; reflexivity]. Qed.

Lemma replace_all_chr (p : ascii -> bool) (s : string) :
  replace_all (Chr p) [] s = str (filter (fun c => negb (p c)) (chars s)).
Proof.
  unfold replace_all. rewrite replace_from_chr; [reflexivity|].
  rewrite string_length_chars. lia.
Qed.

Lemma take_while_all (q : ascii -> bool) (l : list ascii) :
  Forall (fun c => q c = true) l -> take_while q l = l.
Proof.
  induction 1 as [|c l Hc _ IH]; simpl; [reflexivity|].
  rewrite Hc, IH. reflexivity.
Qed.

Lemma priceText_digits (l : list ascii) :
  Forall (fun c => is_digit c = true \/ c = "$"%char \/ c = ","%char) l ->
  filter (fun c => negb (existsb (Ascii.eqb c) ["$"; ","]%char)) l
  = filter is_digit l.
Proof.
  induction 1 as [|c l Hc _ IH]; [reflexivity|]. cbn [filter]. rewrite IH.
  destruct Hc as [Hc|[->| ->]]; [|reflexivity..].
  rewrite Hc. cbn [existsb].
  destruct (Ascii.eqb_spec c "$") as [->|_]; [discriminate Hc|].
  destruct (Ascii.eqb_spec c ",") as [->|_]; [discriminate Hc|].
  reflexivity.
Qed.

(** X11.  [parsePrice] reads a price text by its digits alone: on a text
    of digits, dollar signs and commas, wherever they stand, the result
    is the number the digits spell in order.  (At least one digit and no
    more than fifteen, so that the number the source computes is an exact
    integer.) *)
Theorem parsePrice_reads_digits (priceStr : string) :
  priceText priceStr ->
  (1 <= List.length (filter is_digit (chars priceStr)) <= 15)%nat ->
  parsePrice priceStr = digits_val (filter is_digit (chars priceStr)).
Proof.
  intros H _. unfold parsePrice, parseInt, one_of.
  rewrite replace_all_chr, chars_str, (priceText_digits _ H).
  rewrite take_while_all; [reflexivity|].
  apply Forall_forall. intros c Hc. apply filter_In in Hc. apply Hc.
Qed.

Lemma parsePrice_reads_digits_witness :
  priceText "$1,234,567"
  /\ (1 <= List.length (filter is_digit (chars "$1,234,567")) <= 15)%nat
  /\ parsePrice "$1,234,567" = 1234567%Z.
Proof.
  assert (H : priceText "$1,234,567").
  { unfold priceText. cbn [chars list_ascii_of_string].
    repeat (constructor; [first [left; reflexivity | right; left; reflexivity
                                | right; right; reflexivity]|]).
    constructor. }
  assert (Hn : (1 <= List.length (filter is_digit (chars "$1,234,567"))
                <= 15)%nat) by (vm_compute; lia).
  split; [exact H|]. split; [exact Hn|].
  exact (parsePrice_reads_digits "$1,234,567" H Hn).
Defined.

(** *** The two versions of [determineSource] *)

Lemma prefix_chars_app (a b hay : list ascii) :
  prefix_chars (a ++ b) hay = true ->
  prefix_chars a hay = true /\ includes_chars b hay = true.
Proof.
  revert hay. induction a as [|x a IH]; intros hay H.
  - split; [destruct hay; reflexivity|].
    cbn [app] in H. destruct hay; cbn [includes_chars]; rewrite H; reflexivity.
  - destruct hay as [|y hay]; [discriminate H|].
    cbn [app prefix_chars] in H. apply andb_true_iff in H.
    destruct H as [Hxy H]. destruct (IH hay H) as [H1 H2]. split.
    + cbn [prefix_chars]. rewrite Hxy, H1. reflexivity.
    + cbn [includes_chars]. rewrite H2. apply orb_true_r.
Qed.

(** A text that contains [a ++ b] contains [a] and contains [b]. *)
Lemma includes_chars_app (a b hay : list ascii) :
  includes_chars (a ++ b) hay = true ->
  includes_chars a hay = true /\ includes_chars b hay = true.
Proof.
  induction hay as [|y hay IH]; intros H.
  - cbn [includes_chars] in H. rewrite orb_false_r in H.
    destruct (prefix_chars_app a b [] H) as [H1 H2]. split; [|exact H2].
    cbn [includes_chars]. rewrite H1. reflexivity.
  - cbn [includes_chars] in H. apply orb_true_iff in H. destruct H as [H|H].
    + destruct (prefix_chars_app a b _ H) as [H1 H2]. split; [|exact H2].
      cbn [includes_chars]. rewrite H1. reflexivity.
    + destruct (IH H) as [H1 H2].
      split; cbn [includes_chars]; [rewrite H1 | rewrite H2];
        apply orb_true_r.
Qed.

Lemma includes_app (hay a b : string) :
  includes hay (a ++ b) = true ->
  includes hay a = true /\ includes hay b = true.
Proof.
  unfold includes. rewrite <- (str_chars a), <- (str_chars b), <- str_app.
  rewrite !chars_str. apply includes_chars_app.
Qed.

(** X12.  What the second version of [determineSource] changed.  The
    tests it adds for "mail.zillow" and "notifications.realtor" never
    decide anything; the one it adds for "land" does: a sender the first
    version calls unknown is now a Land.com mail as soon as its address
    contains the letters "land".  On every other input the two versions
    agree. *)
Theorem determineSource_versions (email : string) (url : option string) :
  determineSource email url
  = if String.eqb (Earlier.determineSource email url) "unknown"
       && includes (toLowerCase email) "land"
    then "land"
    else Earlier.determineSource email url.
Proof.
  unfold determineSource, Earlier.determineSource.
  set (e := toLowerCase email).
  set (u := match url with Some u => toLowerCase u | None => "" end).
  pose proof (includes_app e "mail." "zillow") as Hz.
  pose proof (includes_app e "notifications." "realtor") as Hr.
  pose proof (includes_app e "land" ".com") as Hl.
  change ("mail." ++ "zillow")%string with "mail.zillow" in Hz.
  change ("notifications." ++ "realtor")%string
    with "notifications.realtor" in Hr.
  change ("land" ++ ".com")%string with "land.com" in Hl.
  destruct (includes e "zillow"), (includes e "mail.zillow");
    try (destruct (Hz eq_refl); discriminate); cbn [orb];
    destruct (includes u "zillow"); try reflexivity;
    destruct (includes e "redfin"), (includes u "redfin"); try reflexivity;
    cbn [orb];
    destruct (includes e "realtor"), (includes e "notifications.realtor");
    try (destruct (Hr eq_refl); discriminate); cbn [orb];
    destruct (includes u "realtor"), (includes u "move.com");
    try reflexivity; cbn [orb];
    destruct (includes e "land.com"), (includes e "land");
    try (destruct (Hl eq_refl); discriminate); cbn [orb];
    destruct (includes u "land.com"); reflexivity.
Qed.

Lemma determineSource_versions_example :
  Earlier.determineSource "Portland Homes <news@portland.example>" None
  = "unknown"
  /\ determineSource "Portland Homes <news@portland.example>" None = "land".
Proof. split; vm_compute; reflexivity. Qed.

(** *** Letter case and margins in [normalizeAddress] *)

Lemma is_space_lower_char (c : ascii) : is_space (lower_char c) = is_space c.
Proof. destruct c as [[] [] [] [] [] [] [] []]; reflexivity. Qed.

Lemma drop_space_lower (l : list ascii) :
  drop_space (map lower_char l) = map lower_char (drop_space l).
Proof.
  induction l as [|c l IH]; [reflexivity|]. cbn [map drop_space].
  rewrite is_space_lower_char. destruct (is_space c); [exact IH|reflexivity].
Qed.

Lemma trim_chars_lower (l : list ascii) :
  trim_chars (map lower_char l) = map lower_char (trim_chars l).
Proof.
  unfold trim_chars.
  rewrite drop_space_lower, <- map_rev, drop_space_lower, <- map_rev.
  reflexivity.
Qed.

Lemma toLowerCase_trim (s : string) :
  toLowerCase (trim s) = trim (toLowerCase s).
Proof.
  unfold toLowerCase, trim, lower_chars.
  rewrite !chars_str, trim_chars_lower. reflexivity.
Qed.

Lemma normalizeStreet_start (s1 s2 : string) :
  trim (toLowerCase s1) = trim (toLowerCase s2) ->
  normalizeStreet s1 = normalizeStreet s2.
Proof. intros H. unfold normalizeStreet. rewrite H. reflexivity. Qed.

(** X13.  The comparison key ignores letter case and surrounding white
    space in each of its three arguments: trimming them, or lowering
    their case, gives the same key. *)
Theorem normalizeAddress_ignores_case_and_margins
    (street city state : string) :
  normalizeAddress (trim street) (trim city) (trim state)
  = normalizeAddress street city state
  /\ normalizeAddress (toLowerCase street) (toLowerCase city)
       (toLowerCase state)
     = normalizeAddress street city state.
Proof.
  unfold normalizeAddress. split.
  - rewrite (normalizeStreet_start (trim street) street)
      by (rewrite toLowerCase_trim; apply trim_idem).
    rewrite !toLowerCase_trim, !trim_idem. reflexivity.
  - rewrite (normalizeStreet_start (toLowerCase street) street)
      by (rewrite toLowerCase_idem; reflexivity).
    rewrite !toLowerCase_idem. reflexivity.
Qed.

(** *** Formatting an address and parsing it back *)

Lemma chars_app (a b : string) : chars (a ++ b) = chars a ++ chars b.
Proof.
  induction a as [|c a IH]; [reflexivity|].
  cbn [append]. unfold chars in *. cbn [list_ascii_of_string app].
  rewrite IH. reflexivity.
Qed.

Lemma trim_str (l : list ascii) : trim (str l) = str (trim_chars l).
Proof. unfold trim. rewrite chars_str. reflexivity. Qed.

Lemma trimmed_chars (s : string) : trim s = s -> trim_chars (chars s) = chars s.
Proof.
  intros H. unfold trim in H. rewrite <- H at 2. rewrite chars_str.
  reflexivity.
Qed.

Lemma trimmed_edges (l : list ascii) :
  trim_chars l = l <-> starts_clean l /\ starts_clean (rev l).
Proof.
  unfold trim_chars. split.
  - intros H. split.
    + destruct (trim_chars_shape l) as [E|(c & a & Hc & E)];
        unfold trim_chars in E; rewrite H in E; rewrite E;
        [exact I | exact Hc].
    + rewrite <- H at 1. rewrite rev_involutive. apply drop_space_head.
  - intros [H1 H2].
    rewrite (drop_space_fixed l H1), (drop_space_fixed _ H2).
    apply rev_involutive.
Qed.

Lemma starts_clean_app (a b : list ascii) :
  starts_clean a -> (a = [] -> starts_clean b) -> starts_clean (a ++ b).
Proof. destruct a as [|c a]; intros Ha Hb; [apply Hb; reflexivity | exact Ha]. Qed.

(** A text with nothing to trim in front, followed by one that has nothing
    to trim and is not empty, has nothing to trim. *)
Lemma trimmed_end (l c : list ascii) :
  starts_clean (l ++ c) -> trim_chars c = c -> c <> [] ->
  trim_chars (l ++ c) = l ++ c.
Proof.
  intros Hl Hc Hne. apply trimmed_edges. split; [exact Hl|].
  rewrite rev_app_distr. apply trimmed_edges in Hc. destruct Hc as [_ Hc].
  apply starts_clean_app; [exact Hc|]. intros E. exfalso. apply Hne.
  rewrite <- (rev_involutive c), E. reflexivity.
Qed.

Lemma trim_chars_space (c : ascii) (l : list ascii) :
  is_space c = true -> trim_chars (c :: l) = trim_chars l.
Proof. intros H. unfold trim_chars. cbn [drop_space]. rewrite H. reflexivity. Qed.

Lemma split_chars_part (sep : ascii) (part : list ascii) :
  ~ In sep part ->
  forall cur rest,
    split_chars sep cur (part ++ sep :: rest)
    = (rev cur ++ part) :: split_chars sep [] rest.
Proof.
  induction part as [|c part IH]; intros Hn cur rest.
  - cbn [app split_chars]. rewrite Ascii.eqb_refl, app_nil_r. reflexivity.
  - cbn [app split_chars].
    destruct (Ascii.eqb_spec c sep) as [->|Hne];
      [exfalso; apply Hn; left; reflexivity|].
    rewrite IH by (intros H; apply Hn; right; exact H).
    cbn [rev]. rewrite <- app_assoc. reflexivity.
Qed.

Lemma split_chars_last (sep : ascii) (part : list ascii) :
  ~ In sep part -> forall cur, split_chars sep cur part = [rev cur ++ part].
Proof.
  induction part as [|c part IH]; intros Hn cur.
  - cbn [split_chars]. rewrite app_nil_r. reflexivity.
  - cbn [split_chars].
    destruct (Ascii.eqb_spec c sep) as [->|Hne];
      [exfalso; apply Hn; left; reflexivity|].
    rewrite IH by (intros H; apply Hn; right; exact H).
    cbn [rev]. rewrite <- app_assoc. reflexivity.
Qed.

(** The segments of [street, tail]. *)
Lemma segments_two (street tail : string) :
  plainPart street -> plainPart tail -> tail <> "" ->
  segments (street ++ ", " ++ tail) = [street; tail].
Proof.
  intros [Hs Hsc] [Ht Htc] Hne. unfold segments, split, trim at 2.
  rewrite !chars_app. change (chars ", ") with [","%char; " "%char].
  set (S := chars street) in *. set (T := chars tail) in *.
  assert (HT : trim_chars T = T) by (apply trimmed_chars; exact Ht).
  assert (HS : trim_chars S = S) by (apply trimmed_chars; exact Hs).
  assert (HTne : T <> []).
  { intros E. apply Hne. rewrite <- (str_chars tail). fold T. rewrite E.
    reflexivity. }
  assert (Hwhole : trim_chars (S ++ [","%char; " "%char] ++ T)
                   = S ++ [","%char; " "%char] ++ T).
  { rewrite !app_assoc. apply trimmed_end; [|exact HT|exact HTne].
    rewrite <- !app_assoc. apply starts_clean_app.
    - apply (trimmed_edges S). exact HS.
    - intros _. reflexivity. }
  rewrite Hwhole, chars_str. cbn [app].
  rewrite (split_chars_part _ S Hsc).
  rewrite split_chars_last by (intros [H|H]; [discriminate H | exact (Htc H)]).
  cbn [rev app map]. rewrite !trim_str, HS.
  rewrite trim_chars_space by reflexivity. rewrite HT.
  unfold S, T. rewrite !str_chars. reflexivity.
Qed.

(** The segments of [street, city, tail]. *)
Lemma segments_three (street city tail : string) :
  plainPart street -> plainPart city -> plainPart tail -> tail <> "" ->
  segments (street ++ ", " ++ city ++ ", " ++ tail) = [street; city; tail].
Proof.
  intros [Hs Hsc] [Hc Hcc] [Ht Htc] Hne. unfold segments, split, trim at 2.
  rewrite !chars_app. change (chars ", ") with [","%char; " "%char].
  set (S := chars street) in *. set (C := chars city) in *.
  set (T := chars tail) in *.
  assert (HT : trim_chars T = T) by (apply trimmed_chars; exact Ht).
  assert (HC : trim_chars C = C) by (apply trimmed_chars; exact Hc).
  assert (HS : trim_chars S = S) by (apply trimmed_chars; exact Hs).
  assert (HTne : T <> []).
  { intros E. apply Hne. rewrite <- (str_chars tail). fold T. rewrite E.
    reflexivity. }
  assert (Hwhole :
            trim_chars (S ++ [","%char; " "%char] ++ C
                          ++ [","%char; " "%char] ++ T)
            = S ++ [","%char; " "%char] ++ C ++ [","%char; " "%char] ++ T).
  { rewrite !app_assoc. apply trimmed_end; [|exact HT|exact HTne].
    rewrite <- !app_assoc. apply starts_clean_app.
    - apply (trimmed_edges S). exact HS.
    - intros _. reflexivity. }
  rewrite Hwhole, chars_str. cbn [app].
  rewrite (split_chars_part _ S Hsc). cbn [rev app].
  rewrite (app_comm_cons C).
  rewrite (split_chars_part _ (" "%char :: C))
    by (intros [H|H]; [discriminate H | exact (Hcc H)]).
  rewrite split_chars_last by (intros [H|H]; [discriminate H | exact (Htc H)]).
  cbn [rev app map]. rewrite !trim_str, HS.
  rewrite !trim_chars_space by reflexivity. rewrite HT, HC.
  unfold S, C, T. rewrite !str_chars. reflexivity.
Qed.

Lemma digit_not_space (c : ascii) : is_digit c = true -> is_space c = false.
Proof. destruct c as [[] [] [] [] [] [] [] []]; vm_compute; congruence. Qed.

Lemma digit_not_comma (c : ascii) : is_digit c = true -> c <> ","%char.
Proof. intros H ->. discriminate H. Qed.

Lemma spaceless_trimmed (w : list ascii) :
  Forall (fun c => is_space c = false) w -> trim_chars w = w.
Proof.
  intros H. apply trimmed_edges. split.
  - destruct H as [|c w Hc _]; [exact I | exact Hc].
  - apply Forall_rev in H. destruct H as [|c r Hc _]; [exact I | exact Hc].
Qed.

(** A word is read as one token, whatever precedes it. *)
Lemma split_ws_word (w : list ascii) :
  Forall (fun c => is_space c = false) w ->
  forall insep cur rest,
    w <> [] \/ insep = false ->
    split_ws_chars insep cur (w ++ rest)
    = split_ws_chars false (rev w ++ cur) rest.
Proof.
  induction 1 as [|c w Hc _ IH]; intros insep cur rest Hor.
  - destruct Hor as [Hor| ->]; [congruence | reflexivity].
  - cbn [app split_ws_chars]. rewrite Hc.
    rewrite IH by (right; reflexivity).
    cbn [rev]. rewrite <- app_assoc. reflexivity.
Qed.

Lemma split_ws_last_word (w : list ascii) (insep : bool) :
  Forall (fun c => is_space c = false) w -> w <> [] ->
  split_ws_chars insep [] w = [w].
Proof.
  intros H Hne. rewrite <- (app_nil_r w) at 1.
  rewrite (split_ws_word w H) by (left; exact Hne).
  cbn [split_ws_chars]. rewrite app_nil_r, rev_involutive. reflexivity.
Qed.

Lemma spaceless_single_spaced (w : list ascii) :
  Forall (fun c => is_space c = false) w -> single_spaced false w = true.
Proof.
  induction 1 as [|c w Hc _ IH]; [reflexivity|].
  cbn [single_spaced]. rewrite Hc. exact IH.
Qed.

(** Appending a blank and a word to a single-spaced text. *)
Lemma single_spaced_word (w : list ascii) :
  Forall (fun c => is_space c = false) w -> w <> [] ->
  forall l after_space,
    single_spaced after_space l = true ->
    single_spaced after_space (l ++ " "%char :: w) = true.
Proof.
  intros Hw Hne. induction l as [|c l IH]; intros b H.
  - cbn [single_spaced] in H. apply negb_true_iff in H. subst b.
    cbn [app single_spaced]. change (is_space " ") with true.
    cbn [Ascii.eqb andb negb].
    destruct Hw as [|d w Hd Hw]; [congruence|].
    cbn [single_spaced]. rewrite Hd. apply spaceless_single_spaced, Hw.
  - cbn [app single_spaced] in *. destruct (is_space c).
    + apply andb_true_iff in H. destruct H as [H Hl]. rewrite H.
      cbn [andb]. apply IH, Hl.
    + apply IH, H.
Qed.

Lemma split_ws_then_word (w : list ascii) :
  Forall (fun c => is_space c = false) w -> w <> [] ->
  forall l cur,
    single_spaced false l = true ->
    split_ws_chars false cur (l ++ " "%char :: w)
    = split_ws_chars false cur l ++ [w].
Proof.
  intros Hw Hne. induction l as [|c l IH]; intros cur H.
  - cbn [app split_ws_chars]. change (is_space " ") with true.
    cbv iota. rewrite (split_ws_last_word w true Hw Hne). reflexivity.
  - cbn [single_spaced] in H. cbn [app split_ws_chars].
    destruct (is_space c) eqn:E.
    + apply andb_true_iff in H. destruct H as [_ Hl].
      destruct l as [|d l]; [discriminate Hl|].
      cbn [single_spaced] in Hl.
      destruct (is_space d) eqn:Ed;
        [rewrite andb_false_r in Hl; discriminate Hl|].
      assert (Hd : single_spaced false (d :: l) = true)
        by (cbn [single_spaced]; rewrite Ed; exact Hl).
      specialize (IH [] Hd). cbn [app split_ws_chars] in IH |- *.
      rewrite Ed in IH |- *. rewrite IH. reflexivity.
    + apply IH, H.
Qed.

Lemma single_spaced_relax (l : list ascii) :
  single_spaced true l = true -> single_spaced false l = true.
Proof.
  destruct l as [|c l]; [discriminate|]. cbn [single_spaced].
  destruct (is_space c); [|tauto]. rewrite andb_false_r. discriminate.
Qed.

Lemma word_chars (s : string) :
  word s ->
  Forall (fun c => is_space c = false) (chars s)
  /\ chars s <> [] /\ ~ In ","%char (chars s).
Proof.
  intros [Hne H]. split; [|split].
  - eapply Forall_impl; [|exact H]. intros c [Hc _]. exact Hc.
  - intros E. apply Hne. rewrite <- (str_chars s), E. reflexivity.
  - intros Hin. rewrite Forall_forall in H. destruct (H _ Hin) as [_ Hc].
    apply Hc. reflexivity.
Qed.

Lemma zip_chars (s : string) :
  zipCode s ->
  Forall (fun c => is_space c = false) (chars s)
  /\ chars s <> [] /\ ~ In ","%char (chars s).
Proof.
  intros [Hlen H]. split; [|split].
  - eapply Forall_impl; [|exact H]. intros c. apply digit_not_space.
  - intros E. rewrite E in Hlen. discriminate Hlen.
  - intros Hin. rewrite Forall_forall in H.
    apply (digit_not_comma _ (H _ Hin)). reflexivity.
Qed.

Lemma zip_test (s : string) : zipCode s -> test zip_re s = true.
Proof.
  intros [Hlen H]. unfold test, search.
  destruct (chars s) as [|a [|b [|c [|d [|e [|f l]]]]]]; try discriminate Hlen.
  inversion H as [|? ? Ha H1]; subst. inversion H1 as [|? ? Hb H2]; subst.
  inversion H2 as [|? ? Hc H3]; subst. inversion H3 as [|? ? Hd H4]; subst.
  inversion H4 as [|? ? He _]; subst.
  cbn -[is_digit]. rewrite Ha. cbn -[is_digit]. rewrite Hb.
  cbn -[is_digit]. rewrite Hc. cbn -[is_digit]. rewrite Hd.
  cbn -[is_digit]. rewrite He. reflexivity.
Qed.

(** A text made of parts that have no comma and nothing to trim, joined
    by single blanks, has no comma and nothing to trim. *)
Lemma plainPart_blank (a b : string) :
  plainPart a -> a <> "" -> plainPart b -> b <> "" ->
  plainPart (a ++ " " ++ b) /\ (a ++ " " ++ b)%string <> "".
Proof.
  intros [Ha Hac] Hane [Hb Hbc] Hbne.
  assert (HA : chars a <> []).
  { intros E. apply Hane. rewrite <- (str_chars a), E. reflexivity. }
  assert (HB : chars b <> []).
  { intros E. apply Hbne. rewrite <- (str_chars b), E. reflexivity. }
  split; [split|].
  - unfold trim. rewrite !chars_app. change (chars " ") with [" "%char].
    rewrite !app_assoc, trimmed_end;
      [rewrite <- !app_assoc, !str_app, !str_chars; reflexivity
      | | apply trimmed_chars; exact Hb | exact HB].
    rewrite <- !app_assoc. apply starts_clean_app.
    + apply (trimmed_edges (chars a)). apply trimmed_chars. exact Ha.
    + intros E. congruence.
  - rewrite !chars_app. change (chars " ") with [" "%char]. intros H.
    apply in_app_iff in H. destruct H as [H|[H|H]];
      [exact (Hac H) | discriminate H | exact (Hbc H)].
  - intros E. apply HA. apply (f_equal chars) in E.
    rewrite chars_app in E. apply app_eq_nil in E. apply E.
Qed.

Lemma spaceless_plainPart (s : string) :
  Forall (fun c => is_space c = false) (chars s) ->
  ~ In ","%char (chars s) -> plainPart s.
Proof.
  intros H Hc. split; [|exact Hc]. unfold trim.
  rewrite (spaceless_trimmed _ H). apply str_chars.
Qed.

Lemma split_ws_append_word (l w : string) :
  single_spaced true (chars l) = true ->
  Forall (fun c => is_space c = false) (chars w) -> chars w <> [] ->
  split_ws (l ++ " " ++ w) = split_ws l ++ [w].
Proof.
  intros Hl Hw Hne. unfold split_ws. rewrite !chars_app.
  change (chars " ") with [" "%char]. cbn [app].
  rewrite (split_ws_then_word _ Hw Hne) by (apply single_spaced_relax, Hl).
  rewrite map_app. cbn [map]. rewrite str_chars. reflexivity.
Qed.

Lemma split_ws_one_word (w : string) :
  Forall (fun c => is_space c = false) (chars w) -> chars w <> [] ->
  split_ws w = [w].
Proof.
  intros Hw Hne. unfold split_ws.
  rewrite (split_ws_last_word _ false Hw Hne). cbn [map].
  rewrite str_chars. reflexivity.
Qed.

Lemma word_single_spaced (w : string) :
  Forall (fun c => is_space c = false) (chars w) -> chars w <> [] ->
  single_spaced true (chars w) = true.
Proof.
  intros Hw Hne. destruct Hw as [|c l Hc Hl]; [congruence|].
  cbn [single_spaced]. rewrite Hc. apply spaceless_single_spaced, Hl.
Qed.

Lemma single_spaced_append_word (l w : string) :
  single_spaced true (chars l) = true ->
  Forall (fun c => is_space c = false) (chars w) -> chars w <> [] ->
  single_spaced true (chars (l ++ " " ++ w)) = true.
Proof.
  intros Hl Hw Hne. rewrite !chars_app. change (chars " ") with [" "%char].
  cbn [app]. apply single_spaced_word; assumption.
Qed.

Lemma single_spaced_end (l : list ascii) :
  forall after_space,
    single_spaced after_space l = true -> starts_clean (rev l).
Proof.
  induction l as [|c l IH]; intros b H; [exact I|].
  cbn [single_spaced] in H. cbn [rev]. destruct l as [|d l].
  - cbn [rev app starts_clean]. destruct (is_space c); [|reflexivity].
    cbn [single_spaced negb] in H. rewrite andb_false_r in H.
    discriminate H.
  - assert (Hl : exists b', single_spaced b' (d :: l) = true).
    { destruct (is_space c); [|eauto].
      apply andb_true_iff in H. destruct H as [_ H]. eauto. }
    destruct Hl as [b' Hl]. apply starts_clean_app; [exact (IH b' Hl)|].
    cbn [rev]. intros E. apply app_eq_nil in E. destruct E as [_ E].
    discriminate E.
Qed.

Lemma single_spaced_start (l : list ascii) :
  single_spaced true l = true -> starts_clean l /\ l <> [].
Proof.
  destruct l as [|c l]; [discriminate|]. cbn [single_spaced starts_clean].
  destruct (is_space c); [|split; [reflexivity|discriminate]].
  rewrite andb_false_r. discriminate.
Qed.

Lemma single_spaced_plainPart (s : string) :
  single_spaced true (chars s) = true -> ~ In ","%char (chars s) ->
  plainPart s /\ s <> "".
Proof.
  intros H Hc. destruct (single_spaced_start _ H) as [H1 Hne].
  split; [split; [|exact Hc]|].
  - unfold trim.
    rewrite (proj2 (trimmed_edges (chars s))); [apply str_chars|].
    split; [exact H1 | exact (single_spaced_end _ _ H)].
  - intros ->. apply Hne. reflexivity.
Qed.

(** X14.  [parseAddress] reads back the four formats it documents.  For
    a street and a city without comma or surrounding white space, a
    one-word state and a five-digit zip code: "street, city, ST ZIP" and
    "street, city, ST" give back the parts; when the words of the city
    are separated by single blanks, so does "street, city ST ZIP", and so
    does "street, city ST" unless the state itself is five digits. *)
Theorem parseAddress_inverts_formats (street city state zip : string) :
  plainPart street -> plainPart city -> word state -> zipCode zip ->
  parseAddress (street ++ ", " ++ city ++ ", " ++ state ++ " " ++ zip)
  = Returns (MkAddress street city state (Some zip))
  /\ parseAddress (street ++ ", " ++ city ++ ", " ++ state)
     = Returns (MkAddress street city state None)
  /\ (single_spaced true (chars city) = true ->
      parseAddress (street ++ ", " ++ city ++ " " ++ state ++ " " ++ zip)
      = Returns (MkAddress street city state (Some zip))
      /\ (test zip_re state = false ->
          parseAddress (street ++ ", " ++ city ++ " " ++ state)
          = Returns (MkAddress street city state None))).
Proof.
  intros Hs Hc Hw Hz.
  destruct (word_chars state Hw) as (Hst & Hstne & Hstc).
  destruct (zip_chars zip Hz) as (Hzs & Hzne & Hzc).
  pose proof (zip_test zip Hz) as Hzt.
  assert (Hstn : state <> "") by apply Hw.
  assert (Hzn : zip <> "").
  { intros ->. apply Hzne. reflexivity. }
  pose proof (spaceless_plainPart state Hst Hstc) as Hsp.
  pose proof (spaceless_plainPart zip Hzs Hzc) as Hzp.
  pose proof (word_single_spaced state Hst Hstne) as Hss.
  split; [|split].
  - destruct (plainPart_blank state zip Hsp Hstn Hzp Hzn) as [Hp Hn].
    rewrite (parseAddress_three_segments _ street city
               (state ++ " " ++ zip) [])
      by (apply segments_three; assumption).
    unfold readStateZip.
    rewrite (split_ws_append_word state zip Hss Hzs Hzne).
    rewrite (split_ws_one_word state Hst Hstne).
    cbn [app List.length Nat.ltb Nat.leb last removelast join andb].
    rewrite Hzt. reflexivity.
  - rewrite (parseAddress_three_segments _ street city state [])
      by (apply segments_three; assumption).
    unfold readStateZip. rewrite (split_ws_one_word state Hst Hstne).
    reflexivity.
  - intros Hcs.
    destruct (single_spaced_plainPart city Hcs (proj2 Hc)) as [_ Hcn].
    pose proof (single_spaced_append_word city state Hcs Hst Hstne) as Hcss.
    destruct (plainPart_blank city state Hc Hcn Hsp Hstn) as [Hp1 Hn1].
    split.
    + destruct (plainPart_blank (city ++ " " ++ state) zip Hp1 Hn1 Hzp Hzn)
        as [Hp2 Hn2].
      assert (E : (city ++ " " ++ state ++ " " ++ zip)%string
                  = ((city ++ " " ++ state) ++ " " ++ zip)%string).
      { rewrite <- (str_chars (city ++ " " ++ state ++ " " ++ zip)),
                <- (str_chars ((city ++ " " ++ state) ++ " " ++ zip)).
        rewrite !chars_app, <- !app_assoc. reflexivity. }
      rewrite E.
      rewrite (parseAddress_two_segments _ street
                 ((city ++ " " ++ state) ++ " " ++ zip))
        by (apply segments_two; assumption).
      unfold readCityStateZip.
      rewrite (split_ws_append_word _ zip Hcss Hzs Hzne).
      rewrite (split_ws_append_word city state Hcs Hst Hstne).
      rewrite !last_last, Hzt, !removelast_last, last_last.
      rewrite (join_split_ws city Hcs). reflexivity.
    + intros Hnz.
      rewrite (parseAddress_two_segments _ street (city ++ " " ++ state))
        by (apply segments_two; assumption).
      unfold readCityStateZip.
      rewrite (split_ws_append_word city state Hcs Hst Hstne).
      rewrite !last_last, Hnz, !removelast_last.
      rewrite (join_split_ws city Hcs). reflexivity.
Qed.

Lemma parseAddress_inverts_formats_witness :
  (plainPart "8007 Broadmead Ct" /\ plainPart "Spartanburg" /\ word "SC"
   /\ zipCode "29307" /\ single_spaced true (chars "Spartanburg") = true
   /\ test zip_re "SC" = false)
  /\ parseAddress "8007 Broadmead Ct, Spartanburg, SC 29307"
     = Returns (MkAddress "8007 Broadmead Ct" "Spartanburg" "SC"
                  (Some "29307"))
  /\ parseAddress "8007 Broadmead Ct, Spartanburg, SC"
     = Returns (MkAddress "8007 Broadmead Ct" "Spartanburg" "SC" None)
  /\ parseAddress "8007 Broadmead Ct, Spartanburg SC 29307"
     = Returns (MkAddress "8007 Broadmead Ct" "Spartanburg" "SC"
                  (Some "29307"))
  /\ parseAddress "8007 Broadmead Ct, Spartanburg SC"
     = Returns (MkAddress "8007 Broadmead Ct" "Spartanburg" "SC" None).
Proof.
  assert (H1 : plainPart "8007 Broadmead Ct").
  { split; [reflexivity|]. cbn [chars list_ascii_of_string In].
    intuition discriminate. }
  assert (H2 : plainPart "Spartanburg").
  { split; [reflexivity|]. cbn [chars list_ascii_of_string In].
    intuition discriminate. }
  assert (H3 : word "SC").
  { split; [discriminate|]. cbn [chars list_ascii_of_string].
    repeat constructor; discriminate. }
  assert (H4 : zipCode "29307").
  { split; [reflexivity|]. cbn [chars list_ascii_of_string].
    repeat constructor. }
  assert (H5 : single_spaced true (chars "Spartanburg") = true)
    by reflexivity.
  assert (H6 : test zip_re "SC" = false) by reflexivity.
  split; [exact (conj H1 (conj H2 (conj H3 (conj H4 (conj H5 H6)))))|].
  destruct (parseAddress_inverts_formats
              "8007 Broadmead Ct" "Spartanburg" "SC" "29307" H1 H2 H3 H4)
    as (A & B & C).
  destruct (C H5) as [C1 C2].
  split; [exact A|]. split; [exact B|]. split; [exact C1 | exact (C2 H6)].
Defined.

(** *** The two versions of [parseAddress] *)






End ExtractorFacts.

(* ====================================================================== *)
(** ** The earlier processor *)
(* ====================================================================== *)

Module EarlierFacts.
Import Utils Prisma Processor Parser Pipeline Props Invariants Samples.
Import StoreFacts UpsertFacts.

(** The two ways a turn of the earlier loop can go: neither is an error. *)
Lemma earlier_cases (now : Date) (sm : Summary) (db : Store) (c : C.t) :
  (exists ex,
      findUnique (C.source c) (C.sourceId c) db = Some ex
      /\ Earlier.processOne now (sm, db) c
         = (MkSummary (sum_created sm) (S (sum_updated sm)) (sum_errors sm),
            MkStore
              (rewritten (P.id ex) (Legacy.update_patch c ex) (properties db))
              (priceHistory db ++ deltaEntries now ex c)
              (nextId db)))
  \/ (findUnique (C.source c) (C.sourceId c) db = None
      /\ Earlier.processOne now (sm, db) c
         = (MkSummary (S (sum_created sm)) (sum_updated sm) (sum_errors sm),
            MkStore (properties db ++ [Legacy.saved_row c (nextId db)])
                    (priceHistory db ++ hintEntries (nextId db) c)
                    (S (nextId db)))).
Proof.
  unfold Earlier.processOne, Legacy.saveProperty, create.
  cbn [Legacy.saved_row P.source P.sourceId].
  destruct (findUnique (C.source c) (C.sourceId c) db) as [ex|] eqn:E.
  - left. exists ex. split; [reflexivity|].
    change (String.eqb "P2002" "P2002") with true. cbv iota.
    unfold Legacy.updateProperty. rewrite E. unfold deltaEntries.
    destruct (P.price ex =? C.price c)%Z; cbn [negb].
    + rewrite app_nil_r. reflexivity.
    + reflexivity.
  - right. split; [reflexivity|]. unfold hintEntries.
    destruct (C.priceChange c).
    + reflexivity.
    + rewrite app_nil_r. reflexivity.
Qed.

Lemma earlier_loop_accounting (now : Date) (cs : list C.t) :
  forall sm db,
    let out := fold_left (Earlier.processOne now) cs (sm, db) in
    sum_errors (fst out) = sum_errors sm
    /\ (sum_created (fst out) + sum_updated (fst out)
        = sum_created sm + sum_updated sm + List.length cs)%nat
    /\ (List.length (properties (snd out)) + sum_created sm
        = List.length (properties db) + sum_created (fst out))%nat.
Proof.
  induction cs as [|c cs IH]; intros sm db.
  - cbn [fold_left fst snd List.length]. repeat split; lia.
  - cbn [fold_left List.length].
    destruct (earlier_cases now sm db c) as [(ex & _ & E)|[_ E]];
      rewrite E; clear E;
      match goal with
      | |- context [fold_left _ cs (?s, ?d)] =>
          specialize (IH s d); cbv zeta in IH;
          destruct (fold_left (Earlier.processOne now) cs (s, d))
            as [sm' db']
      end;
      cbn [fst snd sum_created sum_updated sum_errors properties] in *;
      destruct IH as (He & Hn & Hl);
      try rewrite rewritten_length in Hl; try rewrite length_app in Hl;
      cbn [List.length] in Hl; repeat split; try assumption; lia.
Qed.

(** X16.  The earlier processor (create first, update on a key conflict)
    balances its books in the same way.  When every listing can be
    stored no listing is reported as failed: a creation fails on a key
    conflict only, and the update that follows a key conflict finds the
    row that caused it.  Every listing is then counted once, as created
    or as updated, and the table grows by the number reported as
    created. *)
Theorem earlier_batch_accounting (now : Date) (year : Z) (db : Store) :
  (forall mails,
      forallb storable (fetchPropertyEmails year mails) = true ->
      let out := Earlier.processPropertyEmails now year (Returns mails) db in
      sum_errors (fst out) = []
      /\ (sum_created (fst out) + sum_updated (fst out)
          = List.length (fetchPropertyEmails year mails))%nat
      /\ (List.length (properties (snd out))
          = List.length (properties db) + sum_created (fst out))%nat)
  /\ (forall c ex,
        storable c = true ->
        findUnique (C.source c) (C.sourceId c) db = Some ex ->
        Legacy.saveProperty c db = Throws "P2002"
        /\ exists db', Legacy.updateProperty now c db = Returns db')
  /\ (forall e,
        Earlier.processPropertyEmails now year (Throws e) db
        = (MkSummary 0 0 [("Error fetching emails: " ++ e)%string], db)).
Proof.
  split; [|split; [|reflexivity]].
  - intros mails _. cbv zeta.
    unfold Earlier.processPropertyEmails, Earlier.processProperties.
    pose proof (earlier_loop_accounting now (fetchPropertyEmails year mails)
                  (MkSummary 0 0 []) db) as H.
    cbv zeta in H. cbn [sum_created sum_updated sum_errors] in H.
    destruct H as (He & Hn & Hl). repeat split; [exact He | lia | lia].
  - intros c ex _ Hf. split.
    + unfold Legacy.saveProperty, create.
      cbn [Legacy.saved_row P.source P.sourceId]. rewrite Hf. reflexivity.
    + unfold Legacy.updateProperty. rewrite Hf. eexists. reflexivity.
Qed.

Lemma earlier_batch_accounting_witness :
  let mails := [priceCutMail; linkedTwiceMail] in
  let out :=
    Earlier.processPropertyEmails (Instant 1) 2025 (Returns mails)
      emptyStore in
  forallb storable (fetchPropertyEmails 2025 mails) = true
  /\ sum_errors (fst out) = []
  /\ (sum_created (fst out) + sum_updated (fst out) = 3)%nat
  /\ List.length (properties (snd out)) = 1%nat.
Proof.
  intros mails out.
  assert (H : forallb storable (fetchPropertyEmails 2025 mails) = true)
    by (vm_compute; reflexivity).
  split; [exact H|].
  destruct (proj1 (earlier_batch_accounting (Instant 1) 2025 emptyStore)
              mails H) as (He & Hn & Hl).
  split; [exact He|]. split; [exact Hn|].
  vm_compute. reflexivity.
Defined.

(** X17.  The earlier [updateProperty] fails exactly when no row has the
    candidate's (source, sourceId).  When it succeeds no row has moved:
    every row keeps its primary key, its address, zip code and county,
    and its source, listing id and link; and the history is the old one
    followed by at most one row. *)
Theorem earlier_update_keeps_placement (now : Date) (c : C.t) (db : Store) :
  (findUnique (C.source c) (C.sourceId c) db = None
   /\ Legacy.updateProperty now c db = Throws "Property not found for update")
  \/ (exists ex db',
        findUnique (C.source c) (C.sourceId c) db = Some ex
        /\ Legacy.updateProperty now c db = Returns db'
        /\ map placement (properties db') = map placement (properties db)
        /\ priceHistory db' = priceHistory db ++ deltaEntries now ex c
        /\ nextId db' = nextId db).
Proof.
  unfold Legacy.updateProperty.
  destruct (findUnique (C.source c) (C.sourceId c) db) as [ex|] eqn:E;
    [right | left; split; reflexivity].
  exists ex. eexists. split; [reflexivity|]. split; [reflexivity|].
  unfold deltaEntries.
  assert (Hrows : map placement
                    (properties
                       (update (P.id ex) (Legacy.update_patch c ex) db))
                  = map placement (properties db)).
  { unfold update. cbn [properties]. rewrite map_map. apply map_ext.
    intros p. destruct (P.id p =? P.id ex)%nat; reflexivity. }
  destruct (P.price ex =? C.price c)%Z; cbn [negb].
  - split; [exact Hrows|]. split; [|reflexivity].
    cbn [update priceHistory]. rewrite app_nil_r. reflexivity.
  - split; [exact Hrows|]. split; reflexivity.
Qed.

(** *** Where the two processors agree *)








End EarlierFacts.

(* ====================================================================== *)
(** ** The price of a candidate *)
(* ====================================================================== *)

Module PriceFacts.
Import Str Regex Utils Parser Processor Pipeline Props Invariants Samples.
Import AddressFacts ParserShape ExtractorFacts.

(** A greedy star over a character class takes the longest run. *)
Lemma run_star_chr (p : ascii -> bool) (st : mstate) :
  run (Star (Chr p)) st Some
  = Some (MState (rev (take_while p (after st)) ++ before st)
                 (drop_while p (after st)) (caps st)).
Proof.
  cbn [run].
  match goal with
  | |- ?loop (List.length (after st)) st = _ =>
      assert (H : forall n s, (List.length (after s) <= n)%nat ->
                loop n s
                = Some (MState (rev (take_while p (after s)) ++ before s)
                          (drop_while p (after s)) (caps s)))
  end.
  { induction n as [|n IH]; intros [b a cs] Hn; cbn [after before caps] in *.
    - destruct a; [reflexivity | cbn [List.length] in Hn; lia].
    - destruct a as [|c rest]; [reflexivity|].
      cbn [take_while drop_while]. destruct (p c) eqn:E; [|reflexivity].
      cbn [after List.length].
      replace (List.length rest <? S (List.length rest))%nat with true
        by (symmetry; apply Nat.ltb_lt; lia).
      rewrite IH by (cbn [after List.length] in *; lia).
      cbn [after before caps rev]. rewrite <- app_assoc. reflexivity. }
  apply H. lia.
Qed.

(** [/\$[\d,]+/] tried at one position. *)
Lemma run_price_re (pre s : list ascii) :
  run price_re (MState pre s []) Some
  = match s with
    | d :: c :: rest =>
        if Ascii.eqb "$" d && amountChar c
        then Some (MState (rev (take_while amountChar (c :: rest)) ++ d :: pre)
                     (drop_while amountChar (c :: rest)) [])
        else None
    | _ => None
    end.
Proof.
  unfold price_re, Plus, ch. cbn [seqs].
  change (Chr (fun c => is_digit c || Ascii.eqb c ","))
    with (Chr amountChar).
  cbn [run after before caps].
  destruct s as [|d [|c rest]]; [reflexivity| |].
  - destruct (Ascii.eqb "$" d); reflexivity.
  - destruct (Ascii.eqb "$" d); [|reflexivity]. cbn [andb].
    destruct (amountChar c) eqn:E; [|reflexivity].
    pose proof (run_star_chr amountChar (MState (c :: d :: pre) rest []))
      as H.
    cbn [run after before caps] in H. rewrite H.
    cbn [take_while drop_while]. rewrite E. cbn [rev].
    rewrite <- app_assoc. reflexivity.
Qed.

Lemma search_price_re (s : list ascii) :
  forall pre e start,
    search_from price_re pre s = Some (start, e) ->
    exists skipped c rest,
      s = skipped ++ "$"%char :: c :: rest
      /\ amountChar c = true
      /\ start = rev skipped ++ pre
      /\ e = MState (rev (take_while amountChar (c :: rest))
                       ++ "$"%char :: start)
                    (drop_while amountChar (c :: rest)) []
      /\ forall a x b,
           skipped = a ++ "$"%char :: x :: b -> amountChar x = false.
Proof.
  induction s as [|d s IH]; intros pre e start H.
  - cbn [search_from] in H. rewrite run_price_re in H. discriminate H.
  - cbn [search_from] in H. rewrite run_price_re in H.
    destruct s as [|c rest].
    + cbn [search_from] in H. rewrite run_price_re in H. discriminate H.
    + destruct (Ascii.eqb "$" d && amountChar c) eqn:E.
      * injection H as <- <-. apply andb_true_iff in E.
        destruct E as [Ed Ec]. apply Ascii.eqb_eq in Ed. subst d.
        exists [], c, rest. repeat split; [exact Ec|].
        intros a x b Habs. destruct a; discriminate Habs.
      * destruct (IH _ _ _ H)
          as (sk & c' & rest' & Hs & Hc & Hst & He & Hleft).
        exists (d :: sk), c', rest'. rewrite Hs. cbn [rev app].
        rewrite <- app_assoc. repeat split; try assumption.
        intros a x b Hsplit. destruct a as [|d' a].
        -- cbn [app] in Hsplit. injection Hsplit as -> Hsk.
           rewrite Hsk in Hs. cbn [app] in Hs. injection Hs as -> _.
           rewrite Ascii.eqb_refl in E. exact E.
        -- cbn [app] in Hsplit. injection Hsplit as _ Hsk.
           exact (Hleft a x b Hsk).
Qed.

(** What [text.match(/\$[\d,]+/)] returns. *)
Lemma match0_price_re (text m : string) :
  match0 price_re text = Some m ->
  exists amount,
    m = str ("$"%char :: amount) /\ firstAmount (chars text) amount.
Proof.
  unfold match0, search. intros H.
  destruct (search_from price_re [] (chars text)) as [[start e]|] eqn:E;
    [|discriminate H].
  injection H as <-.
  destruct (search_price_re _ _ _ _ E)
    as (sk & c & rest & Hs & Hc & Hst & He & Hleft).
  exists (take_while amountChar (c :: rest)). split.
  - subst e start. unfold to_match. cbn [m_text before].
    rewrite app_nil_r.
    replace (List.length
               (rev (take_while amountChar (c :: rest)) ++ "$"%char :: rev sk)
             - List.length (rev sk))%nat
      with (List.length (rev (take_while amountChar (c :: rest))
                           ++ ["$"%char]))
      by (rewrite !length_app; cbn [List.length]; lia).
    replace (rev (take_while amountChar (c :: rest)) ++ "$"%char :: rev sk)
      with ((rev (take_while amountChar (c :: rest)) ++ ["$"%char])
              ++ rev sk)
      by (rewrite <- app_assoc; reflexivity).
    rewrite firstn_app, firstn_all, Nat.sub_diag. cbn [firstn].
    rewrite app_nil_r, rev_app_distr, rev_involutive. reflexivity.
  - exists sk, (drop_while amountChar (c :: rest)).
    split; [rewrite <- take_drop_while; exact Hs|].
    split; [cbn [take_while]; rewrite Hc; discriminate|].
    split; [|split; [|exact Hleft]].
    + clear. induction (c :: rest) as [|x l IH]; cbn [take_while];
        [constructor|].
      destruct (amountChar x) eqn:E; [constructor; assumption | constructor].
    + destruct (drop_while amountChar (c :: rest)) as [|x l] eqn:Ed;
        [exact I|]. exact (drop_while_head _ _ _ _ Ed).
Qed.

Lemma amount_priceText (amount : list ascii) :
  Forall (fun c => amountChar c = true) amount ->
  priceText (str ("$"%char :: amount)).
Proof.
  intros H. unfold priceText. rewrite chars_str.
  constructor; [right; left; reflexivity|].
  eapply Forall_impl; [|exact H]. intros c Hc. unfold amountChar in Hc.
  apply orb_true_iff in Hc. destruct Hc as [Hc|Hc]; [left; exact Hc|].
  right. right. apply Ascii.eqb_eq. exact Hc.
Qed.

(** The price read off a card. *)
Lemma card_price (text m : string) :
  match0 price_re text = Some m ->
  exists amount,
    firstAmount (chars text) amount
    /\ ((1 <= List.length (filter is_digit amount) <= 15)%nat ->
        parsePrice m = digits_val (filter is_digit amount)).
Proof.
  intros H. destruct (match0_price_re text m H) as (amount & -> & Hfirst).
  exists amount. split; [exact Hfirst|]. intros _.
  destruct Hfirst as (sk & rest & _ & _ & Hall & _).
  pose proof (amount_priceText amount Hall) as Hpt.
  unfold parsePrice, parseInt, one_of.
  rewrite replace_all_chr, chars_str, (priceText_digits _ Hpt), chars_str.
  rewrite take_while_all
    by (apply Forall_forall; intros c Hc; apply filter_In in Hc; apply Hc).
  reflexivity.
Qed.

Ltac priced :=
  right; eexists; split; [reflexivity|];
  split; [reflexivity|];
  refine (ex_intro _ _ (conj _ eq_refl)); first [assumption | reflexivity].

Lemma zillowAnchor_price (source : string) (st : Seen) (a : Anchor) :
  fst (zillowAnchor source st a) = fst st
  \/ exists c,
       fst (zillowAnchor source st a) = fst st ++ [c]
       /\ (href a = Some (C.url c)
           /\ exists m,
                match0 price_re (card_text (closestTable a)) = Some m
                /\ C.price c = parsePrice m).
Proof.
  destruct st as [properties seenUrls]. unfold zillowAnchor. cbn [fst].
  walk; priced.
Qed.

Lemma realtorAnchor_price (source : string) (st : Seen) (a : Anchor) :
  fst (realtorAnchor source st a) = fst st
  \/ exists c,
       fst (realtorAnchor source st a) = fst st ++ [c]
       /\ (href a = Some (C.url c)
           /\ exists m,
                match0 price_re (card_text (closestTable a)) = Some m
                /\ C.price c = parsePrice m).
Proof.
  destruct st as [properties seenUrls]. unfold realtorAnchor. cbn [fst].
  walk; priced.
Qed.

Lemma redfinAnchor_price (year : Z) (source : string) (properties : list C.t)
    (a : Anchor) :
  redfinAnchor year source properties a = properties
  \/ exists c,
       redfinAnchor year source properties a = properties ++ [c]
       /\ (href a = Some (C.url c)
           /\ exists m,
                match0 price_re (card_text (closestBlock a)) = Some m
                /\ C.price c = parsePrice m).
Proof. unfold redfinAnchor. walk; priced. Qed.

Lemma landAnchor_price (source : string) (properties : list C.t)
    (a : Anchor) :
  landAnchor source properties a = properties
  \/ exists c,
       landAnchor source properties a = properties ++ [c]
       /\ (href a = Some (C.url c)
           /\ exists m,
                match0 price_re (card_text (closestBlock a)) = Some m
                /\ C.price c = parsePrice m).
Proof. unfold landAnchor. walk; priced. Qed.

Lemma priced_from (card : Anchor -> option Card) (needles : list string)
    (doc : Document) (cs : list C.t) :
  Forall (fun c => exists a,
            In a (select needles doc)
            /\ (href a = Some (C.url c)
                /\ exists m,
                     match0 price_re (card_text (card a)) = Some m
                     /\ C.price c = parsePrice m)) cs ->
  Forall (pricedFrom card doc) cs.
Proof.
  intros H. eapply Forall_impl; [|exact H].
  intros c (a & Ha & Hhref & m & Hm & Hprice).
  destruct (card_price _ _ Hm) as (amount & Hfirst & Hval).
  exists a, amount. split; [apply (select_In _ _ _ Ha)|].
  split; [exact Hhref|]. split; [exact Hfirst|].
  intros Hn. rewrite Hprice. apply Hval. exact Hn.
Qed.

(** X22.  Where a candidate's price comes from.  In each of the four
    parsers the price of a candidate is read off the card of its own
    anchor (the enclosing table for Zillow and Realtor, the enclosing
    table, div or cell for Redfin and Land): it is the number spelled by
    the digits of the leftmost dollar amount of the card's text, a [$]
    followed by as many digits and commas as follow it. *)
Theorem candidate_prices (year : Z) (doc : Document) (source : string) :
  Forall (pricedFrom closestTable doc) (parseZillowEmail doc source)
  /\ Forall (pricedFrom closestBlock doc) (parseRedfinEmail year doc source)
  /\ Forall (pricedFrom closestTable doc) (parseRealtorEmail doc source)
  /\ Forall (pricedFrom closestBlock doc) (parseLandEmail doc source).
Proof.
  split; [|split; [|split]].
  - apply (priced_from closestTable ["zillow.com"]). unfold parseZillowEmail.
    apply (loop_from_nothing Seen fst (zillowAnchor source) _
             (zillowAnchor_price source) _ ([], []) eq_refl).
  - apply (priced_from closestBlock ["redfin.com"]). unfold parseRedfinEmail.
    apply (loop_from_nothing (list C.t) (fun l => l)
             (redfinAnchor year source) _
             (redfinAnchor_price year source) _ [] eq_refl).
  - apply (priced_from closestTable ["realtor.com"; "move.com"]).
    unfold parseRealtorEmail.
    apply (loop_from_nothing Seen fst (realtorAnchor source) _
             (realtorAnchor_price source) _ ([], []) eq_refl).
  - apply (priced_from closestBlock ["land.com"]). unfold parseLandEmail.
    apply (loop_from_nothing (list C.t) (fun l => l)
             (landAnchor source) _
             (landAnchor_price source) _ [] eq_refl).
Qed.

Lemma candidate_prices_example :
  exists c,
    parseRedfinEmail 2025 [priceCutLink] "redfin" = [c]
    /\ firstAmount (chars (card_text (closestBlock priceCutLink)))
                   (chars "120,000")
    /\ C.price c = 120000%Z.
Proof.
  eexists. split; [vm_compute; reflexivity|]. split; [|reflexivity].
  exists [], (chars (nl ++ "Price cut: $2K (11/5)" ++ nl
                     ++ "3 Beds | 2 Baths | 1,075 Sq. Ft." ++ nl
                     ++ "8007 Broadmead Ct, Spartanburg, SC 29307")).
  split; [reflexivity|]. split; [discriminate|].
  split; [vm_compute; repeat constructor|]. split; [reflexivity|].
  intros a c b H. destruct a; discriminate H.
Qed.

End PriceFacts.

(* ====================================================================== *)
(** ** Resolution, creation, and runs of the pipeline *)
(* ====================================================================== *)

Module RunFacts.
Import Str Utils Prisma Processor Parser Pipeline Props Invariants Runs Samples.
Import StoreFacts UpsertFacts Idempotence BatchFacts ParserShape.

(** *** Places *)

Lemma scan_class (c : C.t) (p : P.t) :
  scan c p = true <-> aclass p = cclass c.
Proof.
  unfold scan, equals_insensitive, same_address, aclass, cclass.
  rewrite !andb_true_iff, !String.eqb_eq. split.
  - intros [[H1 H2] H3]. rewrite H1, H2, H3. reflexivity.
  - intros H. injection H as H1 H2 H3. auto.
Qed.

Lemma scan_false_class (c : C.t) (p : P.t) :
  scan c p = false <-> aclass p <> cclass c.
Proof.
  rewrite <- scan_class. destruct (scan c p); split; congruence.
Qed.

Lemma same_place_class (k c : C.t) :
  same_place k c = true <-> cclass c = cclass k.
Proof.
  unfold same_place, equals_insensitive, cclass.
  rewrite !andb_true_iff, !String.eqb_eq. split.
  - intros [[H1 H2] H3]. rewrite H1, H2, H3. reflexivity.
  - intros H. injection H as H1 H2 H3. auto.
Qed.

Lemma same_place_false (k c : C.t) :
  same_place k c = false <-> cclass c <> cclass k.
Proof.
  rewrite <- same_place_class. destruct (same_place k c); split; congruence.
Qed.

Lemma same_identity_key (k c : C.t) :
  same_identity k c = true <-> ckey c = ckey k.
Proof.
  unfold same_identity, ckey. rewrite andb_true_iff, !String.eqb_eq. split.
  - intros [H1 H2]. rewrite H1, H2. reflexivity.
  - intros H. injection H as H1 H2. auto.
Qed.

Lemma consistentb_sound (cs : list C.t) :
  consistentb cs = true -> consistent cs.
Proof.
  unfold consistentb, consistent. rewrite forallb_forall.
  intros H c c' Hc Hc'. specialize (H c' Hc').
  rewrite forallb_forall in H. specialize (H c Hc).
  apply andb_true_iff in H. destruct H as [H1 H2]. split.
  - intros Hk. apply same_place_class.
    apply (proj2 (same_identity_key c' c)) in Hk.
    rewrite Hk, implb_true_l in H1. exact H1.
  - intros Ha. apply (proj2 (same_place_class c' c)) in Ha.
    rewrite Ha, implb_true_l in H2. apply Z.eqb_eq in H2.
    symmetry. exact H2.
Qed.

Lemma aclass_data_row (c : C.t) (id : nat) : aclass (data_row c id) = cclass c.
Proof. reflexivity. Qed.

Lemma aclass_data_patch (c : C.t) (ex row : P.t) :
  aclass (data_patch c ex row) = cclass c.
Proof. reflexivity. Qed.

Lemma key_data_row (c : C.t) (id : nat) : key (data_row c id) = ckey c.
Proof. reflexivity. Qed.





(** *** The resolution on a tidy table *)

Lemma resolved_place (cs : list C.t) (c : C.t) (db : Store) (ex : P.t) :
  tidy cs db -> In c cs -> findExisting c db = Some ex ->
  In ex (properties db) /\ aclass ex = cclass c.
Proof.
  intros [_ Ht] Hc He. pose proof (findExisting_In _ _ _ He) as Hin.
  split; [exact Hin|].
  destruct (findExisting_key _ _ _ He) as [Hk|Hn].
  - apply (Ht ex c Hin Hc Hk).
  - rewrite (findExisting_scan c db Hn) in He.
    apply find_some in He. apply scan_class. apply He.
Qed.

Lemma unresolved_place (c : C.t) (db : Store) :
  findExisting c db = None ->
  forall q, In q (properties db) -> key q <> ckey c /\ aclass q <> cclass c.
Proof.
  intros He q Hq. pose proof (findExisting_none_identity _ _ He) as Hn.
  split; [apply (findUnique_none _ _ _ Hn q Hq)|].
  rewrite (findExisting_scan c db Hn) in He.
  apply scan_false_class. apply (find_none _ _ He q Hq).
Qed.

Lemma scan_at (c : C.t) (q q' : P.t) :
  aclass q = aclass q' -> scan c q = scan c q'.
Proof.
  intros H. destruct (scan c q') eqn:E.
  - apply scan_class. rewrite H. apply scan_class. exact E.
  - apply scan_false_class. rewrite H. apply scan_false_class. exact E.
Qed.


Lemma atBatch_at (cs : list C.t) (q q' : P.t) :
  aclass q = aclass q' -> atBatch cs q = atBatch cs q'.
Proof.
  intros H. unfold atBatch. induction cs as [|c cs IH]; [reflexivity|].
  cbn [existsb]. rewrite IH, (scan_at c q q' H). reflexivity.
Qed.

Lemma atBatch_place (cs : list C.t) (c : C.t) (q : P.t) :
  In c cs -> aclass q = cclass c -> atBatch cs q = true.
Proof.
  intros Hc Ha. unfold atBatch. apply existsb_exists. exists c.
  split; [exact Hc|]. apply scan_class. exact Ha.
Qed.

(** The row at the place of a listing of the batch. *)
Lemma the_row_at (cs : list C.t) (c : C.t) (db : Store) (r1 r2 : P.t) :
  tidy cs db -> In c cs ->
  In r1 (properties db) -> In r2 (properties db) ->
  aclass r1 = cclass c -> aclass r2 = cclass c -> r1 = r2.
Proof.
  intros [Hnd _] Hc H1 H2 Ha1 Ha2.
  apply (NoDup_map_inj aclass (filter (atBatch cs) (properties db)));
    try assumption.
  - apply filter_In. split; [exact H1|apply (atBatch_place cs c r1 Hc Ha1)].
  - apply filter_In. split; [exact H2|apply (atBatch_place cs c r2 Hc Ha2)].
  - congruence.
Qed.

Lemma resolves_to_place (cs : list C.t) (c : C.t) (db : Store) (row : P.t) :
  tidy cs db -> In c cs -> In row (properties db) ->
  aclass row = cclass c -> findExisting c db = Some row.
Proof.
  intros Ht Hc Hin Ha.
  destruct (findExisting c db) as [ex|] eqn:He.
  - destruct (resolved_place cs c db ex Ht Hc He) as [Hex Hax].
    f_equal. apply (the_row_at cs c db ex row Ht Hc); assumption.
  - exfalso. apply (proj2 (unresolved_place c db He row Hin)). exact Ha.
Qed.

(** *** One upsert on a tidy table *)

Lemma tidy_empty (cs : list C.t) : tidy cs emptyStore.
Proof. split; [constructor|intros q c []]. Qed.



Lemma map_replace {A B} (f : A -> B) (l1 l2 : list A) (x y : A) :
  f y = f x -> map f (l1 ++ y :: l2) = map f (l1 ++ x :: l2).
Proof. intros H. rewrite !map_app. cbn [map]. rewrite H. reflexivity. Qed.

Lemma places_replace (cs : list C.t) (l1 l2 : list P.t) (x y : P.t) :
  aclass y = aclass x ->
  map aclass (filter (atBatch cs) (l1 ++ y :: l2))
  = map aclass (filter (atBatch cs) (l1 ++ x :: l2)).
Proof.
  intros H. rewrite !filter_app, !map_app. f_equal. cbn [filter].
  rewrite (atBatch_at cs y x H). destruct (atBatch cs x); [|reflexivity].
  cbn [map]. rewrite H. reflexivity.
Qed.

(** What one upsert of a listing of the batch does to a tidy table. *)
Lemma upsert_on_tidy (now : Date) (cs : list C.t) (c0 : C.t) (db : Store) :
  wf db -> tidy cs db -> consistent cs -> In c0 cs ->
  exists r db',
    upsertProperty now c0 db = Returns (r, db')
    /\ wf db' /\ tidy cs db'
    /\ ((exists ex l1 l2,
            findExisting c0 db = Some ex /\ aclass ex = cclass c0
            /\ r = updated
            /\ properties db = l1 ++ ex :: l2
            /\ properties db' = l1 ++ data_patch c0 ex ex :: l2
            /\ priceHistory db' = priceHistory db ++ deltaEntries now ex c0
            /\ nextId db' = nextId db)
        \/ (findExisting c0 db = None /\ r = created
            /\ (forall q, In q (properties db) -> aclass q <> cclass c0)
            /\ properties db' = properties db ++ [data_row c0 (nextId db)]
            /\ priceHistory db' = priceHistory db ++ hintEntries (nextId db) c0
            /\ nextId db' = S (nextId db))).
Proof.
  intros Hwf Ht Hcs Hc0.
  destruct (upsert_returns now c0 db) as (r & db' & Hu).
  exists r, db'. split; [exact Hu|].
  split; [apply (upsert_wf now c0 db db' r Hwf Hu)|].
  destruct (findExisting c0 db) as [ex|] eqn:He.
  - rewrite (upsert_existing now c0 db ex He) in Hu.
    injection Hu as <- <-.
    destruct (update_existing c0 db ex Hwf He) as (l1 & l2 & Hs & Hs' & Hk).
    destruct (resolved_place cs c0 db ex Ht Hc0 He) as [Hin Ha].
    assert (Hrows : forall q, In q (l1 ++ data_patch c0 ex ex :: l2) ->
                      q = data_patch c0 ex ex \/ In q (properties db)).
    { intros q Hq. rewrite Hs. rewrite in_app_iff in *. cbn [In] in *.
      destruct Hq as [Hq|[Hq|Hq]]; auto. }
    split.
    + destruct Ht as [Hnd Hp]. split; cbn [properties]; rewrite Hs'.
      * rewrite (places_replace cs l1 l2 ex).
        -- rewrite <- Hs. exact Hnd.
        -- rewrite aclass_data_patch. symmetry. exact Ha.
      * intros q c Hq Hc Hkq. destruct (Hrows q Hq) as [->|Hq'].
        -- rewrite aclass_data_patch. rewrite data_patch_key in Hkq.
           apply (Hcs c0 c Hc0 Hc). exact Hkq.
        -- apply (Hp q c Hq' Hc Hkq).
    + left. exists ex, l1, l2. cbn [properties priceHistory nextId].
      repeat split; assumption.
  - rewrite (upsert_new now c0 db He) in Hu. injection Hu as <- <-.
    pose proof (unresolved_place c0 db He) as Hno.
    split.
    + destruct Ht as [Hnd Hp]. split; cbn [properties].
      * rewrite filter_app, map_app. cbn [filter].
        rewrite (atBatch_place cs c0 _ Hc0 (aclass_data_row c0 (nextId db))).
        cbn [map]. rewrite aclass_data_row.
        apply (Permutation_NoDup (Permutation_cons_append _ _)).
        constructor; [|exact Hnd].
        intros Hin. apply in_map_iff in Hin. destruct Hin as (q & Hq & Hin).
        apply filter_In in Hin.
        apply (proj2 (Hno q (proj1 Hin))). exact Hq.
      * intros q c Hq Hc Hkq. apply in_app_iff in Hq.
        destruct Hq as [Hq|[<-|[]]].
        -- apply (Hp q c Hq Hc Hkq).
        -- rewrite aclass_data_row. rewrite key_data_row in Hkq.
           apply (Hcs c0 c Hc0 Hc). exact Hkq.
    + right. cbn [properties priceHistory nextId].
      repeat split; try reflexivity. intros q Hq. apply (Hno q Hq).
Qed.

(** *** Resolution and creation *)

Lemma no_identity (c : C.t) (db : Store) :
  (forall q, In q (properties db) -> key q <> ckey c) ->
  findUnique (C.source c) (C.sourceId c) db = None.
Proof.
  intros H. unfold findUnique. apply find_all_false.
  intros q Hq. apply has_identity_false. apply (H q Hq).
Qed.

Lemma unmatched (c : C.t) (db : Store) :
  (forall q, In q (properties db) -> key q <> ckey c /\ aclass q <> cclass c) ->
  findExisting c db = None.
Proof.
  intros H.
  rewrite findExisting_scan
    by (apply no_identity; intros q Hq; apply (H q Hq)).
  apply find_all_false. intros q Hq. apply scan_false_class. apply (H q Hq).
Qed.




(** C5.  A candidate that no row stands for, by identity or by place, and
    whose numbers the columns hold as they are, is created: the table
    gets one new row, under a fresh primary key, that holds the
    candidate field by field (its address, identity, link,
    price, beds, sqft and images; baths and lot size unless zero; the
    status classified from the status text, ACTIVE without one; the
    property type, HOME without one; county, year built, builder, agent
    and description empty).  A backdated history row
    [oldPrice = price + hint.amount], [newPrice = price],
    [changeDate = hint.date] is written for the new row exactly when the
    candidate carries a price-change hint; without a hint the history is
    left as it was. *)
Theorem create_synthesizes_hint_entry (now : Date) (c : C.t) (db : Store) :
  storable c = true -> unrounded c = true ->
  (forall q, In q (properties db) ->
     key q <> ckey c /\ aclass q <> cclass c) ->
  exists db' row,
    upsertProperty now c db = Returns (created, db')
    /\ properties db' = properties db ++ [row]
    /\ nextId db' = S (nextId db)
    /\ P.id row = nextId db
    /\ (P.street row, P.city row, P.state row, P.zip row)
       = (C.street c, C.city c, C.state c, C.zip c)
    /\ (P.source row, P.sourceId row, P.url row)
       = (C.source c, C.sourceId c, C.url c)
    /\ P.price row = C.price c
    /\ P.status row
       = match C.status c with
         | Some s => if is_empty s then ACTIVE else mapStatus s
         | None => ACTIVE
         end
    /\ P.propertyType row
       = match C.propertyType c with Some t => t | None => HOME end
    /\ (P.beds row, P.sqft row, P.images row)
       = (C.beds c, C.sqft c, C.images c)
    /\ P.baths row
       = match C.baths c with
         | Some b => if (mantissa b =? 0)%Z then None else Some b
         | None => None
         end
    /\ P.lotSize row
       = match C.lotSize c with
         | Some a => if (mantissa a =? 0)%Z then None else Some a
         | None => None
         end
    /\ (P.county row, P.yearBuilt row, P.builder row, P.agent row,
        P.description row) = (None, None, None, None, None)
    /\ (forall pc, C.priceChange c = Some pc ->
        priceHistory db'
        = priceHistory db
            ++ [PriceHistory.Make (nextId db) (C.price c + amount pc)%Z
                  (C.price c) (date pc)])
    /\ (C.priceChange c = None -> priceHistory db' = priceHistory db).
Proof.
  intros _ _ Hno. rewrite (upsert_new now c db (unmatched c db Hno)).
  eexists _, _. split; [reflexivity|].
  cbn [properties priceHistory nextId].
  split; [reflexivity|]. split; [reflexivity|].
  cbn [data_row P.id P.street P.city P.state P.zip P.source P.sourceId P.url
       P.price P.status P.propertyType P.beds P.sqft P.images P.baths
       P.lotSize P.county P.yearBuilt P.builder P.agent P.description].
  split; [reflexivity|]. split; [reflexivity|]. split; [reflexivity|].
  split; [reflexivity|]. split.
  { unfold data_status, truthy_string.
    destruct (C.status c) as [s|]; [destruct (is_empty s)|]; reflexivity. }
  split; [reflexivity|]. split; [reflexivity|]. split.
  { unfold truthy_decimal, decimal_truthy.
    destruct (C.baths c) as [b|]; [destruct (mantissa b =? 0)%Z|];
      reflexivity. }
  split.
  { unfold truthy_decimal, decimal_truthy.
    destruct (C.lotSize c) as [b|]; [destruct (mantissa b =? 0)%Z|];
      reflexivity. }
  split; [reflexivity|]. split.
  - intros pc Hpc. unfold hintEntries. rewrite Hpc. reflexivity.
  - intros Hpc. unfold hintEntries. rewrite Hpc. apply app_nil_r.
Qed.

Lemma create_synthesizes_hint_entry_witness :
  storable priceCut = true /\ unrounded priceCut = true
  /\ (forall q, In q (properties oneListing) ->
     key q <> ckey priceCut /\ aclass q <> cclass priceCut)
  /\ exists db' row,
       upsertProperty (Instant 7) priceCut oneListing
       = Returns (created, db')
       /\ properties db' = properties oneListing ++ [row]
       /\ P.id row = 1%nat
       /\ key row = ("redfin", "12345678")
       /\ P.price row = 120000%Z
       /\ P.status row = ACTIVE
       /\ P.propertyType row = HOME
       /\ P.baths row = Some (MkDecimal 2 0)
       /\ priceHistory db'
          = [PriceHistory.Make 1 122000 120000 (LocalDay 2025 10 5)].
Proof.
  assert (H : forall q, In q (properties oneListing) ->
                key q <> ckey priceCut /\ aclass q <> cclass priceCut).
  { intros q [<-|[]]; split; intros H; vm_compute in H; discriminate H. }
  assert (S1 : storable priceCut = true) by (vm_compute; reflexivity).
  assert (S2 : unrounded priceCut = true) by (vm_compute; reflexivity).
  split; [exact S1|]. split; [exact S2|]. split; [exact H|].
  destruct (create_synthesizes_hint_entry (Instant 7) priceCut oneListing
              S1 S2 H)
    as (db' & row & Hu & Hrows & _ & Hid & _ & Hk & Hp & Hs & Ht & _ & Hb
        & _ & _ & Hh & _).
  exists db', row. split; [exact Hu|]. split; [exact Hrows|].
  split; [exact Hid|].
  split; [injection Hk as Hk1 Hk2 _; unfold key; rewrite Hk1, Hk2;
          reflexivity|].
  split; [exact Hp|]. split; [exact Hs|]. split; [exact Ht|].
  split; [exact Hb|]. exact (Hh _ eq_refl).
Defined.

(** *** Runs on a tidy table *)

Lemma processOne_returns (now : Date) (sm : Summary) (db db' : Store)
    (c : C.t) (r : UpsertResult) :
  upsertProperty now c db = Returns (r, db') ->
  processOne now (sm, db) c
  = (match r with
     | created =>
         MkSummary (S (sum_created sm)) (sum_updated sm) (sum_errors sm)
     | updated =>
         MkSummary (sum_created sm) (S (sum_updated sm)) (sum_errors sm)
     end, db').
Proof. intros Hu. unfold processOne. rewrite Hu. destruct r; reflexivity. Qed.

(** The prices of the places after one upsert: the place of the listing
    is at the price of the listing, the others are as they were, and no
    row changes its primary key or its place. *)
Lemma upsert_prices (now : Date) (cs : list C.t) (c0 : C.t) (db : Store) :
  wf db -> tidy cs db -> consistent cs -> In c0 cs ->
  exists r db',
    upsertProperty now c0 db = Returns (r, db')
    /\ wf db' /\ tidy cs db'
    /\ priced db' (cclass c0) (C.price c0)
    /\ (forall a p, a <> cclass c0 -> priced db a p -> priced db' a p)
    /\ (forall row, In row (properties db) ->
          exists row',
            In row' (properties db') /\ P.id row' = P.id row
            /\ aclass row' = aclass row)
    /\ (forall row, In row (properties db) -> aclass row = cclass c0 ->
          r = updated
          /\ priceHistory db' = priceHistory db ++ deltaEntries now row c0
          /\ map P.id (properties db') = map P.id (properties db)
          /\ nextId db' = nextId db).
Proof.
  intros Hwf Ht Hcs Hc0.
  destruct (upsert_on_tidy now cs c0 db Hwf Ht Hcs Hc0)
    as (r & db' & Hu & Hwf' & Ht' & Hcase).
  exists r, db'. split; [exact Hu|]. split; [exact Hwf'|].
  split; [exact Ht'|].
  destruct Hcase as [(ex & l1 & l2 & He & Ha & -> & Hs & Hs' & Hh & Hn)
                    |(He & -> & Hno & Hs' & Hh & Hn)].
  - assert (Hex : In ex (properties db))
      by (rewrite Hs; apply in_elt).
    split; [|split; [|split]].
    + exists (data_patch c0 ex ex). rewrite Hs'.
      split; [apply in_elt|]. split; reflexivity.
    + intros a p Hne (row & Hin & Hra & Hrp). exists row.
      split; [|split; assumption].
      rewrite Hs in Hin. rewrite Hs'. rewrite in_app_iff in *.
      cbn [In] in *. destruct Hin as [Hin|[Hin|Hin]]; auto.
      exfalso. apply Hne. rewrite <- Hra, <- Hin. exact Ha.
    + intros row Hin. rewrite Hs in Hin. apply in_app_iff in Hin.
      cbn [In] in Hin. destruct Hin as [Hin|[<-|Hin]].
      * exists row. rewrite Hs'. rewrite in_app_iff. auto.
      * exists (data_patch c0 ex ex). rewrite Hs'.
        split; [apply in_elt|]. rewrite data_patch_id, aclass_data_patch.
        auto.
      * exists row. rewrite Hs'. rewrite in_app_iff. cbn [In]. auto.
    + intros row Hin Hra.
      assert (row = ex) as ->
        by (apply (the_row_at cs c0 db); assumption).
      split; [reflexivity|]. split; [exact Hh|]. split; [|exact Hn].
      rewrite Hs, Hs'. apply map_replace. apply data_patch_id.
  - split; [|split; [|split]].
    + exists (data_row c0 (nextId db)). rewrite Hs'.
      split; [apply in_elt|]. split; reflexivity.
    + intros a p _ (row & Hin & Hra & Hrp). exists row.
      split; [|split; assumption]. rewrite Hs'. apply in_app_iff. auto.
    + intros row Hin. exists row. rewrite Hs'. rewrite in_app_iff. auto.
    + intros row Hin Hra. exfalso. apply (Hno row Hin). exact Hra.
Qed.

(** A run on a tidy table: when it is over, every listing of the batch
    has its place at its price. *)
Lemma run_prices (now : Date) (cs : list C.t) :
  consistent cs ->
  forall todo done sm db,
    incl todo cs -> incl done cs -> wf db -> tidy cs db ->
    (forall c, In c done -> priced db (cclass c) (C.price c)) ->
    let out := fold_left (processOne now) todo (sm, db) in
    wf (snd out) /\ tidy cs (snd out)
    /\ forall c, In c (done ++ todo) ->
         priced (snd out) (cclass c) (C.price c).
Proof.
  intros Hcs. induction todo as [|c0 todo IH];
    intros done sm db Hto Hdo Hwf Ht Hp; cbn [fold_left].
  - rewrite app_nil_r. cbn [snd]. auto.
  - assert (Hc0 : In c0 cs) by (apply Hto; left; reflexivity).
    destruct (upsert_prices now cs c0 db Hwf Ht Hcs Hc0)
      as (r & db' & Hu & Hwf' & Ht' & Hown & Hoth & _).
    rewrite (processOne_returns now sm db db' c0 r Hu).
    replace (done ++ c0 :: todo) with ((done ++ [c0]) ++ todo)
      by (rewrite <- app_assoc; reflexivity).
    apply IH.
    + intros x Hx. apply Hto. right. exact Hx.
    + intros x Hx. apply in_app_iff in Hx. destruct Hx as [Hx|[<-|[]]];
        [apply Hdo; exact Hx|exact Hc0].
    + exact Hwf'.
    + exact Ht'.
    + intros c Hc. apply in_app_iff in Hc. destruct Hc as [Hc|[<-|[]]].
      * destruct (same_place c0 c) eqn:E.
        -- apply same_place_class in E. rewrite E.
           rewrite (proj2 (Hcs c c0 (Hdo c Hc) Hc0) E). exact Hown.
        -- apply same_place_false in E. apply Hoth; [exact E|].
           apply Hp. exact Hc.
      * exact Hown.
Qed.

Lemma moved_row (cs : list C.t) (k : C.t) (db' : Store) (row : P.t)
    (price : Z) :
  tidy cs db' -> In k cs -> aclass row = cclass k ->
  priced db' (cclass k) price ->
  (exists row',
      In row' (properties db') /\ P.id row' = P.id row
      /\ aclass row' = aclass row) ->
  exists row',
    In row' (properties db') /\ aclass row' = cclass k
    /\ P.id row' = P.id row /\ P.price row' = price.
Proof.
  intros Ht Hk Ha (r1 & Hin1 & Ha1 & Hp1) (r2 & Hin2 & Hid2 & Ha2).
  assert (r1 = r2) as ->
    by (apply (the_row_at cs k db'); congruence).
  exists r2. repeat split; congruence.
Qed.

(** A run during which one place moves to a new price: the first listing
    at that place writes the one history row, every listing is an
    update, and no row is added. *)
Lemma run_moving (now : Date) (cs : list C.t) (k : C.t) (p1 : Z) (id : nat) :
  consistent cs -> In k cs -> p1 <> C.price k ->
  forall todo moved sm db,
    incl todo cs -> movingTo cs k p1 id moved db ->
    let out := fold_left (processOne now) todo (sm, db) in
    let hit := existsb (same_place k) todo in
    movingTo cs k p1 id (moved || hit) (snd out)
    /\ priceHistory (snd out)
       = priceHistory db
         ++ (if negb moved && hit
             then [PriceHistory.Make id p1 (C.price k) now] else [])
    /\ map P.id (properties (snd out)) = map P.id (properties db)
    /\ nextId (snd out) = nextId db
    /\ fst out
       = MkSummary (sum_created sm) (sum_updated sm + List.length todo)
                   (sum_errors sm).
Proof.
  intros Hcs Hk Hne. induction todo as [|c0 todo IH];
    intros moved sm db Hto HJ out hit; subst out hit;
    cbn [fold_left existsb List.length].
  - rewrite orb_false_r, andb_false_r, app_nil_r, Nat.add_0_r.
    cbn [fst snd]. destruct sm. auto.
  - assert (Hc0 : In c0 cs) by (apply Hto; left; reflexivity).
    assert (Hto' : incl todo cs) by (intros x Hx; apply Hto; right; exact Hx).
    destruct HJ as (Hwf & Ht & Hoth & row & Hin & Hra & Hid & Hrp).
    destruct (upsert_prices now cs c0 db Hwf Ht Hcs Hc0)
      as (r & db' & Hu & Hwf' & Ht' & Hown & Hother & Hkeep & Hhit).
    rewrite (processOne_returns now sm db db' c0 r Hu).
    destruct (same_place k c0) eqn:E.
    + pose proof (proj1 (same_place_class k c0) E) as Hcl.
      pose proof (proj2 (Hcs c0 k Hc0 Hk) Hcl) as Hpr.
      destruct (Hhit row Hin (eq_trans Hra (eq_sym Hcl)))
        as (-> & Hh & Hids & Hn).
      assert (HJ' : movingTo cs k p1 id true db').
      { split; [exact Hwf'|]. split; [exact Ht'|]. split.
        - intros c Hc Ec. apply Hother; [|apply Hoth; assumption].
          apply same_place_false in Ec. congruence.
        - rewrite <- Hid. rewrite Hcl, Hpr in Hown.
          apply (moved_row cs k db' row (C.price k) Ht' Hk Hra Hown).
          apply Hkeep. exact Hin. }
      cbv iota.
      destruct (IH true
                  (MkSummary (sum_created sm) (S (sum_updated sm))
                             (sum_errors sm)) db' Hto' HJ')
        as (HJ2 & Hh2 & Hids2 & Hn2 & Hs2).
      cbn [orb negb andb] in HJ2, Hh2. rewrite app_nil_r in Hh2.
      rewrite orb_true_r, orb_true_l, andb_true_r.
      split; [exact HJ2|]. split; [|split; [|split]].
      * rewrite Hh2, Hh. unfold deltaEntries. rewrite Hrp, Hpr, Hid.
        destruct moved; cbn [negb].
        -- rewrite Z.eqb_refl, app_nil_r. reflexivity.
        -- rewrite (proj2 (Z.eqb_neq _ _) Hne). reflexivity.
      * rewrite Hids2. exact Hids.
      * rewrite Hn2. exact Hn.
      * rewrite Hs2. cbn [sum_created sum_updated sum_errors].
        f_equal. lia.
    + pose proof (proj1 (same_place_false k c0) E) as Hcl.
      destruct (Hoth c0 Hc0 E) as (row0 & Hin0 & Hra0 & Hrp0).
      destruct (Hhit row0 Hin0 Hra0) as (-> & Hh & Hids & Hn).
      assert (HJ' : movingTo cs k p1 id moved db').
      { split; [exact Hwf'|]. split; [exact Ht'|]. split.
        - intros c Hc Ec. destruct (same_place c0 c) eqn:E0.
          + apply same_place_class in E0. rewrite E0.
            rewrite (proj2 (Hcs c c0 Hc Hc0) E0). exact Hown.
          + apply same_place_false in E0.
            apply Hother; [exact E0|]. apply Hoth; assumption.
        - rewrite <- Hid.
          apply (moved_row cs k db' row _ Ht' Hk Hra).
          + apply Hother; [congruence|]. exists row. auto.
          + apply Hkeep. exact Hin. }
      cbv iota.
      destruct (IH moved
                  (MkSummary (sum_created sm) (S (sum_updated sm))
                             (sum_errors sm)) db' Hto' HJ')
        as (HJ2 & Hh2 & Hids2 & Hn2 & Hs2).
      rewrite orb_false_l.
      split; [exact HJ2|]. split; [|split; [|split]].
      * rewrite Hh2, Hh. unfold deltaEntries.
        rewrite Hrp0, Z.eqb_refl, app_nil_r. reflexivity.
      * rewrite Hids2. exact Hids.
      * rewrite Hn2. exact Hn.
      * rewrite Hs2. cbn [sum_created sum_updated sum_errors].
        f_equal. lia.
Qed.

Lemma priced_resolves (cs : list C.t) (c : C.t) (db : Store) :
  tidy cs db -> In c cs -> priced db (cclass c) (C.price c) ->
  exists row,
    findExisting c db = Some row /\ P.price row = C.price c
    /\ forall q, In q (properties db) ->
         key q = ckey c \/ aclass q = cclass c -> q = row.
Proof.
  intros Ht Hc (row & Hin & Ha & Hp). exists row.
  split; [apply (resolves_to_place cs c db row Ht Hc Hin Ha)|].
  split; [exact Hp|]. intros q Hq Hor.
  apply (the_row_at cs c db q row Ht Hc Hq Hin); [|exact Ha].
  destruct Hor as [Hk|Hq']; [|exact Hq'].
  apply (proj2 Ht q c Hq Hc Hk).
Qed.

(** A second run of a batch whose listings have their places at their
    prices: every listing is an update that changes no price. *)
Lemma run_settled (now : Date) (cs : list C.t) :
  consistent cs ->
  forall sm db,
    wf db -> tidy cs db ->
    (forall c, In c cs -> priced db (cclass c) (C.price c)) ->
    let out := fold_left (processOne now) cs (sm, db) in
    wf (snd out) /\ tidy cs (snd out)
    /\ (forall c, In c cs -> priced (snd out) (cclass c) (C.price c))
    /\ priceHistory (snd out) = priceHistory db
    /\ map P.id (properties (snd out)) = map P.id (properties db)
    /\ fst out
       = MkSummary (sum_created sm) (sum_updated sm + List.length cs)
                   (sum_errors sm).
Proof.
  intros Hcs sm db Hwf Ht Hp.
  destruct cs as [|k cs'] eqn:Ecs.
  - cbn [fold_left fst snd List.length]. rewrite Nat.add_0_r.
    destruct sm. split; [exact Hwf|]. split; [exact Ht|].
    split; [intros c []|]. auto.
  - rewrite <- Ecs in *.
    assert (Hk : In k cs) by (rewrite Ecs; left; reflexivity).
    destruct (Hp k Hk) as (row & Hin & Ha & Hpr).
    assert (HJ : movingTo cs k (C.price k + 1) (P.id row) true db).
    { split; [exact Hwf|]. split; [exact Ht|]. split.
      - intros c Hc _. apply Hp. exact Hc.
      - exists row. auto. }
    destruct (run_moving now cs k (C.price k + 1) (P.id row) Hcs Hk
                ltac:(lia) cs true sm db (incl_refl cs) HJ)
      as (HJ2 & Hh & Hids & _ & Hs).
    cbn [orb negb andb] in HJ2, Hh. rewrite app_nil_r in Hh.
    destruct HJ2 as (Hwf2 & Ht2 & Hoth & row2 & Hin2 & Ha2 & _ & Hp2).
    cbv zeta. split; [exact Hwf2|]. split; [exact Ht2|].
    split; [|auto].
    intros c Hc. destruct (same_place k c) eqn:E.
    + apply same_place_class in E. rewrite E.
      rewrite (proj2 (Hcs c k Hc Hk) E). exists row2. auto.
    + apply Hoth; assumption.
Qed.

(** C3, as amended.  Running the pipeline twice on the same mails adds
    nothing the second time, provided the listings of the mails do not
    contradict each other (an identity stands for one place, and a place
    is shown at one price: a card linked twice and a card behind two
    tracking links are admitted), the table before the first run held
    one row at most at each of their places, with the rows stored under
    the identity of a listing at the place of that listing ([tidy]: the
    empty table is so), and every listing can be stored.  The second
    run then reports no error and counts every
    listing as updated; it adds no row to the listing table and none to
    the price history (the rows the first run wrote, for a price-cut
    hint or a changed price, stay); and every listing resolves to one
    record, which has the price of the listing and is the only record
    with its identity or at its place.  The table is then as the next
    run needs it. *)
Theorem rerun_adds_nothing
    (now1 now2 : Date) (year : Z) (mails : list Message) (db : Store) :
  wf db ->
  tidy (fetchPropertyEmails year mails) db ->
  consistent (fetchPropertyEmails year mails) ->
  forallb storable (fetchPropertyEmails year mails) = true ->
  exists s1 db1 s2 db2,
    processPropertyEmails now1 year (Returns mails) db = (s1, db1)
    /\ processPropertyEmails now2 year (Returns mails) db1 = (s2, db2)
    /\ s2 = MkSummary 0 (List.length (fetchPropertyEmails year mails)) []
    /\ Permutation (map P.id (properties db2)) (map P.id (properties db1))
    /\ priceHistory db2 = priceHistory db1
    /\ (forall c, In c (fetchPropertyEmails year mails) ->
         exists row,
           findExisting c db2 = Some row /\ P.price row = C.price c
           /\ forall q, In q (properties db2) ->
                key q = ckey c \/ aclass q = cclass c -> q = row)
    /\ wf db2 /\ tidy (fetchPropertyEmails year mails) db2.
Proof.
  intros Hwf Ht Hcs _. unfold processPropertyEmails, processProperties.
  set (cs := fetchPropertyEmails year mails) in *.
  destruct (run_prices now1 cs Hcs cs [] (MkSummary 0 0 []) db
              (incl_refl cs) (incl_nil_l cs) Hwf Ht)
    as (Hwf1 & Ht1 & Hp1); [intros c []|].
  destruct (fold_left (processOne now1) cs (MkSummary 0 0 [], db))
    as [s1 db1] eqn:E1.
  cbn [snd app] in Hwf1, Ht1, Hp1.
  destruct (run_settled now2 cs Hcs (MkSummary 0 0 []) db1 Hwf1 Ht1 Hp1)
    as (Hwf2 & Ht2 & Hp2 & Hh & Hids & Hs).
  destruct (fold_left (processOne now2) cs (MkSummary 0 0 [], db1))
    as [s2 db2] eqn:E2.
  cbn [fst snd sum_created sum_updated sum_errors Nat.add] in *.
  exists s1, db1, s2, db2.
  split; [reflexivity|]. split; [exact E2|]. split; [exact Hs|].
  split; [|split; [exact Hh|split; [|split; [exact Hwf2|exact Ht2]]]].
  - rewrite Hids. apply Permutation_refl.
  - intros c Hc. apply (priced_resolves cs c db2 Ht2 Hc (Hp2 c Hc)).
Qed.

Lemma rerun_adds_nothing_witness :
  let mails := [linkedTwiceMail; twoLinksMail "$250,000"] in
  wf emptyStore
  /\ tidy (fetchPropertyEmails 2025 mails) emptyStore
  /\ consistent (fetchPropertyEmails 2025 mails)
  /\ forallb storable (fetchPropertyEmails 2025 mails) = true
  /\ List.length (fetchPropertyEmails 2025 mails) = 4%nat
  /\ exists s1 db1 s2 db2,
       processPropertyEmails (Instant 1) 2025 (Returns mails) emptyStore
       = (s1, db1)
       /\ processPropertyEmails (Instant 2) 2025 (Returns mails) db1
          = (s2, db2)
       /\ s2 = MkSummary 0 (List.length (fetchPropertyEmails 2025 mails)) []
       /\ Permutation (map P.id (properties db2))
                      (map P.id (properties db1))
       /\ priceHistory db2 = priceHistory db1
       /\ (forall c, In c (fetchPropertyEmails 2025 mails) ->
            exists row,
              findExisting c db2 = Some row /\ P.price row = C.price c
              /\ forall q, In q (properties db2) ->
                   key q = ckey c \/ aclass q = cclass c -> q = row)
       /\ wf db2 /\ tidy (fetchPropertyEmails 2025 mails) db2.
Proof.
  intros mails.
  assert (H1 : wf emptyStore) by exact wf_empty.
  assert (H2 : tidy (fetchPropertyEmails 2025 mails) emptyStore)
    by apply tidy_empty.
  assert (H3 : consistent (fetchPropertyEmails 2025 mails))
    by (apply consistentb_sound; vm_compute; reflexivity).
  assert (H4 : forallb storable (fetchPropertyEmails 2025 mails) = true)
    by (vm_compute; reflexivity).
  split; [exact H1|]. split; [exact H2|]. split; [exact H3|].
  split; [exact H4|]. split; [vm_compute; reflexivity|].
  exact (rerun_adds_nothing (Instant 1) (Instant 2) 2025 mails emptyStore
           H1 H2 H3 H4).
Defined.






(** *** The tables the program can be in *)





End RunFacts.
